(** * Solar thermal water-heating simulation: [simulateHeatTransfer]

    A shallow embedding of [solarSimulationPassiveLogic.js].  The function is
    one [while] loop over two mutable numbers.  It is written over the
    arithmetic the source uses ([+], [*], [/], [<], [<=] and integer
    literals) and read at [float], the kernel's binary64 numbers: this is
    what a JavaScript [number] is, with its rounding, signed zeros,
    infinities and NaN.  Rational numbers appear only as the values that
    finite binary64 numbers stand for. *)

From Stdlib Require Import ZArith QArith Qpower Qround Lqa Lia List Bool Floats.
Import ListNotations.

(** ** The arithmetic interface *)

Class Number (num : Type) : Type := {
  lit : Z -> num;            (* an integer literal of the source text *)
  add : num -> num -> num;
  mul : num -> num -> num;
  div : num -> num -> num;
  ltb : num -> num -> bool;
  leb : num -> num -> bool
}.

Declare Scope num_scope.
Delimit Scope num_scope with num.
Infix "+" := add : num_scope.
Infix "*" := mul : num_scope.
Infix "/" := div : num_scope.
Infix "<?" := ltb : num_scope.
Infix "<=?" := leb : num_scope.

(** ** The function, over any number type *)

Section Simulation.
Context {num : Type} `{Number num}.
Local Open Scope num_scope.

(** The two [let] variables of the function body. *)
Record state : Type := {
  currentTemperature : num;
  totalTime : num
}.

(** The value of a variable that starts at [x] after [k] executions of
    [x += d]: [d] added [k] times, one addition after the other. *)
Definition accumulated (x d : num) (k : nat) : num :=
  Nat.iter k (fun y => y + d) x.

Section Loop.
Variables mass specificHeat targetTemperature totalPowerOutput timeStep : num.

(** [q = P * timeStep], recomputed by every iteration. *)
Definition energyTransferred : num := totalPowerOutput * timeStep.

(** [dT = q / (m * C)], recomputed by every iteration. *)
Definition temperatureIncrease : num :=
  energyTransferred / (mass * specificHeat).

(** The two assignments of one iteration. *)
Definition advance (s : state) : state :=
  {| currentTemperature := currentTemperature s + temperatureIncrease;
     totalTime := totalTime s + timeStep |}.

(** The two variables [k] iterations after [s]: [k] times
    [currentTemperature += temperatureIncrease] and [totalTime += timeStep]. *)
Definition stateAfter (s : state) (k : nat) : state :=
  {| currentTemperature := accumulated (currentTemperature s) temperatureIncrease k;
     totalTime := accumulated (totalTime s) timeStep k |}.

(** The [while] loop.  [None] means the fuel ran out while the loop
    condition still held; the condition is tested before fuel is spent. *)
Fixpoint loop (fuel : nat) (s : state) : option state :=
  if currentTemperature s <? targetTemperature then
    match fuel with
    | O => None
    | S fuel' =>
        let s' := advance s in
        if temperatureIncrease <=? lit 0 then Some s' (* break *)
        else loop fuel' s'
    end
  else Some s.

(** The states at the end of each of the first [fuel] iterations the
    loop completes, oldest first: for a run that returns, of all its
    iterations once [fuel] is large enough. *)
Fixpoint history (fuel : nat) (s : state) : list state :=
  if currentTemperature s <? targetTemperature then
    match fuel with
    | O => []
    | S fuel' =>
        let s' := advance s in
        if temperatureIncrease <=? lit 0 then [s']
        else s' :: history fuel' s'
    end
  else [].

(** The states the iterations of [history] start from: the entry state
    and every recorded state but the last. *)
Definition starts (fuel : nat) (s : state) : list state :=
  removelast (s :: history fuel s).
End Loop.

Section Call.
Variables mass specificHeat initialTemperature targetTemperature
          numCollectors collectorPower timeStep : num.

Definition initialState : state :=
  {| currentTemperature := initialTemperature; totalTime := lit 0 |}.

Definition totalPowerOutput : num :=
  numCollectors * collectorPower * lit 1000.

(** The state the function body ends in. *)
Definition finalState (fuel : nat) : option state :=
  loop mass specificHeat targetTemperature totalPowerOutput timeStep
       fuel initialState.

(** [simulateHeatTransfer]: the value of [return totalTime]. *)
Definition simulateHeatTransfer (fuel : nat) : option num :=
  option_map totalTime (finalState fuel).

(** The states after each completed iteration of one call. *)
Definition iterations (fuel : nat) : list state :=
  history mass specificHeat targetTemperature totalPowerOutput timeStep
          fuel initialState.

(** The states the iterations of one call start from. *)
Definition iterationStarts (fuel : nat) : list state :=
  starts mass specificHeat targetTemperature totalPowerOutput timeStep
         fuel initialState.

(** The call never leaves its loop. *)
Definition diverges : Prop :=
  forall fuel, simulateHeatTransfer fuel = None.
End Call.

(** A call that may leave out the two parameters with a default value
    ([specificHeat = 4186], [timeStep = 60]); [None] stands for
    [undefined]. *)
Definition orDefault (argument : option num) (default : num) : num :=
  match argument with
  | Some v => v
  | None => default
  end.

Definition simulateHeatTransferCall
    (mass : num) (specificHeat : option num)
    (initialTemperature targetTemperature numCollectors collectorPower : num)
    (timeStep : option num) (fuel : nat) : option num :=
  simulateHeatTransfer mass (orDefault specificHeat (lit 4186))
                       initialTemperature targetTemperature
                       numCollectors collectorPower
                       (orDefault timeStep (lit 60)) fuel.
End Simulation.

Arguments state num : clear implicits.

(** ** JavaScript numbers *)

Module JS.
(** An integer literal denotes the nearest binary64 number. *)
Definition of_Z (z : Z) : float :=
  SF2Prim (binary_normalize prec emax z 0 false).

#[export] Instance number : Number float := {|
  lit := of_Z;
  add := PrimFloat.add;
  mul := PrimFloat.mul;
  div := PrimFloat.div;
  ltb := PrimFloat.ltb;
  leb := PrimFloat.leb
|}.

(** [x === y], or both are NaN. *)
Definition sameValueZero (x y : float) : bool :=
  PrimFloat.eqb x y || (is_nan x && is_nan y).

(** The rational a finite binary64 number stands for. *)
Definition toQ (x : float) : option Q :=
  match Prim2SF x with
  | S754_zero _ => Some 0%Q
  | S754_finite s m e =>
      let v := (inject_Z (Zpos m) * Qpower 2 e)%Q in
      Some (if s then Qopp v else v)
  | _ => None
  end.

(** The same, read on the representation. *)
Definition valueOf (x : spec_float) : option Q :=
  match x with
  | S754_zero _ => Some 0%Q
  | S754_finite s m e =>
      let v := (inject_Z (Zpos m) * Qpower 2 e)%Q in
      Some (if s then Qopp v else v)
  | _ => None
  end.

(** [r] is finite and stands for the rational [q]. *)
Definition exactly (r : float) (q : Q) : bool :=
  match toQ r with
  | Some v => Qeq_bool v q
  | None => false
  end.

(** The binary64 sum, product or quotient of two finite numbers is finite
    and is their exact sum, product or quotient: the operation did not
    round. *)
Definition addsExactly (x y : float) : bool :=
  match toQ x, toQ y with
  | Some a, Some b => exactly (PrimFloat.add x y) (a + b)
  | _, _ => false
  end.

Definition multipliesExactly (x y : float) : bool :=
  match toQ x, toQ y with
  | Some a, Some b => exactly (PrimFloat.mul x y) (a * b)
  | _, _ => false
  end.

Definition dividesExactly (x y : float) : bool :=
  match toQ x, toQ y with
  | Some a, Some b => exactly (PrimFloat.div x y) (a / b)
  | _, _ => false
  end.

(** Two classes of binary64 values the loop treats alike. *)
Definition isZeroOrNaN (x : spec_float) : bool :=
  match x with S754_zero _ | S754_nan => true | _ => false end.

Definition isInfOrNaN (x : spec_float) : bool :=
  match x with S754_infinity _ | S754_nan => true | _ => false end.

(** [0 < x && x < Infinity]: the increases that let the loop go on. *)
Definition positiveFinite (x : float) : bool :=
  PrimFloat.ltb (of_Z 0) x && PrimFloat.ltb x infinity.

(** Values that are not above 0, and values that are not below 0; the two
    zeros and NaN are in both classes. *)
Definition notPositive (x : spec_float) : bool :=
  match x with
  | S754_nan | S754_zero _ => true
  | S754_infinity s | S754_finite s _ _ => s
  end.

Definition notNegative (x : spec_float) : bool :=
  match x with
  | S754_nan | S754_zero _ => true
  | S754_infinity s | S754_finite s _ _ => negb s
  end.

(** The number the literal [0.1] denotes. *)
Definition tenth : float := 0x1.999999999999ap-4%float.

(** The least positive binary64 number, [5e-324]. *)
Definition leastPositive : float := 0x1p-1074%float.

(** The constants and the call at the end of the source file. *)
Definition mass : float := of_Z 10000.
Definition initialTemperature : float := of_Z 20.
Definition targetTemperature : float := of_Z 60.
Definition numCollectors : float := of_Z 25.
Definition collectorPower : float := of_Z 4.
Definition timeStep : float := of_Z 60.

Definition totalTimeInSeconds (fuel : nat) : option float :=
  simulateHeatTransfer mass (of_Z 4186) initialTemperature targetTemperature
                       numCollectors collectorPower timeStep fuel.

(** No operation that computes the temperature increase rounds: the three
    products, the product [mass * specificHeat] and the quotient. *)
Definition increaseExact (mass specificHeat numCollectors collectorPower
                          timeStep : float) : bool :=
  multipliesExactly numCollectors collectorPower &&
  multipliesExactly (PrimFloat.mul numCollectors collectorPower) (of_Z 1000) &&
  multipliesExactly (totalPowerOutput numCollectors collectorPower) timeStep &&
  multipliesExactly mass specificHeat &&
  dividesExactly (energyTransferred (totalPowerOutput numCollectors collectorPower)
                                    timeStep)
                 (PrimFloat.mul mass specificHeat).

(** No addition [currentTemperature += temperatureIncrease] that the call
    performs in its first [fuel] iterations rounds. *)
Definition temperatureAdditionsExact
    (mass specificHeat initialTemperature targetTemperature numCollectors
     collectorPower timeStep : float) (fuel : nat) : bool :=
  forallb (fun s => addsExactly (currentTemperature s)
                      (temperatureIncrease mass specificHeat
                         (totalPowerOutput numCollectors collectorPower) timeStep))
          (iterationStarts mass specificHeat initialTemperature targetTemperature
                           numCollectors collectorPower timeStep fuel).

(** No addition [totalTime += timeStep] that the call performs in its
    first [fuel] iterations rounds. *)
Definition timeAdditionsExact
    (mass specificHeat initialTemperature targetTemperature numCollectors
     collectorPower timeStep : float) (fuel : nat) : bool :=
  forallb (fun s => addsExactly (totalTime s) timeStep)
          (iterationStarts mass specificHeat initialTemperature targetTemperature
                           numCollectors collectorPower timeStep fuel).
End JS.

(** ** The closed form of the specification

    Written from the specification's words, to be compared with the loop:
    [deltaT = (totalPowerOutput * timeStep) / (mass * specificHeat)] and
    [steps = ceil ((targetTemperature - initialTemperature) / deltaT)]. *)

Module Spec.
Local Open Scope Q_scope.

Definition deltaT (mass specificHeat numCollectors collectorPower timeStep : Q) : Q :=
  (numCollectors * collectorPower * 1000 * timeStep) / (mass * specificHeat).

Definition stepsNeeded (mass specificHeat initialTemperature targetTemperature
                        numCollectors collectorPower timeStep : Q) : Z :=
  Qceiling ((targetTemperature - initialTemperature) /
            deltaT mass specificHeat numCollectors collectorPower timeStep).
End Spec.

(** A count of iterations, as a rational. *)
Definition ofNat (n : nat) : Q := inject_Z (Z.of_nat n).

(** * Facts that hold at every number type *)

Lemma last_cons {A : Type} (l : list A) (a d : A) :
  last (a :: l) d = last l a.
Proof.
  revert a d. induction l as [|b l IH]; intros a d; [reflexivity|].
  change (last (a :: b :: l) d) with (last (b :: l) d).
  now rewrite !IH.
Qed.

Section Generic.
Context {num : Type} `{Number num}.
Local Open Scope num_scope.

Variables mass specificHeat targetTemperature power timeStep : num.

Let dT := temperatureIncrease mass specificHeat power timeStep.
Let run := loop mass specificHeat targetTemperature power timeStep.
Let hist := history mass specificHeat targetTemperature power timeStep.

(** A loop whose condition is false on entry returns the state unchanged
    and completes no iteration, whatever the fuel. *)
Lemma loop_exit (fuel : nat) (s : state num) :
  (currentTemperature s <? targetTemperature) = false ->
  run fuel s = Some s /\ hist fuel s = [].
Proof.
  intros Hc. subst run hist. destruct fuel; simpl; rewrite Hc; auto.
Qed.

(** Without fuel, a loop whose condition holds gives no result. *)
Lemma loop_no_fuel (s : state num) :
  (currentTemperature s <? targetTemperature) = true ->
  run O s = None /\ hist O s = [].
Proof.
  intros Hc. subst run hist. simpl. rewrite Hc. auto.
Qed.

(** One unfolding of the loop when its condition holds. *)
Lemma loop_enter (fuel : nat) (s : state num) :
  (currentTemperature s <? targetTemperature) = true ->
  run (S fuel) s =
    (if dT <=? lit 0 then Some (advance mass specificHeat power timeStep s)
     else run fuel (advance mass specificHeat power timeStep s)) /\
  hist (S fuel) s =
    advance mass specificHeat power timeStep s ::
    (if dT <=? lit 0 then [] else hist fuel (advance mass specificHeat power timeStep s)).
Proof.
  intros Hc. subst run hist dT. simpl. rewrite Hc.
  destruct (temperatureIncrease mass specificHeat power timeStep <=? lit 0); auto.
Qed.

(** More fuel never changes a result already reached. *)
Lemma loop_more_fuel (fuel fuel' : nat) (s r : state num) :
  (fuel <= fuel')%nat -> run fuel s = Some r ->
  run fuel' s = Some r /\ hist fuel' s = hist fuel s.
Proof.
  subst run hist. revert fuel' s.
  induction fuel as [|fuel IH]; intros fuel' s Hle Hr.
  - simpl in Hr.
    destruct (currentTemperature s <? targetTemperature) eqn:Hc; [discriminate|].
    destruct fuel'; simpl; rewrite Hc; auto.
  - destruct fuel' as [|fuel']; [lia|].
    simpl in *.
    destruct (currentTemperature s <? targetTemperature); auto.
    destruct (temperatureIncrease mass specificHeat power timeStep <=? lit 0); auto.
    destruct (IH fuel' _ ltac:(lia) Hr) as [-> ->]. auto.
Qed.

(** The state a run returns is the last one it recorded. *)
Lemma loop_last (fuel : nat) (s r : state num) :
  run fuel s = Some r -> r = last (hist fuel s) s.
Proof.
  subst run hist. revert s.
  induction fuel as [|fuel IH]; intros s Hr; simpl in *.
  - destruct (currentTemperature s <? targetTemperature); simpl; congruence.
  - destruct (currentTemperature s <? targetTemperature); [|simpl; congruence].
    destruct (temperatureIncrease mass specificHeat power timeStep <=? lit 0).
    + simpl. congruence.
    + apply IH in Hr. rewrite Hr. symmetry. apply last_cons.
Qed.

(** Every recorded state is [advance] of the one before it, and every
    iteration but the last recorded one passed the guard. *)
Lemma history_nth (fuel : nat) (s : state num) (k : nat) (a b : state num) :
  nth_error (s :: hist fuel s) k = Some a ->
  nth_error (hist fuel s) k = Some b ->
  b = advance mass specificHeat power timeStep a /\
  (currentTemperature a <? targetTemperature) = true /\
  ((S k < length (hist fuel s))%nat -> (dT <=? lit 0) = false).
Proof.
  revert s k.
  induction fuel as [|fuel IH]; intros s k Ha Hb.
  - subst hist. simpl in Hb.
    destruct (currentTemperature s <? targetTemperature); destruct k; discriminate.
  - destruct (currentTemperature s <? targetTemperature) eqn:Hc.
    2:{ destruct (loop_exit (S fuel) s Hc) as [_ E]. rewrite E in Hb.
        destruct k; discriminate. }
    destruct (loop_enter fuel s Hc) as [_ E]. rewrite E in Ha, Hb |- *. clear E.
    destruct (dT <=? lit 0) eqn:Hg.
    + destruct k as [|k]; simpl in Ha, Hb |- *.
      * split; [congruence|]. split; [congruence|]. lia.
      * destruct k; discriminate.
    + destruct k as [|k].
      * simpl in Ha, Hb |- *. split; [congruence|]. split; [congruence|]. auto.
      * change (nth_error (advance mass specificHeat power timeStep s ::
                  hist fuel (advance mass specificHeat power timeStep s)) k = Some a) in Ha.
        change (nth_error (hist fuel (advance mass specificHeat power timeStep s)) k = Some b) in Hb.
        destruct (IH _ _ Ha Hb) as (Eb & C & _). auto.
Qed.
End Generic.

Lemma nth_error_last {A : Type} (l : list A) (d : A) :
  l <> [] -> nth_error l (pred (length l)) = Some (last l d).
Proof.
  induction l as [|a l IH]; intros Hne; [congruence|].
  destruct l as [|b l]; [reflexivity|].
  change (nth_error (b :: l) (pred (length (b :: l))) = Some (last (b :: l) d)).
  apply IH. discriminate.
Qed.

Lemma nth_error_removelast {A : Type} (l : list A) (k : nat) :
  (S k < length l)%nat -> nth_error (removelast l) k = nth_error l k.
Proof.
  revert k. induction l as [|a l IH]; intros k Hk; [simpl in Hk; lia|].
  destruct l as [|b l]; [simpl in Hk; lia|].
  destruct k as [|k]; [reflexivity|].
  change (nth_error (removelast (b :: l)) k = nth_error (b :: l) k).
  apply IH. simpl in *. lia.
Qed.

Section GenericStarts.
Context {num : Type} `{Number num}.
Local Open Scope num_scope.

Variables mass specificHeat targetTemperature power timeStep : num.

Let dT := temperatureIncrease mass specificHeat power timeStep.
Let hist := history mass specificHeat targetTemperature power timeStep.
Let from := starts mass specificHeat targetTemperature power timeStep.

(** No iteration starts when the loop condition is false on entry. *)
Lemma starts_exit (fuel : nat) (s : state num) :
  (currentTemperature s <? targetTemperature) = false -> from fuel s = [].
Proof.
  intros Hc. subst from. unfold starts.
  now destruct (loop_exit mass specificHeat targetTemperature power timeStep
                          fuel s Hc) as [_ ->].
Qed.

(** An entered loop starts an iteration from its entry state, and goes on
    from the next state when the guard does not fire. *)
Lemma starts_enter (fuel : nat) (s : state num) :
  (currentTemperature s <? targetTemperature) = true ->
  from (S fuel) s =
    s :: (if dT <=? lit 0 then []
          else from fuel (advance mass specificHeat power timeStep s)).
Proof.
  intros Hc. subst from. unfold starts.
  destruct (loop_enter mass specificHeat targetTemperature power timeStep
                       fuel s Hc) as [_ ->].
  fold dT. destruct (dT <=? lit 0); reflexivity.
Qed.

(** The state an iteration starts from is among [starts]. *)
Lemma starts_nth (fuel : nat) (s : state num) (k : nat) :
  (k < length (hist fuel s))%nat ->
  nth_error (from fuel s) k = nth_error (s :: hist fuel s) k.
Proof.
  intros Hk. subst from. unfold starts.
  apply nth_error_removelast. simpl. subst hist. lia.
Qed.

(** When the guard fires, the loop completes at most one iteration. *)
Lemma history_guard (fuel : nat) (s : state num) :
  (dT <=? lit 0) = true -> (length (hist fuel s) <= 1)%nat.
Proof.
  intros Hg. subst hist.
  destruct (currentTemperature s <? targetTemperature) eqn:Hc.
  - destruct fuel as [|fuel].
    + destruct (loop_no_fuel mass specificHeat targetTemperature power timeStep s Hc)
        as [_ ->]. simpl. lia.
    + destruct (loop_enter mass specificHeat targetTemperature power timeStep
                           fuel s Hc) as [_ ->].
      fold dT. rewrite Hg. simpl. lia.
  - destruct (loop_exit mass specificHeat targetTemperature power timeStep
                        fuel s Hc) as [_ ->]. simpl. lia.
Qed.
End GenericStarts.

Section GenericSums.
Context {num : Type} `{Number num}.
Local Open Scope num_scope.

Variables mass specificHeat targetTemperature power timeStep : num.

Let dT := temperatureIncrease mass specificHeat power timeStep.
Let run := loop mass specificHeat targetTemperature power timeStep.
Let hist := history mass specificHeat targetTemperature power timeStep.

Let after := stateAfter mass specificHeat power timeStep.

Lemma accumulated_shift (x d : num) (k : nat) :
  accumulated (x + d) d k = accumulated x d (S k).
Proof.
  unfold accumulated. induction k as [|k IH]; [reflexivity|].
  change (Nat.iter k (fun y => y + d) (x + d) + d
          = Nat.iter (S k) (fun y => y + d) x + d).
  now rewrite IH.
Qed.

Lemma after_advance (s : state num) (k : nat) :
  after (advance mass specificHeat power timeStep s) k = after s (S k).
Proof.
  subst after. unfold stateAfter. cbn [advance currentTemperature totalTime].
  now rewrite !accumulated_shift.
Qed.

Lemma after_zero (s : state num) : after s O = s.
Proof. destruct s. reflexivity. Qed.

(** The state at the end of iteration [k + 1] holds the two variables
    with [k + 1] additions each. *)
Lemma history_sums (fuel : nat) : forall (s : state num) (k : nat) (b : state num),
  nth_error (hist fuel s) k = Some b -> b = after s (S k).
Proof.
  subst hist. induction fuel as [|fuel IH]; intros s k b Hb.
  - simpl in Hb. destruct (currentTemperature s <? targetTemperature);
      destruct k; discriminate.
  - simpl in Hb. destruct (currentTemperature s <? targetTemperature);
      [|destruct k; discriminate].
    destruct (temperatureIncrease mass specificHeat power timeStep <=? lit 0).
    + destruct k as [|k]; [|destruct k; discriminate].
      simpl in Hb. injection Hb as <-.
      rewrite <- after_advance. symmetry. apply after_zero.
    + destruct k as [|k].
      * simpl in Hb. injection Hb as <-.
        rewrite <- after_advance. symmetry. apply after_zero.
      * simpl in Hb. apply IH in Hb. now rewrite after_advance in Hb.
Qed.

(** The state a run returns holds the two variables with as many
    additions as iterations were completed. *)
Lemma loop_sums (fuel : nat) (s r : state num) :
  run fuel s = Some r -> r = after s (length (hist fuel s)).
Proof.
  intros Hr. apply loop_last in Hr. fold hist in Hr.
  destruct (hist fuel s) as [|s0 l] eqn:El.
  - simpl in Hr. subst r. symmetry. apply after_zero.
  - assert (Hn : nth_error (s0 :: l) (pred (length (s0 :: l))) = Some r).
    { rewrite Hr. apply nth_error_last. discriminate. }
    rewrite <- El in Hn. apply history_sums in Hn.
    rewrite El in Hn. exact Hn.
Qed.

(** While the guard does not fire, the loop returns exactly when some
    number of additions, within the fuel, brings the temperature out of
    the loop condition, and it returns the state after the least such
    number. *)
Lemma loop_least (fuel : nat) : forall s r : state num,
  (dT <=? lit 0) = false ->
  (run fuel s = Some r <->
   exists k : nat,
     (k <= fuel)%nat /\
     (forall j : nat, (j < k)%nat ->
        (accumulated (currentTemperature s) dT j <? targetTemperature) = true) /\
     (accumulated (currentTemperature s) dT k <? targetTemperature) = false /\
     r = after s k).
Proof.
  intros s r Hg. revert s r.
  induction fuel as [|fuel IH]; intros s r;
    destruct (currentTemperature s <? targetTemperature) eqn:Hc.
  - destruct (loop_no_fuel mass specificHeat targetTemperature power timeStep s Hc)
      as [E _]. fold run in E. rewrite E. split; [discriminate|].
    intros (k & Hk & _ & Hx & _). assert (k = O) by lia. subst k.
    cbn in Hx. congruence.
  - destruct (loop_exit mass specificHeat targetTemperature power timeStep O s Hc)
      as [E _]. fold run in E. rewrite E. split.
    + intros Hr. injection Hr as <-. exists O. repeat split.
      * lia.
      * intros j Hj. lia.
      * exact Hc.
      * symmetry. apply after_zero.
    + intros (k & Hk & _ & _ & Hr). assert (k = O) by lia. subst k.
      now rewrite after_zero in Hr; subst r.
  - destruct (loop_enter mass specificHeat targetTemperature power timeStep fuel s Hc)
      as [E _]. fold run dT in E. rewrite Hg in E. rewrite E, IH.
    cbn [advance currentTemperature]. fold dT. split.
    + intros (k & Hk & Hlt & Hx & Hr). exists (S k). repeat split.
      * lia.
      * intros [|j] Hj; [exact Hc|].
        rewrite <- accumulated_shift. apply Hlt. lia.
      * now rewrite <- accumulated_shift.
      * now rewrite <- after_advance.
    + intros (k & Hk & Hlt & Hx & Hr). destruct k as [|k].
      * cbn in Hx. congruence.
      * exists k. repeat split.
        -- lia.
        -- intros j Hj. rewrite accumulated_shift. apply Hlt. lia.
        -- now rewrite accumulated_shift.
        -- now rewrite after_advance.
  - destruct (loop_exit mass specificHeat targetTemperature power timeStep (S fuel) s Hc)
      as [E _]. fold run in E. rewrite E. split.
    + intros Hr. injection Hr as <-. exists O. repeat split.
      * lia.
      * intros j Hj. lia.
      * exact Hc.
      * symmetry. apply after_zero.
    + intros (k & Hk & Hlt & _ & Hr). destruct k as [|k].
      * now rewrite after_zero in Hr; subst r.
      * specialize (Hlt O ltac:(lia)). cbn in Hlt. congruence.
Qed.

(** While the guard does not fire, the iterations a returning run
    completes are as many as that least number. *)
Lemma history_count (fuel : nat) : forall s r : state num,
  (dT <=? lit 0) = false ->
  run fuel s = Some r ->
  (length (hist fuel s) <= fuel)%nat /\
  (forall j : nat, (j < length (hist fuel s))%nat ->
     (accumulated (currentTemperature s) dT j <? targetTemperature) = true) /\
  (accumulated (currentTemperature s) dT (length (hist fuel s))
   <? targetTemperature) = false.
Proof.
  intros s r Hg. revert s r.
  induction fuel as [|fuel IH]; intros s r Hr;
    destruct (currentTemperature s <? targetTemperature) eqn:Hc.
  - destruct (loop_no_fuel mass specificHeat targetTemperature power timeStep s Hc)
      as [E _]. fold run in E. rewrite E in Hr. discriminate.
  - destruct (loop_exit mass specificHeat targetTemperature power timeStep O s Hc)
      as [_ E]. fold hist in E. rewrite E. cbn [length].
    repeat split; [lia | intros j Hj; lia | exact Hc].
  - destruct (loop_enter mass specificHeat targetTemperature power timeStep fuel s Hc)
      as [E1 E2]. fold run hist dT in E1, E2. rewrite Hg in E1, E2.
    rewrite E1 in Hr. rewrite E2. cbn [length].
    destruct (IH _ _ Hr) as (Hlen & Hlt & Hx).
    cbn [advance currentTemperature] in Hlt, Hx. fold dT in Hlt, Hx.
    repeat split.
    + lia.
    + intros [|j] Hj; [exact Hc|].
      rewrite <- accumulated_shift. apply Hlt. lia.
    + now rewrite <- accumulated_shift.
  - destruct (loop_exit mass specificHeat targetTemperature power timeStep (S fuel) s Hc)
      as [_ E]. fold hist in E. rewrite E. cbn [length].
    repeat split; [lia | intros j Hj; lia | exact Hc].
Qed.
End GenericSums.

(** * Facts about binary64 arithmetic

    Each is read off the specification [Prim2SF] gives the primitive
    operations ([FloatAxioms]). *)

Module Binary64.
Import JS.
Local Open Scope float_scope.

Lemma SFcompare_swap (x y : spec_float) :
  SFcompare y x = option_map CompOpp (SFcompare x y).
Proof.
  destruct x as [sx|sx| |sx mx ex], y as [sy|sy| |sy my ey];
    try reflexivity;
    try (destruct sx; reflexivity); try (destruct sy; reflexivity);
    try (destruct sx, sy; reflexivity).
  simpl. destruct sx, sy; simpl; try reflexivity;
    rewrite (Z.compare_antisym ex ey);
    destruct (ex ?= ey)%Z; simpl; try reflexivity;
    rewrite ?CompOpp_involutive; f_equal.
  - exact (Pos.compare_cont_antisym my mx Eq).
  - symmetry. exact (Pos.compare_cont_antisym mx my Eq).
Qed.

(** [y <= x] excludes [x < y]. *)
Lemma leb_not_ltb (x y : float) : (y <=? x) = true -> (x <? y) = false.
Proof.
  rewrite leb_spec, ltb_spec. unfold SFleb, SFltb.
  rewrite (SFcompare_swap (Prim2SF y) (Prim2SF x)).
  destruct (SFcompare (Prim2SF y) (Prim2SF x)) as [[]|]; simpl; congruence.
Qed.

Lemma SFmul_comm (x y : spec_float) : SF64mul x y = SF64mul y x.
Proof.
  unfold SF64mul.
  destruct x as [sx|sx| |sx mx ex], y as [sy|sy| |sy my ey]; simpl;
    try reflexivity; rewrite (xorb_comm sx sy); try reflexivity.
  now rewrite (Pos.mul_comm mx my), (Z.add_comm ex ey).
Qed.

(** Multiplication of binary64 numbers is commutative. *)
Lemma mul_comm (x y : float) : x * y = y * x.
Proof. apply Prim2SF_inj. rewrite !mul_spec. apply SFmul_comm. Qed.

Lemma SFmul_zero_l (x y : spec_float) :
  isZeroOrNaN x = true -> isZeroOrNaN (SF64mul x y) = true.
Proof. destruct x, y; simpl; congruence. Qed.

Lemma SFmul_zero_r (x y : spec_float) :
  isZeroOrNaN y = true -> isZeroOrNaN (SF64mul x y) = true.
Proof. rewrite SFmul_comm. apply SFmul_zero_l. Qed.

Lemma SFdiv_zero_l (x y : spec_float) :
  isZeroOrNaN x = true -> isZeroOrNaN (SF64div x y) = true.
Proof. destruct x, y; simpl; congruence. Qed.

Lemma SFdiv_zero_r (x y : spec_float) :
  isZeroOrNaN y = true -> isInfOrNaN (SF64div x y) = true.
Proof. destruct x, y; simpl; congruence. Qed.

(** [x == 0] holds of the two zeros only. *)
Lemma eqb_zero (x : float) :
  (x =? JS.of_Z 0) = true -> isZeroOrNaN (Prim2SF x) = true.
Proof.
  rewrite eqb_spec. change (Prim2SF (JS.of_Z 0)) with (S754_zero false).
  destruct (Prim2SF x) as [s|s| |s m e]; try reflexivity;
    destruct s; discriminate.
Qed.

Lemma SFeqb_refl (x : spec_float) : x <> S754_nan -> SFeqb x x = true.
Proof.
  destruct x as [s|s| |s m e]; try congruence; intros _;
    unfold SFeqb; simpl; try (destruct s; reflexivity).
  destruct s; rewrite Z.compare_refl, Pos.compare_cont_refl; reflexivity.
Qed.

(** [0 + x] is [x], as [===] sees it. *)
Lemma zero_plus (x : float) : JS.sameValueZero (JS.of_Z 0 + x) x = true.
Proof.
  unfold JS.sameValueZero, is_nan. rewrite !eqb_spec, add_spec.
  change (Prim2SF (JS.of_Z 0)) with (S754_zero false).
  destruct (Prim2SF x) as [s|s| |s m e] eqn:E.
  - destruct s; reflexivity.
  - destruct s; reflexivity.
  - reflexivity.
  - change (SF64add (S754_zero false) (S754_finite s m e)) with (S754_finite s m e).
    rewrite SFeqb_refl; [reflexivity | discriminate].
Qed.
End Binary64.

(** * The loop on JavaScript numbers *)

Module JSLoop.
Import JS Binary64.
Local Open Scope float_scope.

Ltac js_ops :=
  change (@ltb float JS.number) with PrimFloat.ltb in *;
  change (@leb float JS.number) with PrimFloat.leb in *;
  change (@add float JS.number) with PrimFloat.add in *;
  change (@mul float JS.number) with PrimFloat.mul in *;
  change (@div float JS.number) with PrimFloat.div in *;
  change (@lit float JS.number) with JS.of_Z in *.

(** Nothing is below NaN, and [+Infinity] is below nothing. *)
Lemma not_below (x t : float) :
  Prim2SF x = S754_nan \/ Prim2SF x = S754_infinity false ->
  (x <? t) = false.
Proof.
  rewrite ltb_spec. intros [-> | ->]; [reflexivity|].
  destruct (Prim2SF t) as [s|s| |s m e]; try reflexivity; destruct s; reflexivity.
Qed.

(** Anything raised by [+Infinity] is NaN or [+Infinity]. *)
Lemma plus_infinity (x d : float) :
  Prim2SF d = S754_infinity false ->
  Prim2SF (x + d) = S754_nan \/ Prim2SF (x + d) = S754_infinity false.
Proof.
  rewrite add_spec. intros ->.
  destruct (Prim2SF x) as [s|s| |s m e]; simpl; auto.
  destruct s; auto.
Qed.

(** When the temperature increase is a zero, an infinity or NaN, a loop
    that is entered completes exactly one iteration. *)
Lemma one_iteration (m c t P ts : float) (s : state float) (fuel : nat) :
  (currentTemperature s <? t) = true ->
  isZeroOrNaN (Prim2SF (temperatureIncrease m c P ts)) = true \/
  isInfOrNaN (Prim2SF (temperatureIncrease m c P ts)) = true ->
  loop m c t P ts (S fuel) s = Some (advance m c P ts s) /\
  history m c t P ts (S fuel) s = [advance m c P ts s].
Proof.
  intros Hc HD.
  destruct (loop_enter (H := JS.number) m c t P ts fuel s Hc) as [E1 E2].
  rewrite E1, E2. clear E1 E2.
  set (D := temperatureIncrease m c P ts) in *.
  assert (Hstop : (D <=? of_Z 0) = false ->
                  (currentTemperature (advance m c P ts s) <? t) = false).
  { intros Hg. apply not_below.
    change (currentTemperature (advance m c P ts s))
      with (currentTemperature s + D).
    revert Hg. rewrite leb_spec. change (Prim2SF (of_Z 0)) with (S754_zero false).
    destruct (Prim2SF D) as [sd|sd| |sd md ed] eqn:ED;
      try (destruct HD; discriminate).
    - destruct sd; [discriminate|]. intros _.
      apply plus_infinity; assumption.
    - intros _. left. rewrite add_spec, ED.
      destruct (Prim2SF (currentTemperature s)); reflexivity. }
  js_ops. destruct (D <=? of_Z 0); [auto|].
  destruct (loop_exit (H := JS.number) m c t P ts fuel (advance m c P ts s)
                      (Hstop eq_refl)) as [-> ->].
  auto.
Qed.
End JSLoop.

(** * More facts about binary64 arithmetic *)

Module Binary64Signs.
Import JS Binary64 JSLoop.
Local Open Scope float_scope.

(** Rounding keeps the sign it is given. *)
Lemma binary_round_aux_sign (s : bool) (m e : Z) (l : location) :
  (if s then notPositive (binary_round_aux prec emax s m e l)
   else notNegative (binary_round_aux prec emax s m e l)) = true.
Proof.
  unfold binary_round_aux.
  destruct (shr_fexp prec emax m e l) as [mrs' e'].
  destruct (shr_fexp prec emax _ e' loc_Exact) as [mrs'' e''].
  destruct (shr_m mrs'') as [|p|p]; [destruct s; reflexivity| |destruct s; reflexivity].
  destruct (e'' <=? emax - prec)%Z; destruct s; reflexivity.
Qed.

(** The sign of a product. *)
Lemma SFmul_sign (x y : spec_float) :
  (notPositive x = true -> notNegative y = true -> notPositive (SF64mul x y) = true) /\
  (notNegative x = true -> notNegative y = true -> notNegative (SF64mul x y) = true).
Proof.
  destruct x as [sx|sx| |sx mx ex], y as [sy|sy| |sy my ey];
    try (split; reflexivity);
    try (split; intros E1 E2; simpl in E1, E2;
         try apply negb_true_iff in E1; try apply negb_true_iff in E2;
         subst; reflexivity).
  split; intros E1 E2; simpl in E1, E2;
    try apply negb_true_iff in E1; try apply negb_true_iff in E2; subst.
  - apply (binary_round_aux_sign true).
  - apply (binary_round_aux_sign false).
Qed.

(** The sign of a quotient; a zero divisor of either sign gives an infinity. *)
Lemma SFdiv_sign (x y : spec_float) :
  notPositive x = true -> notNegative y = true ->
  notPositive (SF64div x y) = true \/ isInfOrNaN (SF64div x y) = true.
Proof.
  destruct x as [sx|sx| |sx mx ex], y as [sy|sy| |sy my ey];
    intros E1 E2; try (left; reflexivity); try (right; reflexivity);
    simpl in E1, E2; try apply negb_true_iff in E2; subst;
    try (left; reflexivity).
  left. unfold SF64div, SFdiv.
  destruct (SFdiv_core_binary prec emax (Z.pos mx) ex (Z.pos my) ey) as [[mz ez] lz].
  apply (binary_round_aux_sign true).
Qed.

(** What is not positive and finite. *)
Lemma positiveFinite_spec (x : float) :
  positiveFinite x = false ->
  notPositive (Prim2SF x) = true \/ isInfOrNaN (Prim2SF x) = true.
Proof.
  unfold positiveFinite. rewrite !ltb_spec.
  change (Prim2SF (of_Z 0)) with (S754_zero false).
  change (Prim2SF infinity) with (S754_infinity false).
  destruct (Prim2SF x) as [s|s| |s m e]; auto;
    destruct s; auto; discriminate.
Qed.

(** [x <= 0] and [0 <= x], read on the representation. *)
Lemma leb_zero_r (x : float) :
  (x <=? of_Z 0) = true -> notPositive (Prim2SF x) = true.
Proof.
  rewrite leb_spec. change (Prim2SF (of_Z 0)) with (S754_zero false).
  destruct (Prim2SF x) as [s|s| |s m e]; try reflexivity; destruct s; auto.
Qed.

Lemma leb_zero_l (x : float) :
  (of_Z 0 <=? x) = true -> notNegative (Prim2SF x) = true.
Proof.
  rewrite leb_spec. change (Prim2SF (of_Z 0)) with (S754_zero false).
  destruct (Prim2SF x) as [s|s| |s m e]; try reflexivity; destruct s; auto.
Qed.

(** [x !== x] holds of NaN only. *)
Lemma is_nan_spec (x : float) : is_nan x = true -> Prim2SF x = S754_nan.
Proof.
  unfold is_nan. rewrite eqb_spec. intros E.
  destruct (Prim2SF x) as [s|s| |s m e] eqn:Ex; try reflexivity;
    rewrite SFeqb_refl in E by discriminate; discriminate.
Qed.
End Binary64Signs.

(** * The order of binary64 numbers and the order of their values

    [valid_binary] makes the representation of a finite number unique, so
    that [SFcompare], which looks at the exponents first, agrees with the
    order of the rationals the numbers stand for. *)

Module Binary64Order.
Import JS.
Local Open Scope Z_scope.

(** The number of binary digits of a positive number. *)
Lemma digits2_size (p : positive) : digits2_pos p = Pos.size p.
Proof. induction p; simpl; congruence. Qed.

Lemma digits2_bounds (p : positive) :
  2 ^ (Z.pos (digits2_pos p) - 1) <= Z.pos p < 2 ^ Z.pos (digits2_pos p).
Proof.
  rewrite digits2_size.
  pose proof (Pos.size_gt p) as Hgt. pose proof (Pos.size_le p) as Hle.
  apply Pos2Z.pos_lt_pos in Hgt. apply Pos2Z.pos_le_pos in Hle.
  rewrite Pos2Z.inj_pow in Hgt, Hle.
  split; [|exact Hgt].
  replace (Z.pos (Pos.size p)) with (Z.succ (Z.pos (Pos.size p) - 1)) in Hle by lia.
  rewrite Z.pow_succ_r in Hle by lia. lia.
Qed.

(** What [valid_binary] says of a finite number. *)
Lemma bounded_spec (m : positive) (e : Z) :
  bounded prec emax m e = true ->
  -1074 <= e <= 971 /\ Z.pos (digits2_pos m) <= 53 /\
  (-1074 < e -> Z.pos (digits2_pos m) = 53).
Proof.
  unfold bounded, canonical_mantissa, fexp, emin, prec, emax.
  intros H. apply andb_true_iff in H. destruct H as [H1 H2].
  apply Z.eqb_eq in H1. apply Z.leb_le in H2. lia.
Qed.

Lemma mantissa_bounds (m : positive) (e : Z) :
  bounded prec emax m e = true ->
  Z.pos m < 2 ^ 53 /\ (-1074 < e -> 2 ^ 52 <= Z.pos m).
Proof.
  intros H. apply bounded_spec in H. destruct H as (_ & Hd & Hn).
  pose proof (digits2_bounds m) as [Hlo Hhi].
  split.
  - eapply Z.lt_le_trans; [exact Hhi|]. apply Z.pow_le_mono_r; lia.
  - intros He. rewrite (Hn He) in Hlo. exact Hlo.
Qed.

(** Among valid finite numbers the exponent decides before the mantissa. *)
Lemma exponent_decides (m1 m2 : positive) (e1 e2 : Z) :
  bounded prec emax m1 e1 = true -> bounded prec emax m2 e2 = true ->
  e1 < e2 -> Z.pos m1 < Z.pos m2 * 2 ^ (e2 - e1).
Proof.
  intros H1 H2 He.
  pose proof (bounded_spec _ _ H1) as (He1 & _).
  destruct (mantissa_bounds _ _ H1) as [Hm1 _].
  destruct (mantissa_bounds _ _ H2) as [_ Hm2].
  specialize (Hm2 ltac:(lia)).
  assert (Hp : 2 ^ 1 <= 2 ^ (e2 - e1)) by (apply Z.pow_le_mono_r; lia).
  change (2 ^ 1) with 2 in Hp.
  change (2 ^ 53) with (2 ^ 52 * 2) in Hm1. nia.
Qed.
End Binary64Order.

Module Binary64Value.
Import JS Binary64Order.
Local Open Scope Q_scope.

Lemma two_power_pos (e : Z) : 0 < 2 ^ e.
Proof. apply Qpower_0_lt. reflexivity. Qed.

Lemma two_power_split (e1 e2 : Z) :
  (e1 <= e2)%Z -> 2 ^ e2 == inject_Z (2 ^ (e2 - e1)) * 2 ^ e1.
Proof.
  intros He. rewrite Zpower_Qpower by lia.
  rewrite <- Qpower_plus by discriminate.
  now replace (e2 - e1 + e1)%Z with e2 by lia.
Qed.

(** Comparing two scaled integers with a common positive scale. *)
Lemma Qcompare_scale (a b : Z) (q : Q) :
  0 < q -> (inject_Z a * q ?= inject_Z b * q) = (a ?= b)%Z.
Proof.
  intros Hq. destruct (Z.compare_spec a b) as [E | L | G].
  - subst. apply (proj1 (Qeq_alt _ _)). reflexivity.
  - apply (proj1 (Qlt_alt _ _)). apply Qmult_lt_compat_r; [exact Hq|]. now rewrite <- Zlt_Qlt.
  - apply (proj1 (Qgt_alt _ _)). apply Qmult_lt_compat_r; [exact Hq|]. now rewrite <- Zlt_Qlt.
Qed.

Lemma Qcompare_comp (x x' y y' : Q) :
  x == x' -> y == y' -> (x ?= y) = (x' ?= y').
Proof. intros -> ->. reflexivity. Qed.

(** The order of two positive valid finite numbers, as [SFcompare] computes
    it, is the order of their values. *)
Lemma compare_finite (m1 m2 : positive) (e1 e2 : Z) :
  bounded prec emax m1 e1 = true -> bounded prec emax m2 e2 = true ->
  match (e1 ?= e2)%Z with
  | Lt => Lt
  | Gt => Gt
  | Eq => Pos.compare_cont Eq m1 m2
  end = (inject_Z (Z.pos m1) * 2 ^ e1 ?= inject_Z (Z.pos m2) * 2 ^ e2).
Proof.
  intros H1 H2. destruct (Z.compare_spec e1 e2) as [E | L | G].
  - subst e2. rewrite Qcompare_scale by apply two_power_pos. reflexivity.
  - symmetry. apply (proj1 (Qlt_alt _ _)).
    rewrite (two_power_split e1 e2) by lia.
    rewrite Qmult_assoc, <- inject_Z_mult.
    apply Qmult_lt_compat_r; [apply two_power_pos|].
    rewrite <- Zlt_Qlt. now apply exponent_decides.
  - symmetry. apply (proj1 (Qgt_alt _ _)).
    rewrite (two_power_split e2 e1) by lia.
    rewrite Qmult_assoc, <- inject_Z_mult.
    apply Qmult_lt_compat_r; [apply two_power_pos|].
    rewrite <- Zlt_Qlt. now apply exponent_decides.
Qed.

Lemma value_pos (m : positive) (e : Z) : 0 < inject_Z (Z.pos m) * 2 ^ e.
Proof.
  apply Qmult_lt_0_compat; [|apply two_power_pos].
  change 0 with (inject_Z 0). now rewrite <- Zlt_Qlt.
Qed.

Lemma Qcompare_opp (x y : Q) : (- x ?= - y) = CompOpp (x ?= y).
Proof.
  destruct (Qcompare_spec x y) as [E | L | G]; simpl.
  - apply (proj1 (Qeq_alt _ _)). now rewrite E.
  - apply (proj1 (Qgt_alt _ _)). lra.
  - apply (proj1 (Qlt_alt _ _)). lra.
Qed.

(** [SFcompare] on valid finite numbers is the comparison of their values. *)
Lemma SFcompare_value (x y : spec_float) (qx qy : Q) :
  valid_binary x = true -> valid_binary y = true ->
  valueOf x = Some qx -> valueOf y = Some qy ->
  SFcompare x y = Some (qx ?= qy).
Proof.
  destruct x as [sx|sx| |sx mx ex], y as [sy|sy| |sy my ey];
    intros Vx Vy Ex Ey; simpl in Ex, Ey; try discriminate;
    injection Ex as <-; injection Ey as <-; simpl in Vx, Vy.
  - reflexivity.
  - simpl. f_equal. symmetry. pose proof (value_pos my ey).
    destruct sy; [apply (proj1 (Qgt_alt _ _)) | apply (proj1 (Qlt_alt _ _))]; lra.
  - simpl. f_equal. symmetry. pose proof (value_pos mx ex).
    destruct sx; [apply (proj1 (Qlt_alt _ _)) | apply (proj1 (Qgt_alt _ _))]; lra.
  - pose proof (value_pos mx ex). pose proof (value_pos my ey).
    simpl. f_equal. destruct sx, sy.
    + rewrite Qcompare_opp, <- compare_finite by assumption.
      destruct (ex ?= ey)%Z; reflexivity.
    + symmetry. apply (proj1 (Qlt_alt _ _)). lra.
    + symmetry. apply (proj1 (Qgt_alt _ _)). lra.
    + now apply compare_finite.
Qed.

Local Open Scope float_scope.

Lemma toQ_valueOf (x : float) : toQ x = valueOf (Prim2SF x).
Proof. reflexivity. Qed.

Lemma compare_toQ (x y : float) (qx qy : Q) :
  toQ x = Some qx -> toQ y = Some qy ->
  SFcompare (Prim2SF x) (Prim2SF y) = Some (qx ?= qy)%Q.
Proof.
  intros Ex Ey. apply SFcompare_value; try apply Prim2SF_valid; assumption.
Qed.

(** [<] and [<=] on finite binary64 numbers are [<] and [<=] on their
    values. *)
Lemma ltb_toQ (x y : float) (qx qy : Q) :
  toQ x = Some qx -> toQ y = Some qy ->
  (x <? y) = true <-> (qx < qy)%Q.
Proof.
  intros Ex Ey. rewrite ltb_spec. unfold SFltb.
  rewrite (compare_toQ x y qx qy Ex Ey), Qlt_alt.
  destruct (qx ?= qy)%Q; split; congruence.
Qed.

Lemma ltb_toQ_false (x y : float) (qx qy : Q) :
  toQ x = Some qx -> toQ y = Some qy ->
  (x <? y) = false <-> (qy <= qx)%Q.
Proof.
  intros Ex Ey. rewrite <- not_true_iff_false, (ltb_toQ x y qx qy Ex Ey).
  split; [apply Qnot_lt_le | apply Qle_not_lt].
Qed.

Lemma leb_toQ (x y : float) (qx qy : Q) :
  toQ x = Some qx -> toQ y = Some qy ->
  (x <=? y) = true <-> (qx <= qy)%Q.
Proof.
  intros Ex Ey. rewrite leb_spec. unfold SFleb.
  rewrite (compare_toQ x y qx qy Ex Ey), Qle_alt.
  destruct (qx ?= qy)%Q; split; congruence.
Qed.

Lemma leb_toQ_false (x y : float) (qx qy : Q) :
  toQ x = Some qx -> toQ y = Some qy ->
  (x <=? y) = false <-> (qy < qx)%Q.
Proof.
  intros Ex Ey. rewrite <- not_true_iff_false, (leb_toQ x y qx qy Ex Ey).
  split; [apply Qnot_le_lt | apply Qlt_not_le].
Qed.
End Binary64Value.

(** * Operations that do not round *)

Module Binary64Exact.
Import JS Binary64Value.
Local Open Scope Q_scope.

Lemma exactly_spec (r : float) (q : Q) :
  exactly r q = true <-> exists v, toQ r = Some v /\ v == q.
Proof.
  unfold exactly. destruct (toQ r) as [v|].
  - rewrite Qeq_bool_iff. split.
    + intros E. now exists v.
    + intros (v' & Ev & E). now injection Ev as ->.
  - split; [discriminate | intros (v & Ev & _); discriminate].
Qed.

Lemma exactly_comp (r : float) (q q' : Q) :
  q == q' -> exactly r q = true -> exactly r q' = true.
Proof.
  intros E H. apply exactly_spec in H. destruct H as (v & Ev & Hv).
  apply exactly_spec. exists v. split; [exact Ev|]. now rewrite Hv.
Qed.

Lemma exactly_unique (r : float) (q q' : Q) :
  exactly r q = true -> exactly r q' = true -> q == q'.
Proof.
  intros H H'. apply exactly_spec in H, H'.
  destruct H as (v & Ev & Hv), H' as (v' & Ev' & Hv').
  rewrite Ev in Ev'. injection Ev' as <-. now rewrite <- Hv, <- Hv'.
Qed.

Lemma exactly_zero : exactly (of_Z 0) 0 = true.
Proof. reflexivity. Qed.

Lemma exactly_thousand : exactly (of_Z 1000) 1000 = true.
Proof. vm_compute. reflexivity. Qed.

Section Operation.
Variable op : float -> float -> float.
Variable qop : Q -> Q -> Q.
Hypothesis qop_comp : forall a a' b b', a == a' -> b == b' -> qop a b == qop a' b'.

Lemma operation_exactly (x y : float) (qx qy : Q) :
  exactly x qx = true -> exactly y qy = true ->
  match toQ x, toQ y with
  | Some a, Some b => exactly (op x y) (qop a b)
  | _, _ => false
  end = true ->
  exactly (op x y) (qop qx qy) = true.
Proof.
  intros Hx Hy H. apply exactly_spec in Hx, Hy.
  destruct Hx as (a & Ea & Ha), Hy as (b & Eb & Hb).
  rewrite Ea, Eb in H. revert H. apply exactly_comp. now apply qop_comp.
Qed.
End Operation.

Lemma add_exactly (x y : float) (qx qy : Q) :
  exactly x qx = true -> exactly y qy = true -> addsExactly x y = true ->
  exactly (PrimFloat.add x y) (qx + qy) = true.
Proof.
  apply (operation_exactly PrimFloat.add Qplus).
  intros a a' b b' -> ->. reflexivity.
Qed.

Lemma mul_exactly (x y : float) (qx qy : Q) :
  exactly x qx = true -> exactly y qy = true -> multipliesExactly x y = true ->
  exactly (PrimFloat.mul x y) (qx * qy) = true.
Proof.
  apply (operation_exactly PrimFloat.mul Qmult).
  intros a a' b b' -> ->. reflexivity.
Qed.

Lemma div_exactly (x y : float) (qx qy : Q) :
  exactly x qx = true -> exactly y qy = true -> dividesExactly x y = true ->
  exactly (PrimFloat.div x y) (qx / qy) = true.
Proof.
  apply (operation_exactly PrimFloat.div Qdiv).
  intros a a' b b' -> ->. reflexivity.
Qed.

(** An exact addition has finite operands. *)
Lemma addsExactly_finite (x y : float) :
  addsExactly x y = true ->
  exists a b, exactly x a = true /\ exactly y b = true.
Proof.
  unfold addsExactly. intros H.
  destruct (toQ x) as [a|] eqn:Ea; [|discriminate].
  destruct (toQ y) as [b|] eqn:Eb; [|discriminate].
  exists a, b. split; apply exactly_spec; eexists; split; eauto; reflexivity.
Qed.

(** The order of finite binary64 numbers is the order of their values. *)
Lemma ltb_exactly (x y : float) (qx qy : Q) :
  exactly x qx = true -> exactly y qy = true ->
  (PrimFloat.ltb x y = true <-> qx < qy) /\
  (PrimFloat.ltb x y = false <-> qy <= qx).
Proof.
  intros Hx Hy. apply exactly_spec in Hx, Hy.
  destruct Hx as (a & Ea & Ha), Hy as (b & Eb & Hb).
  rewrite (ltb_toQ x y a b Ea Eb), (ltb_toQ_false x y a b Ea Eb), Ha, Hb.
  split; reflexivity.
Qed.

Lemma leb_exactly (x y : float) (qx qy : Q) :
  exactly x qx = true -> exactly y qy = true ->
  (PrimFloat.leb x y = true <-> qx <= qy) /\
  (PrimFloat.leb x y = false <-> qy < qx).
Proof.
  intros Hx Hy. apply exactly_spec in Hx, Hy.
  destruct Hx as (a & Ea & Ha), Hy as (b & Eb & Hb).
  rewrite (leb_toQ x y a b Ea Eb), (leb_toQ_false x y a b Ea Eb), Ha, Hb.
  split; reflexivity.
Qed.
End Binary64Exact.

(** * Rounded addition

    [SF64add] aligns the two mantissas, adds them and rounds the sum to 53
    digits.  The lemmas below follow the rounding through [shr], which
    drops the digits that do not fit, and bound its result by the
    truncated mantissa and its successor. *)

Module Binary64Shift.
Import Binary64Order.
Local Open Scope Z_scope.

(** [iter_pos] is iteration. *)
Lemma iter_pos_nat {A : Type} (f : A -> A) (n : positive) (x : A) :
  iter_pos f n x = Nat.iter (Pos.to_nat n) f x.
Proof.
  revert x. induction n as [n IH | n IH |]; intros x; cbn [iter_pos].
  - rewrite !IH, Pos2Nat.inj_xI.
    change (S (2 * Pos.to_nat n)) with (1 + 2 * Pos.to_nat n)%nat.
    replace (1 + 2 * Pos.to_nat n)%nat with (Pos.to_nat n + (Pos.to_nat n + 1))%nat by lia.
    rewrite !Nat.iter_add. reflexivity.
  - rewrite !IH, Pos2Nat.inj_xO.
    replace (2 * Pos.to_nat n)%nat with (Pos.to_nat n + Pos.to_nat n)%nat by lia.
    now rewrite Nat.iter_add.
  - reflexivity.
Qed.

(** One shift to the right halves a mantissa that is not negative. *)
Lemma shr_1_m (mrs : shr_record) :
  0 <= shr_m mrs -> shr_m (shr_1 mrs) = shr_m mrs / 2.
Proof.
  destruct mrs as [m r s]. simpl. intros Hm.
  destruct m as [|p|p]; [reflexivity| |lia].
  destruct p as [p|p|]; simpl.
  - rewrite Pos2Z.inj_xI. apply (Z.div_unique _ 2 _ 1); lia.
  - rewrite Pos2Z.inj_xO. apply (Z.div_unique _ 2 _ 0); lia.
  - reflexivity.
Qed.

(** [n] shifts to the right divide by [2 ^ n]. *)
Lemma shr_iter_m (n : nat) : forall mrs : shr_record,
  0 <= shr_m mrs ->
  shr_m (Nat.iter n shr_1 mrs) = shr_m mrs / 2 ^ Z.of_nat n.
Proof.
  induction n as [|n IH]; intros mrs Hm.
  - simpl. now rewrite Z.div_1_r.
  - rewrite Nat.iter_succ_r, IH, shr_1_m by (try rewrite shr_1_m; try apply Z.div_pos; lia).
    rewrite Nat2Z.inj_succ, Z.pow_succ_r by lia.
    rewrite Z.div_div by lia. reflexivity.
Qed.

(** What [shr] does to a mantissa that is not negative. *)
Lemma shr_spec (m e n : Z) (r s : bool) :
  0 <= m ->
  (0 < n ->
   snd (shr (Build_shr_record m r s) e n) = e + n /\
   shr_m (fst (shr (Build_shr_record m r s) e n)) = m / 2 ^ n) /\
  (n <= 0 -> shr (Build_shr_record m r s) e n = (Build_shr_record m r s, e)).
Proof.
  intros Hm. split.
  - intros Hn. destruct n as [|p|p]; try lia. simpl.
    split; [reflexivity|].
    rewrite iter_pos_nat, shr_iter_m by exact Hm.
    now rewrite positive_nat_Z.
  - intros Hn. destruct n as [|p|p]; try lia; reflexivity.
Qed.

(** Rounding to nearest moves a mantissa up by at most one. *)
Lemma round_nearest_even_bounds (m : Z) (l : location) :
  m <= round_nearest_even m l <= m + 1.
Proof.
  destruct l as [|[]]; simpl; try destruct (Z.even m); lia.
Qed.

(** Aligning to a lower exponent multiplies the mantissa by a power of 2. *)
Lemma iter_xO (d : positive) (m : positive) :
  Z.pos (Pos.iter xO m d) = Z.pos m * 2 ^ Z.pos d.
Proof.
  induction d as [|d IH] using Pos.peano_ind.
  - simpl. lia.
  - rewrite Pos.iter_succ, Pos2Z.inj_xO, IH, Pos2Z.inj_succ, Z.pow_succ_r by lia. lia.
Qed.

Lemma shl_align_spec (m : positive) (e e' : Z) :
  e' <= e ->
  Z.pos (fst (shl_align m e e')) = Z.pos m * 2 ^ (e - e').
Proof.
  intros He. unfold shl_align.
  destruct (e' - e) as [|d|d] eqn:Ed; try lia.
  - replace (e - e') with 0 by lia. cbn [fst]. rewrite Z.pow_0_r. lia.
  - cbn [fst]. rewrite iter_xO. f_equal. f_equal. lia.
Qed.

Lemma shl_align_full (m : positive) (e e' : Z) :
  (e' < e -> exists mz, shl_align m e e' = (mz, e') /\ Z.pos mz = Z.pos m * 2 ^ (e - e')) /\
  (e <= e' -> shl_align m e e' = (m, e)).
Proof.
  unfold shl_align. split; intros He.
  - destruct (e' - e) as [|d|d] eqn:Ed; try lia.
    eexists. split; [reflexivity|]. rewrite iter_xO. f_equal. f_equal. lia.
  - destruct (e' - e) as [|d|d] eqn:Ed; try lia; reflexivity.
Qed.

(** The number of digits. *)
Lemma digits_unique (p : positive) (a : Z) :
  2 ^ (a - 1) <= Z.pos p < 2 ^ a -> Z.pos (digits2_pos p) = a.
Proof.
  intros [Hlo Hhi]. pose proof (digits2_bounds p) as [Dlo Dhi].
  assert (Ha : 0 <= a).
  { destruct (Z.lt_ge_cases a 0) as [N|]; [|assumption].
    rewrite Z.pow_neg_r in Hhi by assumption. lia. }
  assert (a - 1 < Z.pos (digits2_pos p)).
  { apply (Z.pow_lt_mono_r_iff 2); lia. }
  assert (Z.pos (digits2_pos p) - 1 < a).
  { apply (Z.pow_lt_mono_r_iff 2); lia. }
  lia.
Qed.

Lemma digits_shift (p q : positive) (k : Z) :
  0 <= k -> Z.pos q = Z.pos p * 2 ^ k ->
  Z.pos (digits2_pos q) = Z.pos (digits2_pos p) + k.
Proof.
  intros Hk E. apply digits_unique. rewrite E.
  pose proof (digits2_bounds p) as [Dlo Dhi].
  assert (Hp : 0 < 2 ^ k) by (apply Z.pow_pos_nonneg; lia).
  replace (Z.pos (digits2_pos p) + k - 1) with (Z.pos (digits2_pos p) - 1 + k) by lia.
  rewrite !Z.pow_add_r by lia. nia.
Qed.

Lemma digits_monotone (p q : positive) :
  Z.pos p <= Z.pos q -> Z.pos (digits2_pos p) <= Z.pos (digits2_pos q).
Proof.
  intros Hle. pose proof (digits2_bounds p) as [Plo _].
  pose proof (digits2_bounds q) as [_ Qhi].
  assert (Z.pos (digits2_pos p) - 1 < Z.pos (digits2_pos q)).
  { apply (Z.pow_lt_mono_r_iff 2); lia. }
  lia.
Qed.
End Binary64Shift.

Module Binary64Round.
Import Binary64Order Binary64Shift.
Local Open Scope Z_scope.

Lemma fexp_spec (x : Z) : fexp prec emax x = Z.max (x - 53) (-1074).
Proof. reflexivity. Qed.

(** Rounding a mantissa that is already at its exponent changes
    nothing. *)
Lemma binary_round_aux_canonical (s : bool) (m : positive) (e : Z) :
  fexp prec emax (Z.pos (digits2_pos m) + e) = e ->
  binary_round_aux prec emax s (Z.pos m) e loc_Exact =
  if e <=? 971 then S754_finite s m e else S754_infinity s.
Proof.
  intros He. unfold binary_round_aux, shr_fexp.
  change (Zdigits2 (Z.pos m)) with (Z.pos (digits2_pos m)).
  rewrite He, Z.sub_diag. cbn [shr shr_record_of_loc].
  cbn [shr_m loc_of_shr_record round_nearest_even].
  change (Zdigits2 (Z.pos m)) with (Z.pos (digits2_pos m)).
  rewrite He, Z.sub_diag. cbn [shr shr_record_of_loc shr_m]. reflexivity.
Qed.

(** The shape of a rounded mantissa that has to lose digits: the quotient
    [q] by the power of 2 that brings it to its exponent [e0], or [q + 1];
    a carry moves the exponent to [e0 + 1]. *)
Lemma binary_round_aux_shape (s : bool) (m : positive) (e : Z) :
  let e0 := fexp prec emax (Z.pos (digits2_pos m) + e) in
  let q := Z.pos m / 2 ^ (e0 - e) in
  let R := binary_round_aux prec emax s (Z.pos m) e loc_Exact in
  e <= e0 ->
  (R = S754_zero s /\ q = 0) \/
  (R = S754_infinity s /\ (971 < e0 \/ (971 < e0 + 1 /\ 2 ^ 53 <= q + 1))) \/
  (exists mr er, R = S754_finite s mr er /\
     ((er = e0 /\ q <= Z.pos mr <= q + 1) \/
      (er = e0 + 1 /\ Z.pos mr <= 2 ^ 52 /\ 2 ^ 53 <= q + 1))).
Proof.
  intros e0 q R He.
  pose proof (digits2_bounds m) as [Dlo Dhi].
  set (d := Z.pos (digits2_pos m)) in *.
  assert (He0 : e0 = Z.max (d + e - 53) (-1074)) by reflexivity.
  assert (Hq0 : 0 <= q) by (apply Z.div_pos; [lia | apply Z.pow_pos_nonneg; lia]).
  assert (Hq53 : q < 2 ^ 53).
  { apply Z.div_lt_upper_bound; [apply Z.pow_pos_nonneg; lia|].
    rewrite <- Z.pow_add_r by lia.
    eapply Z.lt_le_trans; [exact Dhi|]. apply Z.pow_le_mono_r; lia. }
  subst R. unfold binary_round_aux, shr_fexp.
  change (Zdigits2 (Z.pos m)) with d. fold e0.
  cbn [shr_record_of_loc].
  destruct (shr_spec (Z.pos m) e (e0 - e) false false ltac:(lia)) as [Hpos Hnon].
  assert (H1 : exists mrs', shr (Build_shr_record (Z.pos m) false false) e (e0 - e)
                            = (mrs', e0) /\ shr_m mrs' = q).
  { destruct (Z.eq_dec e0 e) as [E | N].
    - rewrite (Hnon ltac:(lia)). eexists. split; [now rewrite E|].
      simpl. subst q. rewrite E, Z.sub_diag, Z.pow_0_r, Z.div_1_r. reflexivity.
    - destruct (Hpos ltac:(lia)) as [E1 E2].
      destruct (shr _ e (e0 - e)) as [mrs' e'] eqn:Es. cbn [fst snd] in E1, E2.
      exists mrs'. split; [f_equal; lia | exact E2]. }
  destruct H1 as (mrs' & -> & Em1).
  pose proof (round_nearest_even_bounds (shr_m mrs') (loc_of_shr_record mrs')) as Hm2.
  set (m2 := round_nearest_even (shr_m mrs') (loc_of_shr_record mrs')) in *.
  rewrite Em1 in Hm2. clearbody m2. clear Em1 mrs' Hpos Hnon.
  destruct m2 as [|mm|mm]; [| |lia].
  - (* the mantissa vanished *)
    left. change (Zdigits2 0) with 0.
    destruct (shr_spec 0 e0 (fexp prec emax (0 + e0) - e0) false false ltac:(lia))
      as [_ Hnon].
    rewrite Hnon by (rewrite fexp_spec; lia). simpl. split; [reflexivity | lia].
  - right.
    change (Zdigits2 (Z.pos mm)) with (Z.pos (digits2_pos mm)).
    pose proof (digits2_bounds mm) as [Mlo Mhi].
    set (d2 := Z.pos (digits2_pos mm)) in *.
    assert (Hd2 : d2 <= 54).
    { assert (d2 - 1 < 54); [|lia]. apply (Z.pow_lt_mono_r_iff 2); lia. }
    destruct (shr_spec (Z.pos mm) e0 (fexp prec emax (d2 + e0) - e0) false false
                       ltac:(lia)) as [Hpos Hnon].
    rewrite fexp_spec in Hpos, Hnon |- *.
    destruct (Z_le_gt_dec (Z.max (d2 + e0 - 53) (-1074) - e0) 0) as [N | G].
    + rewrite (Hnon N). cbn [shr_m].
      destruct (e0 <=? emax - prec) eqn:Ee.
      * right. exists mm, e0. split; [reflexivity|]. left. lia.
      * left. split; [reflexivity|]. left.
        apply Z.leb_gt in Ee. exact Ee.
    + destruct (Hpos ltac:(lia)) as [E1 E2].
      destruct (shr _ e0 _) as [mrs'' e''] eqn:Es. cbn [fst snd] in E1, E2.
      assert (En : Z.max (d2 + e0 - 53) (-1074) - e0 = 1) by lia.
      rewrite En in E1, E2.
      assert (Ed2 : d2 = 54) by lia.
      rewrite Ed2 in Mlo. change (2 ^ (54 - 1)) with (2 ^ 53) in Mlo.
      assert (Emm : Z.pos mm = 2 ^ 53) by lia.
      rewrite E2, Emm. change (2 ^ 53 / 2 ^ 1) with (Z.pos (2 ^ 52)).
      cbv iota beta. rewrite E1.
      destruct (e0 + 1 <=? emax - prec) eqn:Ee.
      * right. exists (2 ^ 52)%positive, (e0 + 1). split; [reflexivity|].
        right. split; [reflexivity|]. split; [reflexivity | lia].
      * left. split; [reflexivity|]. right.
        apply Z.leb_gt in Ee. change (emax - prec) with 971 in Ee. lia.
Qed.
End Binary64Round.

Module Binary64Add.
Import JS Binary64Order Binary64Shift Binary64Round.
Local Open Scope Z_scope.

(** [binary_round]: a mantissa with digits to spare is moved to its
    exponent exactly; otherwise it is rounded as above. *)
Lemma binary_round_shape (s : bool) (p : positive) (e : Z) :
  let e0 := fexp prec emax (Z.pos (digits2_pos p) + e) in
  let q := Z.pos p / 2 ^ (e0 - e) in
  let R := binary_round prec emax s p e in
  (e0 < e ->
   R = S754_infinity s /\ 971 < e0 \/
   exists mr, R = S754_finite s mr e0) /\
  (e <= e0 ->
   (R = S754_zero s /\ q = 0) \/
   (R = S754_infinity s /\ (971 < e0 \/ (971 < e0 + 1 /\ 2 ^ 53 <= q + 1))) \/
   (exists mr er, R = S754_finite s mr er /\
      ((er = e0 /\ q <= Z.pos mr <= q + 1) \/
       (er = e0 + 1 /\ Z.pos mr <= 2 ^ 52 /\ 2 ^ 53 <= q + 1)))).
Proof.
  intros e0 q R. subst R. unfold binary_round. fold e0.
  destruct (shl_align_full p e e0) as [Hshl Hkeep].
  split; intros He.
  - destruct (Hshl He) as (mz & -> & Emz).
    rewrite binary_round_aux_canonical.
    + destruct (e0 <=? 971) eqn:Ee.
      * right. now exists mz.
      * left. split; [reflexivity|]. now apply Z.leb_gt in Ee.
    + rewrite (digits_shift p mz (e - e0)) by (lia || exact Emz).
      replace (Z.pos (digits2_pos p) + (e - e0) + e0)
        with (Z.pos (digits2_pos p) + e) by lia.
      reflexivity.
  - rewrite (Hkeep He). now apply binary_round_aux_shape.
Qed.

(** The exponent of a valid number is the one its digits call for. *)
Lemma bounded_canonical (m : positive) (e : Z) :
  bounded prec emax m e = true ->
  fexp prec emax (Z.pos (digits2_pos m) + e) = e /\ e <= 971.
Proof.
  unfold bounded, canonical_mantissa. intros H.
  apply andb_true_iff in H. destruct H as [H1 H2].
  apply Z.eqb_eq in H1. apply Z.leb_le in H2. split; [exact H1 | exact H2].
Qed.

Lemma compare_le (x y : positive) :
  Z.pos x <= Z.pos y ->
  Pos.compare_cont Eq x y = Lt \/ Pos.compare_cont Eq x y = Eq.
Proof.
  intros H. change (Pos.compare_cont Eq x y) with (Pos.compare x y).
  destruct (Pos.compare_spec x y); auto. lia.
Qed.

(** Adding a positive finite number to a finite number does not give a
    smaller number, whatever the rounding. *)
Lemma SFadd_positive (sx : bool) (mx md : positive) (ex ed : Z) :
  bounded prec emax mx ex = true -> bounded prec emax md ed = true ->
  SFleb (S754_finite sx mx ex)
        (SF64add (S754_finite sx mx ex) (S754_finite false md ed)) = true.
Proof.
  intros Bx Bd.
  destruct (bounded_canonical _ _ Bx) as [Cx Ux].
  destruct (bounded_canonical _ _ Bd) as [Cd Ud].
  destruct (bounded_spec _ _ Bx) as ([Lx _] & Dx & Nx).
  destruct (bounded_spec _ _ Bd) as ([Ld _] & _ & _).
  destruct (mantissa_bounds _ _ Bx) as [Mx Mx'].
  unfold SF64add, SFadd.
  set (ez := Z.min ex ed).
  pose proof (shl_align_spec mx ex ez ltac:(lia)) as Ea.
  pose proof (shl_align_spec md ed ez ltac:(lia)) as Eb.
  set (a := fst (shl_align mx ex ez)) in *.
  set (b := fst (shl_align md ed ez)) in *.
  clearbody a b.
  assert (Hk : 0 < 2 ^ (ex - ez)) by (apply Z.pow_pos_nonneg; lia).
  pose proof (digits_shift mx a (ex - ez) ltac:(lia) Ea) as Da.
  cbn [cond_Zopp].
  destruct sx; cbn [cond_Zopp].
  - (* a negative number *)
    destruct (Z.opp (Z.pos a) + Z.pos b) as [|p|p] eqn:EM; cbn [binary_normalize].
    + reflexivity.
    + destruct (binary_round_shape false p ez) as [Hshl Haux].
      destruct (Z_lt_le_dec (fexp prec emax (Z.pos (digits2_pos p) + ez)) ez) as [L | G].
      * destruct (Hshl L) as [[-> _] | (mr & ->)]; reflexivity.
      * destruct (Haux G) as [[-> _] | [[-> _] | (mr & er & -> & _)]]; reflexivity.
    + destruct (binary_round_shape true p ez) as [Hshl Haux].
      assert (Hp : Z.pos p < Z.pos a) by lia.
      pose proof (digits_monotone p a ltac:(lia)) as Dp.
      set (e0 := fexp prec emax (Z.pos (digits2_pos p) + ez)) in *.
      assert (He0 : e0 <= ex).
      { rewrite <- Cx. unfold e0. rewrite !fexp_spec. lia. }
      destruct (Z_lt_le_dec e0 ez) as [L | G].
      * destruct (Hshl L) as [[_ Hinf] | (mr & ->)]; [lia|].
        unfold SFleb, SFcompare.
        assert (Hc : (ex ?= e0) = Gt) by (apply Z.compare_gt_iff; lia).
        now rewrite Hc.
      * set (q := Z.pos p / 2 ^ (e0 - ez)) in *.
        assert (Hq : e0 = ex -> q + 1 <= Z.pos mx).
        { intros E. assert (q < Z.pos mx); [|lia].
          apply Z.div_lt_upper_bound; [apply Z.pow_pos_nonneg; lia|].
          rewrite E. lia. }
        destruct (Haux G) as [[-> _] | [[_ Hinf] | (mr & er & -> & Hr)]].
        -- reflexivity.
        -- destruct Hinf as [Hinf | [Hinf Hcarry]]; [lia|].
           assert (E : e0 = ex) by lia. specialize (Hq E). lia.
        -- unfold SFleb, SFcompare.
           destruct Hr as [[-> Hmr] | (-> & Hmr & Hcarry)].
           ++ destruct (Z.compare_spec ex e0) as [E | L | G'];
                [|lia|reflexivity].
              symmetry in E. specialize (Hq E).
              rewrite (Pos.compare_cont_antisym mx mr Eq). cbn [CompOpp].
              destruct (compare_le mr mx ltac:(lia)) as [-> | ->]; reflexivity.
           ++ assert (N : e0 <> ex) by (intros E; specialize (Hq E); lia).
              destruct (Z.compare_spec ex (e0 + 1)) as [E | L | G'];
                [|lia|reflexivity].
              specialize (Mx' ltac:(lia)).
              rewrite (Pos.compare_cont_antisym mx mr Eq). cbn [CompOpp].
              destruct (compare_le mr mx ltac:(lia)) as [-> | ->]; reflexivity.
  - (* a positive number *)
    change (Z.pos a + Z.pos b) with (Z.pos (a + b)). cbn [binary_normalize].
    destruct (binary_round_shape false (a + b) ez) as [Hshl Haux].
    pose proof (digits_monotone a (a + b) ltac:(lia)) as Dab.
    pose proof (digits2_bounds (a + b)) as [ABlo _].
    set (e0 := fexp prec emax (Z.pos (digits2_pos (a + b)) + ez)) in *.
    assert (He0 : ex <= e0).
    { rewrite <- Cx. unfold e0. rewrite !fexp_spec. lia. }
    clear Hshl. specialize (Haux ltac:(lia)).
    set (q := Z.pos (a + b) / 2 ^ (e0 - ez)) in *.
    assert (Hq1 : 1 <= q).
    { apply Z.div_le_lower_bound; [apply Z.pow_pos_nonneg; lia|].
      rewrite Z.mul_1_r. eapply Z.le_trans; [|exact ABlo].
      apply Z.pow_le_mono_r; [lia|]. unfold e0. rewrite fexp_spec. lia. }
    assert (Hq : e0 = ex -> Z.pos mx <= q).
    { intros E. apply Z.div_le_lower_bound; [apply Z.pow_pos_nonneg; lia|].
      rewrite E, Pos2Z.inj_add. lia. }
    destruct Haux as [[_ Hz] | [[-> _] | (mr & er & -> & Hr)]]; [lia|reflexivity|].
    unfold SFleb, SFcompare.
    destruct Hr as [[-> Hmr] | (-> & _)].
    + destruct (Z.compare_spec ex e0) as [E | L | G'];
        [|reflexivity|lia].
      symmetry in E. specialize (Hq E).
      destruct (compare_le mx mr ltac:(lia)) as [-> | ->]; reflexivity.
    + assert (Hc : (ex ?= e0 + 1) = Lt) by (apply Z.compare_lt_iff; lia).
      now rewrite Hc.
Qed.
End Binary64Add.

Module Binary64Monotone.
Import JS Binary64 JSLoop Binary64Add.
Local Open Scope float_scope.

(** Adding a number that is not below 0 does not give a smaller number,
    whatever the rounding; the one exception is [-Infinity + Infinity],
    which is NaN. *)
Lemma add_not_smaller (x d : float) :
  (of_Z 0 <=? d) = true ->
  Prim2SF x <> S754_nan ->
  ~ (x = neg_infinity /\ d = infinity) ->
  (x <=? x + d) = true.
Proof.
  intros Hd Hx Hinf. rewrite leb_spec in Hd |- *. rewrite add_spec.
  change (Prim2SF (of_Z 0)) with (S754_zero false) in Hd.
  pose proof (Prim2SF_valid x) as Vx. pose proof (Prim2SF_valid d) as Vd.
  assert (Hinf' : ~ (Prim2SF x = S754_infinity true /\
                     Prim2SF d = S754_infinity false)).
  { intros [E1 E2]. apply Hinf. split; now apply Prim2SF_inj. }
  clear Hinf.
  destruct (Prim2SF d) as [sd|sd| |sd md ed]; try discriminate.
  - (* a zero is added *)
    destruct (Prim2SF x) as [sx|sx| |sx mx ex]; try congruence.
    + destruct sx, sd; reflexivity.
    + destruct sx; reflexivity.
    + unfold SFleb. simpl.
      destruct sx; rewrite Z.compare_refl, Pos.compare_cont_refl; reflexivity.
  - (* an infinity is added *)
    destruct sd; [discriminate|].
    destruct (Prim2SF x) as [sx|sx| |sx mx ex]; try congruence.
    + reflexivity.
    + destruct sx; [exfalso; apply Hinf'; auto | reflexivity].
    + destruct sx; reflexivity.
  - (* a finite number is added *)
    destruct sd; [discriminate|].
    destruct (Prim2SF x) as [sx|sx| |sx mx ex]; try congruence.
    + reflexivity.
    + destruct sx; reflexivity.
    + now apply SFadd_positive.
Qed.

(** Nothing that is below something is NaN. *)
Lemma below_not_nan (x t : float) : (x <? t) = true -> Prim2SF x <> S754_nan.
Proof. rewrite ltb_spec. intros H E. rewrite E in H. discriminate. Qed.
End Binary64Monotone.

(** * Rounding is monotone

    The digits [shr] drops are summarised in a location; the lemmas below
    read the location as the position of the dropped remainder against half
    of the divisor, and from there show that rounding to nearest even, and
    with it the rounded sum, product and quotient, keep the order of the
    exact values. *)

Module Binary64Location.
Import Binary64Order Binary64Shift Binary64Round.
Local Open Scope Z_scope.

(** A record and its location. *)
Lemma shr_record_loc (mrs : shr_record) :
  shr_record_of_loc (shr_m mrs) (loc_of_shr_record mrs) = mrs.
Proof. destruct mrs as [m [] []]; reflexivity. Qed.

Lemma loc_shr_record (m : Z) (l : location) :
  shr_m (shr_record_of_loc m l) = m /\
  loc_of_shr_record (shr_record_of_loc m l) = l.
Proof. destruct l as [|[]]; split; reflexivity. Qed.

Lemma half_parity (m : Z) : m = 2 * (m / 2) + m mod 2 /\ 0 <= m mod 2 < 2.
Proof. split; [apply Z.div_mod; lia | apply Z.mod_pos_bound; lia]. Qed.

(** One shift to the right of a mantissa with the location of a remainder
    [r] out of [D]: the dropped digit, with the old remainder, is the new
    remainder out of [2 * D]. *)
Lemma shr_1_loc (m D r : Z) :
  0 <= m -> 0 < D -> 0 <= r < D ->
  shr_1 (shr_record_of_loc m (new_location_even D r)) =
  shr_record_of_loc (m / 2) (new_location_even (2 * D) (m mod 2 * D + r)).
Proof.
  intros Hm HD Hr. destruct (half_parity m) as [Em Hb].
  assert (Eodd : m mod 2 = 0 \/ m mod 2 = 1) by lia.
  assert (Hshr : forall rb sb,
             shr_1 (Build_shr_record m rb sb) =
             Build_shr_record (m / 2) (negb (m mod 2 =? 0)) (rb || sb)).
  { intros rb sb. simpl. destruct m as [|p|p]; [reflexivity| |lia].
    destruct p as [p|p|].
    - rewrite Pos2Z.inj_xI.
      replace ((2 * Z.pos p + 1) / 2) with (Z.pos p)
        by (apply (Z.div_unique _ 2 _ 1); lia).
      replace ((2 * Z.pos p + 1) mod 2) with 1
        by (apply (Z.mod_unique _ 2 (Z.pos p) 1); lia).
      reflexivity.
    - rewrite Pos2Z.inj_xO.
      replace ((2 * Z.pos p) / 2) with (Z.pos p)
        by (apply (Z.div_unique _ 2 _ 0); lia).
      replace ((2 * Z.pos p) mod 2) with 0
        by (apply (Z.mod_unique _ 2 (Z.pos p) 0); lia).
      reflexivity.
    - reflexivity. }
  unfold new_location_even.
  destruct (Z.eqb_spec r 0) as [Er | Nr].
  - (* nothing was dropped before *)
    subst r. cbn [shr_record_of_loc]. rewrite Hshr. cbn [orb].
    destruct Eodd as [E | E]; rewrite E.
    + replace (0 * D + 0 =? 0) with true by (symmetry; apply Z.eqb_eq; lia).
      reflexivity.
    + replace (1 * D + 0 =? 0) with false by (symmetry; apply Z.eqb_neq; lia).
      replace (2 * (1 * D + 0) ?= 2 * D) with Eq
        by (symmetry; apply Z.compare_eq_iff; lia).
      reflexivity.
  - assert (Hs : forall c, exists rb sb,
               shr_record_of_loc m (loc_Inexact c) = Build_shr_record m rb sb /\
               rb || sb = true).
    { intros []; eexists; eexists; split; reflexivity. }
    destruct (Hs (2 * r ?= D)) as (rb & sb & -> & Es).
    rewrite Hshr, Es.
    replace (m mod 2 * D + r =? 0) with false by (symmetry; apply Z.eqb_neq; nia).
    destruct Eodd as [E | E]; rewrite E.
    + replace (2 * (0 * D + r) ?= 2 * D) with Lt
        by (symmetry; apply Z.compare_lt_iff; lia).
      reflexivity.
    + replace (2 * (1 * D + r) ?= 2 * D) with Gt
        by (symmetry; apply Z.compare_gt_iff; lia).
      reflexivity.
Qed.

(** [n] shifts to the right: the quotient by [2 ^ n], and the location of
    what was dropped. *)
Lemma shr_iter_loc (n : nat) : forall m D r : Z,
  0 <= m -> 0 < D -> 0 <= r < D ->
  Nat.iter n shr_1 (shr_record_of_loc m (new_location_even D r)) =
  shr_record_of_loc (m / 2 ^ Z.of_nat n)
    (new_location_even (D * 2 ^ Z.of_nat n) (m mod 2 ^ Z.of_nat n * D + r)).
Proof.
  induction n as [|n IH]; intros m D r Hm HD Hr.
  - simpl. rewrite Z.div_1_r, Z.mod_1_r, Z.mul_1_r. reflexivity.
  - rewrite Nat.iter_succ_r, shr_1_loc by assumption.
    destruct (half_parity m) as [Em Hb].
    assert (Hp : 0 < 2 ^ Z.of_nat n) by (apply Z.pow_pos_nonneg; lia).
    rewrite IH; [|apply Z.div_pos; lia|lia|nia].
    rewrite Nat2Z.inj_succ, Z.pow_succ_r by lia.
    rewrite Z.div_div by lia.
    rewrite (Z.rem_mul_r m 2 (2 ^ Z.of_nat n)) by lia.
    f_equal. f_equal; ring.
Qed.

(** Rounding to nearest, ties to even, is monotone: the quotients
    [q1 + r1 / D1 <= q2 + r2 / D2] round in this order. *)
Lemma round_nearest_even_monotone (q1 q2 D1 D2 r1 r2 : Z) :
  0 < D1 -> 0 < D2 -> 0 <= r1 < D1 -> 0 <= r2 < D2 ->
  (q1 * D1 + r1) * D2 <= (q2 * D2 + r2) * D1 ->
  round_nearest_even q1 (new_location_even D1 r1) <=
  round_nearest_even q2 (new_location_even D2 r2).
Proof.
  intros HD1 HD2 Hr1 Hr2 H.
  assert (Hq : q1 <= q2).
  { destruct (Z_le_gt_dec q1 q2) as [L | G]; [exact L | exfalso].
    assert (H1 : (q2 + 1) * (D1 * D2) <= q1 * (D1 * D2))
      by (apply Z.mul_le_mono_nonneg_r; lia).
    assert (H2 : r2 * D1 < D2 * D1) by (apply Z.mul_lt_mono_pos_r; lia).
    assert (H3 : 0 <= r1 * D2) by (apply Z.mul_nonneg_nonneg; lia).
    lia. }
  pose proof (round_nearest_even_bounds q1 (new_location_even D1 r1)) as B1.
  pose proof (round_nearest_even_bounds q2 (new_location_even D2 r2)) as B2.
  destruct (Z.eq_dec q1 q2) as [E | N]; [|lia].
  subst q2. assert (Hr : r1 * D2 <= r2 * D1) by lia.
  clear B1 B2 H Hq. unfold new_location_even.
  destruct (Z.eqb_spec r1 0) as [E1 | N1], (Z.eqb_spec r2 0) as [E2 | N2];
    cbn [round_nearest_even].
  - lia.
  - destruct (2 * r2 ?= D2); try destruct (Z.even q1); lia.
  - nia.
  - destruct (Z.compare_spec (2 * r1) D1) as [C1 | C1 | C1],
             (Z.compare_spec (2 * r2) D2) as [C2 | C2 | C2];
      try destruct (Z.even q1); try lia; nia.
Qed.
End Binary64Location.

Module Binary64Nearest.
Import Binary64Order Binary64Value Binary64Shift Binary64Round Binary64Location.
Local Open Scope Z_scope.

Lemma Zdigits2_bounds (m : Z) : 0 <= m -> m < 2 ^ Zdigits2 m.
Proof.
  intros Hm. destruct m as [|p|p]; [reflexivity| |lia].
  apply digits2_bounds.
Qed.

Lemma Zdigits2_lower (m : Z) : 0 < m -> 2 ^ (Zdigits2 m - 1) <= m.
Proof.
  intros Hm. destruct m as [|p|p]; try lia. apply digits2_bounds.
Qed.

Lemma Zdigits2_nonneg (m : Z) : 0 <= Zdigits2 m.
Proof. destruct m; simpl; lia. Qed.

(** ** Values as fractions *)

Lemma inject_Z_pos (a : Z) : (0 < a)%Z -> (0 < inject_Z a)%Q.
Proof. intros H. change 0%Q with (inject_Z 0). now rewrite <- Zlt_Qlt. Qed.

Lemma two_power_Z (n : Z) : (0 <= n)%Z -> (inject_Z (2 ^ n) == 2 ^ n)%Q.
Proof. intros Hn. now rewrite Zpower_Qpower. Qed.

(** An order between two fractions scaled by powers of 2, as an order
    between integers, once both are brought to one exponent. *)
Lemma scaled_le (N1 D1 n1 e1 N2 D2 n2 e2 : Z) :
  0 < D1 -> 0 < D2 -> 0 <= n1 -> 0 <= n2 -> e1 + n1 = e2 + n2 ->
  (inject_Z N1 / inject_Z D1 * 2 ^ e1 <= inject_Z N2 / inject_Z D2 * 2 ^ e2)%Q ->
  N1 * (D2 * 2 ^ n2) <= N2 * (D1 * 2 ^ n1).
Proof.
  intros HD1 HD2 Hn1 Hn2 He H.
  pose proof (inject_Z_pos D1 HD1) as B1. pose proof (inject_Z_pos D2 HD2) as B2.
  pose proof (two_power_pos e1) as X1. pose proof (two_power_pos e2) as X2.
  pose proof (two_power_split e1 (e1 + n1) ltac:(lia)) as S1.
  pose proof (two_power_split e2 (e1 + n1) ltac:(lia)) as S2.
  replace (e1 + n1 - e1) with n1 in S1 by lia.
  replace (e1 + n1 - e2) with n2 in S2 by lia.
  rewrite Zle_Qle, !inject_Z_mult.
  set (A1 := inject_Z N1) in *. set (A2 := inject_Z N2) in *.
  set (b1 := inject_Z D1) in *. set (b2 := inject_Z D2) in *.
  set (P1 := inject_Z (2 ^ n1)) in *. set (P2 := inject_Z (2 ^ n2)) in *.
  set (x1 := (2 ^ e1)%Q) in *. set (x2 := (2 ^ e2)%Q) in *.
  set (X := (2 ^ (e1 + n1))%Q) in *.
  assert (T : (A1 * b2 * x1 <= A2 * b1 * x2)%Q).
  { assert (E1 : (A1 * b2 * x1 == A1 / b1 * x1 * (b1 * b2))%Q) by (field; lra).
    assert (E2 : (A2 * b1 * x2 == A2 / b2 * x2 * (b1 * b2))%Q) by (field; lra).
    rewrite E1, E2. apply Qmult_le_compat_r; [exact H|].
    apply Qlt_le_weak. now apply Qmult_lt_0_compat. }
  apply (Qmult_le_r _ _ (x1 * x2)%Q); [now apply Qmult_lt_0_compat|].
  assert (E1 : (A1 * (b2 * P2) * (x1 * x2) == A1 * b2 * x1 * X)%Q)
    by (rewrite S2; ring).
  assert (E2 : (A2 * (b1 * P1) * (x1 * x2) == A2 * b1 * x2 * X)%Q)
    by (rewrite S1; ring).
  rewrite E1, E2. apply Qmult_le_compat_r; [exact T|].
  apply Qlt_le_weak. apply two_power_pos.
Qed.

(** A mantissa with a remainder lies between the mantissa and its
    successor. *)
Lemma fraction_bounds (m D r e : Z) :
  0 < D -> 0 <= r < D ->
  (inject_Z m * 2 ^ e <= inject_Z (m * D + r) / inject_Z D * 2 ^ e /\
   inject_Z (m * D + r) / inject_Z D * 2 ^ e < inject_Z (m + 1) * 2 ^ e)%Q.
Proof.
  intros HD Hr. pose proof (inject_Z_pos D HD) as B.
  pose proof (two_power_pos e) as X.
  split.
  - apply Qmult_le_compat_r; [|lra].
    apply Qle_shift_div_l; [exact B|].
    rewrite <- inject_Z_mult, <- Zle_Qle. lia.
  - apply Qmult_lt_compat_r; [exact X|].
    apply Qlt_shift_div_r; [exact B|].
    rewrite <- inject_Z_mult, <- Zlt_Qlt. lia.
Qed.

(** The magnitude of a value: its digits and its exponent. *)
Lemma magnitude_monotone (m1 D1 r1 e1 m2 D2 r2 e2 : Z) :
  0 < m1 -> 0 < D1 -> 0 <= r1 < D1 -> 0 <= m2 -> 0 < D2 -> 0 <= r2 < D2 ->
  (inject_Z (m1 * D1 + r1) / inject_Z D1 * 2 ^ e1 <=
   inject_Z (m2 * D2 + r2) / inject_Z D2 * 2 ^ e2)%Q ->
  Zdigits2 m1 + e1 <= Zdigits2 m2 + e2.
Proof.
  intros Hm1 HD1 Hr1 Hm2 HD2 Hr2 H.
  destruct (fraction_bounds m1 D1 r1 e1 HD1 Hr1) as [L1 _].
  destruct (fraction_bounds m2 D2 r2 e2 HD2 Hr2) as [_ U2].
  pose proof (Zdigits2_lower m1 Hm1) as Dlo.
  pose proof (Zdigits2_bounds m2 Hm2) as Dhi.
  pose proof (Zdigits2_nonneg m2) as Dn2.
  assert (Dn1 : 1 <= Zdigits2 m1) by (destruct m1; simpl; lia).
  assert (A : (2 ^ (Zdigits2 m1 - 1 + e1) <= inject_Z m1 * 2 ^ e1)%Q).
  { rewrite Qpower_plus by discriminate.
    apply Qmult_le_compat_r; [|apply Qlt_le_weak, two_power_pos].
    rewrite <- two_power_Z by lia. now rewrite <- Zle_Qle. }
  assert (B : (inject_Z (m2 + 1) * 2 ^ e2 <= 2 ^ (Zdigits2 m2 + e2))%Q).
  { rewrite Qpower_plus by discriminate.
    apply Qmult_le_compat_r; [|apply Qlt_le_weak, two_power_pos].
    rewrite <- two_power_Z by lia. rewrite <- Zle_Qle. lia. }
  assert (C : (2 ^ (Zdigits2 m1 - 1 + e1) < 2 ^ (Zdigits2 m2 + e2))%Q) by lra.
  apply Qpower_lt_compat_l_inv in C; [lia | reflexivity].
Qed.

Section Nearest.

(** The last step of [binary_round_aux]: a mantissa of 54 digits, which
    rounding up may leave, is brought back to 53; then the result is built. *)
Let finish (m2 e0 : Z) : spec_float :=
  let '(mrs, e) := shr_fexp prec emax m2 e0 loc_Exact in
  match shr_m mrs with
  | Z0 => S754_zero false
  | Zpos m => if e <=? emax - prec then S754_finite false m e
              else S754_infinity false
  | Zneg _ => S754_nan
  end.

Lemma finish_cases (m2 e0 : Z) :
  0 <= m2 <= 2 ^ 53 -> -1074 <= e0 ->
  finish m2 e0 =
  match m2 with
  | Z0 => S754_zero false
  | Zpos m =>
      if m2 =? 2 ^ 53
      then (if e0 + 1 <=? 971 then S754_finite false (2 ^ 52) (e0 + 1)
            else S754_infinity false)
      else (if e0 <=? 971 then S754_finite false m e0 else S754_infinity false)
  | Zneg _ => S754_nan
  end.
Proof.
  intros Hm He. unfold finish, shr_fexp. cbn [shr_record_of_loc].
  destruct m2 as [|mm|mm]; [| |lia].
  - change (Zdigits2 0) with 0.
    destruct (shr_spec 0 e0 (fexp prec emax (0 + e0) - e0) false false ltac:(lia))
      as [_ Hnon].
    rewrite Hnon by (rewrite fexp_spec; lia). reflexivity.
  - change (Zdigits2 (Z.pos mm)) with (Z.pos (digits2_pos mm)).
    pose proof (digits2_bounds mm) as [Mlo Mhi].
    set (d2 := Z.pos (digits2_pos mm)) in *.
    assert (Hd2 : d2 <= 54).
    { assert (d2 - 1 < 54); [|lia]. apply (Z.pow_lt_mono_r_iff 2); lia. }
    destruct (shr_spec (Z.pos mm) e0 (fexp prec emax (d2 + e0) - e0) false false
                       ltac:(lia)) as [Hpos Hnon].
    rewrite fexp_spec in Hpos, Hnon |- *.
    destruct (Z.eqb_spec (Z.pos mm) (2 ^ 53)) as [E | N].
    + assert (Ed2 : d2 = 54).
      { assert (53 < d2); [|lia]. apply (Z.pow_lt_mono_r_iff 2); lia. }
      destruct (Hpos ltac:(lia)) as [E1 E2].
      destruct (shr _ e0 _) as [mrs e] eqn:Es. cbn [fst snd] in E1, E2.
      assert (En : Z.max (d2 + e0 - 53) (-1074) - e0 = 1) by lia.
      rewrite En in E1, E2. rewrite E2, E, E1. reflexivity.
    + assert (Hd53 : d2 <= 53).
      { assert (d2 - 1 < 53); [|lia]. apply (Z.pow_lt_mono_r_iff 2); lia. }
      rewrite (Hnon ltac:(lia)). reflexivity.
Qed.

(** [finish] keeps the order of the mantissas at one exponent. *)
Lemma finish_monotone (a b e0 : Z) :
  0 <= a -> a <= b -> b <= 2 ^ 53 -> -1074 <= e0 ->
  SFleb (finish a e0) (finish b e0) = true.
Proof.
  intros Ha Hab Hb He. rewrite !finish_cases by lia.
  destruct a as [|pa|pa]; [| |lia]; destruct b as [|pb|pb]; try lia.
  - reflexivity.
  - destruct (Z.pos pb =? 2 ^ 53);
      [destruct (e0 + 1 <=? 971) | destruct (e0 <=? 971)]; reflexivity.
  - destruct (Z.eqb_spec (Z.pos pa) (2 ^ 53)) as [Ea | Na],
             (Z.eqb_spec (Z.pos pb) (2 ^ 53)) as [Eb | Nb]; try lia.
    + destruct (e0 + 1 <=? 971); [|reflexivity].
      unfold SFleb, SFcompare. now rewrite Z.compare_refl.
    + destruct (Z.leb_spec (e0 + 1) 971), (Z.leb_spec e0 971); try lia;
        try reflexivity.
      unfold SFleb, SFcompare.
      assert (Hc : (e0 ?= e0 + 1) = Lt) by (apply Z.compare_lt_iff; lia).
      now rewrite Hc.
    + destruct (e0 <=? 971); [|reflexivity].
      unfold SFleb, SFcompare. rewrite Z.compare_refl.
      change (Pos.compare_cont Eq pa pb) with (Pos.compare pa pb).
      destruct (Pos.compare_spec pa pb); try reflexivity. lia.
Qed.

(** A mantissa at a lower exponent is below a full mantissa at a higher
    one. *)
Lemma finish_exponent (a b e0 e0' : Z) :
  0 <= a <= 2 ^ 53 -> 2 ^ 52 <= b <= 2 ^ 53 -> -1074 <= e0 -> e0 < e0' ->
  SFleb (finish a e0) (finish b e0') = true.
Proof.
  intros Ha Hb He Hlt. rewrite !finish_cases by lia.
  destruct b as [|pb|pb]; try lia.
  destruct a as [|pa|pa]; [| |lia].
  - destruct (Z.pos pb =? 2 ^ 53);
      [destruct (e0' + 1 <=? 971) | destruct (e0' <=? 971)]; reflexivity.
  - assert (Hlt' : forall x y, x < y -> (x ?= y) = Lt)
      by (intros; now apply Z.compare_lt_iff).
    destruct (Z.eqb_spec (Z.pos pa) (2 ^ 53)) as [Ea | Na],
             (Z.eqb_spec (Z.pos pb) (2 ^ 53)) as [Eb | Nb].
    + destruct (Z.leb_spec (e0 + 1) 971), (Z.leb_spec (e0' + 1) 971); try lia;
        try reflexivity.
      unfold SFleb, SFcompare. now rewrite Hlt' by lia.
    + destruct (Z.leb_spec (e0 + 1) 971), (Z.leb_spec e0' 971); try lia;
        try reflexivity.
      unfold SFleb, SFcompare.
      destruct (Z.compare_spec (e0 + 1) e0') as [E | L | G]; [|reflexivity|lia].
      change (Pos.compare_cont Eq (2 ^ 52) pb) with (Pos.compare (2 ^ 52) pb).
      destruct (Pos.compare_spec (2 ^ 52) pb) as [E' | L' | G']; try reflexivity.
      apply Pos2Z.pos_lt_pos in G'. change (Z.pos (2 ^ 52)) with (2 ^ 52) in G'. lia.
    + destruct (Z.leb_spec e0 971), (Z.leb_spec (e0' + 1) 971); try lia;
        try reflexivity.
      unfold SFleb, SFcompare. now rewrite Hlt' by lia.
    + destruct (Z.leb_spec e0 971), (Z.leb_spec e0' 971); try lia;
        try reflexivity.
      unfold SFleb, SFcompare. now rewrite Hlt' by lia.
Qed.

(** [binary_round_aux], for a mantissa with the location of a remainder:
    the mantissa is divided by the power of 2 that brings it to its
    exponent [e0], rounded to nearest, and finished. *)
Lemma binary_round_aux_nearest (m e D r : Z) :
  0 <= m -> 0 < D -> 0 <= r < D ->
  let e0 := fexp prec emax (Zdigits2 m + e) in
  e <= e0 ->
  binary_round_aux prec emax false m e (new_location_even D r) =
  finish (round_nearest_even (m / 2 ^ (e0 - e))
            (new_location_even (D * 2 ^ (e0 - e)) (m mod 2 ^ (e0 - e) * D + r)))
         e0.
Proof.
  intros Hm HD Hr e0 He. unfold binary_round_aux, shr_fexp. fold e0.
  assert (H1 : shr (shr_record_of_loc m (new_location_even D r)) e (e0 - e) =
               (shr_record_of_loc (m / 2 ^ (e0 - e))
                  (new_location_even (D * 2 ^ (e0 - e)) (m mod 2 ^ (e0 - e) * D + r)),
                e0)).
  { destruct (e0 - e) as [|n|n] eqn:En; try lia.
    - unfold shr. rewrite Z.pow_0_r, Z.div_1_r, Z.mod_1_r, Z.mul_1_r.
      cbn [Z.mul Z.add]. f_equal. lia.
    - unfold shr. rewrite iter_pos_nat, shr_iter_loc by assumption.
      rewrite positive_nat_Z. f_equal. lia. }
  rewrite H1.
  destruct (loc_shr_record (m / 2 ^ (e0 - e))
              (new_location_even (D * 2 ^ (e0 - e)) (m mod 2 ^ (e0 - e) * D + r)))
    as [-> ->].
  reflexivity.
Qed.

(** The rounded mantissa has at most 53 digits, or is [2 ^ 53]; it has 53
    digits when the exponent is not the least one. *)
Lemma rounded_mantissa_bounds (m e : Z) (l : location) :
  0 <= m ->
  let e0 := fexp prec emax (Zdigits2 m + e) in
  e <= e0 ->
  0 <= round_nearest_even (m / 2 ^ (e0 - e)) l <= 2 ^ 53 /\
  (0 < m -> -1074 < e0 -> 2 ^ 52 <= round_nearest_even (m / 2 ^ (e0 - e)) l).
Proof.
  intros Hm e0 He.
  pose proof (round_nearest_even_bounds (m / 2 ^ (e0 - e)) l) as B.
  pose proof (Zdigits2_bounds m Hm) as Dhi.
  pose proof (Zdigits2_nonneg m) as Dn.
  assert (Hp : 0 < 2 ^ (e0 - e)) by (apply Z.pow_pos_nonneg; lia).
  assert (He0 : e0 = Z.max (Zdigits2 m + e - 53) (-1074)) by reflexivity.
  assert (Hq0 : 0 <= m / 2 ^ (e0 - e)) by (apply Z.div_pos; lia).
  assert (Hq53 : m / 2 ^ (e0 - e) < 2 ^ 53).
  { apply Z.div_lt_upper_bound; [exact Hp|].
    rewrite <- Z.pow_add_r by lia.
    eapply Z.lt_le_trans; [exact Dhi|]. apply Z.pow_le_mono_r; lia. }
  split; [lia|].
  intros Hpos Hn. pose proof (Zdigits2_lower m Hpos) as Dlo.
  assert (2 ^ 52 <= m / 2 ^ (e0 - e)); [|lia].
  apply Z.div_le_lower_bound; [exact Hp|].
  rewrite Z.mul_comm, <- Z.pow_add_r by lia.
  eapply Z.le_trans; [|exact Dlo]. apply Z.pow_le_mono_r; lia.
Qed.

(** [binary_round_aux] is monotone: of two values that are not negative,
    each given by a mantissa, the location of a remainder and an exponent,
    the smaller one is rounded to the smaller number. *)
Lemma binary_round_aux_monotone (m1 e1 D1 r1 m2 e2 D2 r2 : Z) :
  0 <= m1 -> 0 < D1 -> 0 <= r1 < D1 ->
  e1 <= fexp prec emax (Zdigits2 m1 + e1) -> (m1 = 0 -> e1 <= -1021) ->
  0 <= m2 -> 0 < D2 -> 0 <= r2 < D2 ->
  e2 <= fexp prec emax (Zdigits2 m2 + e2) -> (m2 = 0 -> e2 <= -1021) ->
  (inject_Z (m1 * D1 + r1) / inject_Z D1 * 2 ^ e1 <=
   inject_Z (m2 * D2 + r2) / inject_Z D2 * 2 ^ e2)%Q ->
  SFleb (binary_round_aux prec emax false m1 e1 (new_location_even D1 r1))
        (binary_round_aux prec emax false m2 e2 (new_location_even D2 r2)) = true.
Proof.
  intros Hm1 HD1 Hr1 He1 Hz1 Hm2 HD2 Hr2 He2 Hz2 H.
  rewrite !binary_round_aux_nearest by assumption.
  set (e01 := fexp prec emax (Zdigits2 m1 + e1)) in *.
  set (e02 := fexp prec emax (Zdigits2 m2 + e2)) in *.
  assert (E01 : e01 = Z.max (Zdigits2 m1 + e1 - 53) (-1074)) by reflexivity.
  assert (E02 : e02 = Z.max (Zdigits2 m2 + e2 - 53) (-1074)) by reflexivity.
  assert (Hle : e01 <= e02).
  { destruct (Z.eq_dec m1 0) as [Z1 | N1].
    - specialize (Hz1 Z1). subst m1. change (Zdigits2 0) with 0 in E01. lia.
    - pose proof (magnitude_monotone m1 D1 r1 e1 m2 D2 r2 e2 ltac:(lia)
                    HD1 Hr1 Hm2 HD2 Hr2 H). lia. }
  set (n1 := e01 - e1) in *. set (n2 := e02 - e2) in *.
  assert (Hp1 : 0 < 2 ^ n1) by (apply Z.pow_pos_nonneg; unfold n1; lia).
  assert (Hp2 : 0 < 2 ^ n2) by (apply Z.pow_pos_nonneg; unfold n2; lia).
  pose proof (Z.mod_pos_bound m1 (2 ^ n1) Hp1) as M1.
  pose proof (Z.mod_pos_bound m2 (2 ^ n2) Hp2) as M2.
  pose proof (Z.div_mod m1 (2 ^ n1) ltac:(lia)) as Q1.
  pose proof (Z.div_mod m2 (2 ^ n2) ltac:(lia)) as Q2.
  set (l1 := new_location_even (D1 * 2 ^ n1) (m1 mod 2 ^ n1 * D1 + r1)).
  set (l2 := new_location_even (D2 * 2 ^ n2) (m2 mod 2 ^ n2 * D2 + r2)).
  destruct (rounded_mantissa_bounds m1 e1 l1 Hm1 He1) as [B1 _].
  destruct (rounded_mantissa_bounds m2 e2 l2 Hm2 He2) as [B2 N2].
  fold e01 n1 in B1. fold e02 n2 in B2, N2.
  destruct (Z.eq_dec e01 e02) as [E | N].
  - rewrite <- E. apply finish_monotone; try lia.
    apply round_nearest_even_monotone; try nia.
    assert (S := scaled_le (m1 * D1 + r1) D1 n1 e1 (m2 * D2 + r2) D2 n2 e2
                           HD1 HD2 ltac:(unfold n1; lia) ltac:(unfold n2; lia)
                           ltac:(unfold n1, n2; lia) H).
    set (q1 := m1 / 2 ^ n1) in *. set (q2 := m2 / 2 ^ n2) in *.
    set (u1 := m1 mod 2 ^ n1) in *. set (u2 := m2 mod 2 ^ n2) in *.
    set (p1 := 2 ^ n1) in *. set (p2 := 2 ^ n2) in *.
    rewrite Q1, Q2 in S. lia.
  - apply finish_exponent; try lia.
    split; [|lia]. apply N2; [|lia].
    destruct (Z.eq_dec m2 0) as [Z2 | N2']; [|lia].
    specialize (Hz2 Z2). subst m2. change (Zdigits2 0) with 0 in E02. lia.
Qed.
End Nearest.
End Binary64Nearest.

Module Binary64Normalize.
Import JS Binary64 Binary64Signs Binary64Order Binary64Value Binary64Shift
       Binary64Round Binary64Add Binary64Location Binary64Nearest.
Local Open Scope Z_scope.

(** The sign given to [binary_round_aux] is the sign of its result, and
    nothing else depends on it. *)
Lemma binary_round_aux_opp (m e : Z) (l : location) :
  binary_round_aux prec emax true m e l =
  SFopp (binary_round_aux prec emax false m e l).
Proof.
  unfold binary_round_aux.
  destruct (shr_fexp prec emax m e l) as [mrs' e'].
  destruct (shr_fexp prec emax _ e' loc_Exact) as [mrs'' e''].
  destruct (shr_m mrs'') as [|p|p]; try reflexivity.
  destruct (e'' <=? emax - prec); reflexivity.
Qed.

Lemma binary_round_opp (p : positive) (e : Z) :
  binary_round prec emax true p e = SFopp (binary_round prec emax false p e).
Proof.
  unfold binary_round. destruct (shl_align p e _) as [mz ez].
  apply binary_round_aux_opp.
Qed.

Lemma SFcompare_opp (x y : spec_float) :
  SFcompare (SFopp x) (SFopp y) = SFcompare y x.
Proof.
  rewrite (SFcompare_swap x y).
  destruct x as [sx|sx| |sx mx ex], y as [sy|sy| |sy my ey];
    try reflexivity;
    try (destruct sx; reflexivity); try (destruct sy; reflexivity);
    try (destruct sx, sy; reflexivity).
  simpl. destruct sx, sy; simpl; try reflexivity;
    destruct (ex ?= ey); simpl; try reflexivity;
    now rewrite ?CompOpp_involutive.
Qed.

Lemma SFleb_opp (x y : spec_float) : SFleb (SFopp x) (SFopp y) = SFleb y x.
Proof. unfold SFleb. now rewrite SFcompare_opp. Qed.

(** Rounding a positive mantissa gives a zero, an infinity or a finite
    number, never NaN. *)
Lemma binary_round_not_nan (s : bool) (p : positive) (e : Z) :
  binary_round prec emax s p e <> S754_nan.
Proof.
  destruct (binary_round_shape s p e) as [Hshl Haux].
  destruct (Z_lt_le_dec (fexp prec emax (Z.pos (digits2_pos p) + e)) e) as [L | G].
  - destruct (Hshl L) as [[-> _] | (mr & ->)]; discriminate.
  - destruct (Haux G) as [[-> _] | [[-> _] | (mr & er & -> & _)]]; discriminate.
Qed.

Lemma binary_round_sign (s : bool) (p : positive) (e : Z) :
  (if s then notPositive (binary_round prec emax s p e)
   else notNegative (binary_round prec emax s p e)) = true.
Proof.
  unfold binary_round. destruct (shl_align p e _) as [mz ez].
  apply binary_round_aux_sign.
Qed.

(** What is not positive is below what is not negative. *)
Lemma sign_order (x y : spec_float) :
  x <> S754_nan -> y <> S754_nan ->
  notPositive x = true -> notNegative y = true -> SFleb x y = true.
Proof.
  destruct x as [sx|sx| |sx mx ex], y as [sy|sy| |sy my ey];
    intros Nx Ny Px Py; simpl in Px, Py; try congruence;
    try apply negb_true_iff in Py; subst; try reflexivity;
    try (destruct sx; reflexivity); try (destruct sy; reflexivity).
Qed.

(** Aligning a mantissa to its exponent keeps its value and makes it fit. *)
Lemma shl_align_canonical (p : positive) (e : Z) :
  let e0 := fexp prec emax (Z.pos (digits2_pos p) + e) in
  exists mz ez,
    shl_align p e e0 = (mz, ez) /\
    (inject_Z (Z.pos mz) * 2 ^ ez == inject_Z (Z.pos p) * 2 ^ e)%Q /\
    ez <= fexp prec emax (Z.pos (digits2_pos mz) + ez).
Proof.
  intros e0. destruct (shl_align_full p e e0) as [Hshl Hkeep].
  destruct (Z_lt_le_dec e0 e) as [L | G].
  - destruct (Hshl L) as (mz & E & Emz). exists mz, e0.
    split; [exact E|]. split.
    + rewrite Emz, inject_Z_mult, (two_power_split e0 e) by lia. ring.
    + rewrite (digits_shift p mz (e - e0)) by (lia || exact Emz).
      replace (Z.pos (digits2_pos p) + (e - e0) + e0)
        with (Z.pos (digits2_pos p) + e) by lia.
      fold e0. lia.
  - exists p, e. split; [now apply Hkeep|]. split; [reflexivity | exact G].
Qed.

(** [binary_round] is monotone on positive mantissas. *)
Lemma binary_round_monotone (p1 p2 : positive) (e1 e2 : Z) :
  (inject_Z (Z.pos p1) * 2 ^ e1 <= inject_Z (Z.pos p2) * 2 ^ e2)%Q ->
  SFleb (binary_round prec emax false p1 e1)
        (binary_round prec emax false p2 e2) = true.
Proof.
  intros H. unfold binary_round.
  destruct (shl_align_canonical p1 e1) as (m1 & z1 & -> & V1 & C1).
  destruct (shl_align_canonical p2 e2) as (m2 & z2 & -> & V2 & C2).
  change loc_Exact with (new_location_even 1 0).
  apply binary_round_aux_monotone; try lia; try assumption.
  rewrite !Z.mul_1_r, !Z.add_0_r.
  change (inject_Z 1) with 1%Q.
  assert (E1 : forall x : Q, (x / 1 == x)%Q) by (intros x; field).
  rewrite !E1, V1, V2. exact H.
Qed.

(** [binary_normalize] is monotone. *)
Lemma binary_normalize_monotone (M1 M2 e1 e2 : Z) :
  (inject_Z M1 * 2 ^ e1 <= inject_Z M2 * 2 ^ e2)%Q ->
  SFleb (binary_normalize prec emax M1 e1 false)
        (binary_normalize prec emax M2 e2 false) = true.
Proof.
  intros H.
  pose proof (two_power_pos e1) as X1. pose proof (two_power_pos e2) as X2.
  assert (Hpos : forall p e, (0 < inject_Z (Z.pos p) * 2 ^ e)%Q)
    by (intros; apply value_pos).
  assert (Hneg : forall p e, (inject_Z (Z.neg p) * 2 ^ e < 0)%Q).
  { intros p e. change (Z.neg p) with (- Z.pos p). rewrite inject_Z_opp.
    specialize (Hpos p e). lra. }
  destruct M1 as [|p1|p1], M2 as [|p2|p2]; cbn [binary_normalize];
    change (inject_Z 0) with 0%Q in H.
  - reflexivity.
  - apply sign_order; [discriminate | apply binary_round_not_nan | reflexivity|].
    apply (binary_round_sign false).
  - exfalso. specialize (Hneg p2 e2). lra.
  - exfalso. specialize (Hpos p1 e1). lra.
  - now apply binary_round_monotone.
  - exfalso. specialize (Hpos p1 e1). specialize (Hneg p2 e2). lra.
  - apply sign_order; [apply binary_round_not_nan | discriminate | | reflexivity].
    apply (binary_round_sign true).
  - apply sign_order; [apply binary_round_not_nan | apply binary_round_not_nan | |].
    + apply (binary_round_sign true).
    + apply (binary_round_sign false).
  - rewrite !binary_round_opp, SFleb_opp. apply binary_round_monotone.
    change (Z.neg p1) with (- Z.pos p1) in H.
    change (Z.neg p2) with (- Z.pos p2) in H.
    rewrite !inject_Z_opp in H. lra.
Qed.
End Binary64Normalize.

Module Binary64AddMonotone.
Import JS Binary64 Binary64Signs Binary64Order Binary64Value Binary64Shift
       Binary64Round Binary64Add Binary64Location Binary64Nearest
       Binary64Normalize.
Local Open Scope Z_scope.

(** Rounding a valid number gives the number itself. *)
Lemma binary_round_valid (s : bool) (m : positive) (e : Z) :
  bounded prec emax m e = true ->
  binary_round prec emax s m e = S754_finite s m e.
Proof.
  intros B. destruct (bounded_canonical m e B) as [C U].
  unfold binary_round. rewrite C.
  destruct (shl_align_full m e e) as [_ ->]; [|lia].
  rewrite binary_round_aux_canonical by exact C.
  now apply Z.leb_le in U; rewrite U.
Qed.

(** The value of a signed mantissa. *)
Lemma signed_value (s : bool) (m : positive) (e : Z) :
  (inject_Z (cond_Zopp s (Z.pos m)) * 2 ^ e ==
   (if s then - (inject_Z (Z.pos m) * 2 ^ e) else inject_Z (Z.pos m) * 2 ^ e))%Q.
Proof.
  destruct s; cbn [cond_Zopp]; [|reflexivity].
  rewrite inject_Z_opp. ring.
Qed.

Lemma aligned_value (s : bool) (m : positive) (e ez : Z) :
  ez <= e ->
  (inject_Z (cond_Zopp s (Z.pos (fst (shl_align m e ez)))) * 2 ^ ez ==
   (if s then - (inject_Z (Z.pos m) * 2 ^ e) else inject_Z (Z.pos m) * 2 ^ e))%Q.
Proof.
  intros He. rewrite signed_value, (shl_align_spec m e ez He).
  destruct s; rewrite inject_Z_mult, (two_power_split ez e He); ring.
Qed.

(** The sum of a finite number or a zero and of a finite number is their
    exact sum, normalized. *)
Lemma SFadd_normalize (x : spec_float) (sd : bool) (md : positive) (ed : Z)
                      (vx vd : Q) :
  valid_binary x = true -> bounded prec emax md ed = true ->
  valueOf x = Some vx -> valueOf (S754_finite sd md ed) = Some vd ->
  exists M e,
    SF64add x (S754_finite sd md ed) = binary_normalize prec emax M e false /\
    (inject_Z M * 2 ^ e == vx + vd)%Q.
Proof.
  intros Vx Bd Ex Ed. cbn [valueOf] in Ed. injection Ed as <-.
  destruct x as [sx|sx| |sx mx ex]; cbn [valueOf] in Ex; try discriminate;
    injection Ex as <-.
  - exists (cond_Zopp sd (Z.pos md)), ed. split.
    + destruct sd; cbn [SF64add SFadd cond_Zopp Z.opp binary_normalize];
        now rewrite binary_round_valid.
    + rewrite signed_value. ring.
  - exists (cond_Zopp sx (Z.pos (fst (shl_align mx ex (Z.min ex ed)))) +
            cond_Zopp sd (Z.pos (fst (shl_align md ed (Z.min ex ed))))),
           (Z.min ex ed).
    split; [reflexivity|].
    rewrite inject_Z_plus, Qmult_plus_distr_l, !aligned_value by lia.
    reflexivity.
Qed.

Lemma binary_normalize_not_nan (M e : Z) :
  binary_normalize prec emax M e false <> S754_nan.
Proof.
  destruct M; cbn [binary_normalize];
    [discriminate | apply binary_round_not_nan | apply binary_round_not_nan].
Qed.

(** Rounded addition of finite numbers is monotone in both arguments. *)
Lemma SFadd_monotone (x y : spec_float) (s1 s2 : bool) (m1 m2 : positive)
                     (e1 e2 : Z) (vx vy v1 v2 : Q) :
  valid_binary x = true -> valid_binary y = true ->
  bounded prec emax m1 e1 = true -> bounded prec emax m2 e2 = true ->
  valueOf x = Some vx -> valueOf y = Some vy ->
  valueOf (S754_finite s1 m1 e1) = Some v1 ->
  valueOf (S754_finite s2 m2 e2) = Some v2 ->
  (vx <= vy)%Q -> (v1 <= v2)%Q ->
  SFleb (SF64add x (S754_finite s1 m1 e1)) (SF64add y (S754_finite s2 m2 e2)) = true.
Proof.
  intros Vx Vy B1 B2 Ex Ey E1 E2 Hxy H12.
  destruct (SFadd_normalize x s1 m1 e1 vx v1 Vx B1 Ex E1) as (M1 & z1 & -> & V1).
  destruct (SFadd_normalize y s2 m2 e2 vy v2 Vy B2 Ey E2) as (M2 & z2 & -> & V2).
  apply binary_normalize_monotone. rewrite V1, V2. lra.
Qed.

(** ** The order of binary64 numbers is transitive *)

Lemma SFleb_spec (x y : spec_float) (vx vy : Q) :
  valid_binary x = true -> valid_binary y = true ->
  valueOf x = Some vx -> valueOf y = Some vy ->
  (SFleb x y = true <-> (vx <= vy)%Q) /\ (SFltb x y = true <-> (vx < vy)%Q).
Proof.
  intros Vx Vy Ex Ey. unfold SFleb, SFltb.
  rewrite (SFcompare_value x y vx vy Vx Vy Ex Ey), Qle_alt, Qlt_alt.
  destruct (vx ?= vy)%Q; repeat split; congruence.
Qed.

Lemma valueOf_cases (x : spec_float) :
  (exists v, valueOf x = Some v) \/ x = S754_nan \/ exists s, x = S754_infinity s.
Proof.
  destruct x as [s|s| |s m e]; simpl; eauto.
Qed.

Ltac by_cases :=
  repeat match goal with
         | s : bool |- _ => destruct s
         end;
  cbn; try congruence; try reflexivity.

Lemma SFleb_ltb_trans (x y z : spec_float) :
  valid_binary x = true -> valid_binary y = true -> valid_binary z = true ->
  SFleb x y = true -> SFltb y z = true -> SFltb x z = true.
Proof.
  intros Vx Vy Vz.
  destruct (valueOf_cases x) as [[vx Ex] | [-> | [sx ->]]];
    destruct (valueOf_cases y) as [[vy Ey] | [-> | [sy ->]]];
    destruct (valueOf_cases z) as [[vz Ez] | [-> | [sz ->]]];
    try (destruct x; by_cases; fail);
    try (destruct y; by_cases; fail);
    try (destruct z; by_cases; fail);
    try (destruct x, y; by_cases; fail);
    try (destruct x, z; by_cases; fail);
    try (destruct y, z; by_cases; fail);
    try (by_cases; fail).
  intros H1 H2.
  apply (SFleb_spec x y vx vy Vx Vy Ex Ey) in H1.
  apply (SFleb_spec y z vy vz Vy Vz Ey Ez) in H2.
  apply (SFleb_spec x z vx vz Vx Vz Ex Ez). lra.
Qed.

Lemma SFleb_trans (x y z : spec_float) :
  valid_binary x = true -> valid_binary y = true -> valid_binary z = true ->
  SFleb x y = true -> SFleb y z = true -> SFleb x z = true.
Proof.
  intros Vx Vy Vz.
  destruct (valueOf_cases x) as [[vx Ex] | [-> | [sx ->]]];
    destruct (valueOf_cases y) as [[vy Ey] | [-> | [sy ->]]];
    destruct (valueOf_cases z) as [[vz Ez] | [-> | [sz ->]]];
    try (destruct x; by_cases; fail);
    try (destruct y; by_cases; fail);
    try (destruct z; by_cases; fail);
    try (destruct x, y; by_cases; fail);
    try (destruct x, z; by_cases; fail);
    try (destruct y, z; by_cases; fail);
    try (by_cases; fail).
  intros H1 H2.
  apply (SFleb_spec x y vx vy Vx Vy Ex Ey) in H1.
  apply (SFleb_spec y z vy vz Vy Vz Ey Ez) in H2.
  apply (SFleb_spec x z vx vz Vx Vz Ex Ez). lra.
Qed.

Local Open Scope float_scope.

(** [<=] is transitive, and goes with [<]. *)
Lemma leb_trans (x y z : float) :
  (x <=? y) = true -> (y <=? z) = true -> (x <=? z) = true.
Proof. rewrite !leb_spec. apply SFleb_trans; apply Prim2SF_valid. Qed.

Lemma leb_ltb_trans (x y z : float) :
  (x <=? y) = true -> (y <? z) = true -> (x <? z) = true.
Proof.
  rewrite leb_spec, !ltb_spec. apply SFleb_ltb_trans; apply Prim2SF_valid.
Qed.

(** [x <= x] for every number but NaN. *)
Lemma leb_refl (x : float) : Prim2SF x <> S754_nan -> (x <=? x) = true.
Proof.
  intros H. rewrite leb_spec. unfold SFleb.
  pose proof (SFeqb_refl (Prim2SF x) H) as E. unfold SFeqb in E.
  destruct (SFcompare (Prim2SF x) (Prim2SF x)) as [[]|]; congruence.
Qed.

Lemma leb_not_nan (x y : float) :
  (x <=? y) = true -> Prim2SF x <> S754_nan /\ Prim2SF y <> S754_nan.
Proof.
  rewrite leb_spec. intros H. split; intros E; rewrite E in H;
    [|destruct (Prim2SF x)]; discriminate.
Qed.

Lemma ltb_leb (x y : float) : (x <? y) = true -> (x <=? y) = true.
Proof.
  rewrite ltb_spec, leb_spec. unfold SFltb, SFleb.
  destruct (SFcompare (Prim2SF x) (Prim2SF y)) as [[]|]; congruence.
Qed.

(** The rounded sum is monotone: for [x <= y] and positive finite
    [d1 <= d2], [x + d1 <= y + d2]. *)
Lemma add_monotone (x y d1 d2 : float) :
  (x <=? y) = true -> (d1 <=? d2) = true ->
  (of_Z 0 <? d1) = true -> (d2 <? infinity) = true ->
  (x + d1 <=? y + d2) = true.
Proof.
  rewrite !leb_spec, !ltb_spec, !add_spec.
  change (Prim2SF (of_Z 0)) with (S754_zero false).
  change (Prim2SF infinity) with (S754_infinity false).
  pose proof (Prim2SF_valid x) as Vx. pose proof (Prim2SF_valid y) as Vy.
  pose proof (Prim2SF_valid d1) as V1. pose proof (Prim2SF_valid d2) as V2.
  intros Hxy H12 Hpos Hfin.
  destruct (Prim2SF d1) as [s1|s1| |s1 m1 e1]; try discriminate.
  { destruct s1; [discriminate|].
    destruct (Prim2SF d2) as [s2|s2| |s2 m2 e2]; try discriminate;
      destruct s2; discriminate. }
  destruct s1; [discriminate|].
  destruct (Prim2SF d2) as [s2|s2| |s2 m2 e2]; try discriminate.
  { destruct s2; discriminate. }
  clear Hpos Hfin.
  assert (N2 : forall u, valid_binary u = true -> (exists v, valueOf u = Some v) ->
                         SF64add u (S754_finite s2 m2 e2) <> S754_nan).
  { intros u Vu [v Eu].
    destruct (SFadd_normalize u s2 m2 e2 v _ Vu V2 Eu eq_refl) as (M & e & -> & _).
    apply binary_normalize_not_nan. }
  assert (N1 : forall u, valid_binary u = true -> (exists v, valueOf u = Some v) ->
                         SF64add u (S754_finite false m1 e1) <> S754_nan).
  { intros u Vu [v Eu].
    destruct (SFadd_normalize u false m1 e1 v _ Vu V1 Eu eq_refl) as (M & e & -> & _).
    apply binary_normalize_not_nan. }
  destruct (valueOf_cases (Prim2SF x)) as [[vx Ex] | [Nx | [sx Ix]]];
    destruct (valueOf_cases (Prim2SF y)) as [[vy Ey] | [Ny | [sy Iy]]];
    try (rewrite Nx in Hxy; discriminate);
    try (rewrite Ny in Hxy; destruct (Prim2SF x); discriminate).
  - apply (SFadd_monotone _ _ false s2 m1 m2 e1 e2 vx vy _ _ Vx Vy V1 V2 Ex Ey
                          eq_refl eq_refl).
    + now apply (SFleb_spec _ _ vx vy Vx Vy Ex Ey).
    + now apply (SFleb_spec _ _ _ _ V1 V2 eq_refl eq_refl).
  - rewrite Iy in Hxy |- *. destruct sy.
    + destruct (Prim2SF x) as [s|s| |s m e]; try destruct s; discriminate.
    + specialize (N1 _ Vx (ex_intro _ vx Ex)).
      cbn [SF64add SFadd].
      destruct (SF64add (Prim2SF x) (S754_finite false m1 e1)) as [s|s| |s m e];
        try congruence; destruct s; reflexivity.
  - rewrite Ix in Hxy |- *. destruct sx.
    + specialize (N2 _ Vy (ex_intro _ vy Ey)).
      cbn [SF64add SFadd].
      destruct (SF64add (Prim2SF y) (S754_finite s2 m2 e2)) as [s|s| |s m e];
        try congruence; destruct s; reflexivity.
    + destruct (Prim2SF y) as [s|s| |s m e]; try destruct s; discriminate.
  - rewrite Ix, Iy in Hxy |- *. destruct sx, sy; try discriminate; reflexivity.
Qed.
End Binary64AddMonotone.

Module Binary64MulDiv.
Import JS Binary64 Binary64Signs Binary64Order Binary64Value Binary64Shift
       Binary64Round Binary64Add Binary64Location Binary64Nearest
       Binary64Normalize Binary64AddMonotone.
Local Open Scope Z_scope.

(** ** Products *)

(** The product of two valid mantissas has digits enough for its
    exponent. *)
Lemma product_fits (m1 m2 : positive) (e1 e2 : Z) :
  bounded prec emax m1 e1 = true -> bounded prec emax m2 e2 = true ->
  e1 + e2 <= fexp prec emax (Zdigits2 (Z.pos (m1 * m2)) + (e1 + e2)).
Proof.
  intros B1 B2.
  destruct (bounded_spec _ _ B1) as ([L1 _] & D1 & N1).
  destruct (bounded_spec _ _ B2) as ([L2 _] & D2 & N2).
  pose proof (digits2_bounds m1) as [Lo1 _].
  pose proof (digits2_bounds m2) as [Lo2 _].
  pose proof (digits2_bounds (m1 * m2)) as [_ Hi].
  change (Zdigits2 (Z.pos (m1 * m2))) with (Z.pos (digits2_pos (m1 * m2))).
  set (d1 := Z.pos (digits2_pos m1)) in *. set (d2 := Z.pos (digits2_pos m2)) in *.
  set (d := Z.pos (digits2_pos (m1 * m2))) in *.
  assert (Hd : d1 + d2 - 1 <= d).
  { assert (d1 - 1 + (d2 - 1) < d); [|lia].
    apply (Z.pow_lt_mono_r_iff 2); [lia | lia|].
    rewrite Z.pow_add_r by lia. rewrite Pos2Z.inj_mul in Hi.
    assert (0 < 2 ^ (d1 - 1)) by (apply Z.pow_pos_nonneg; lia).
    assert (0 < 2 ^ (d2 - 1)) by (apply Z.pow_pos_nonneg; lia).
    nia. }
  rewrite fexp_spec. lia.
Qed.

(** The product of two positive finite numbers is monotone in both. *)
Lemma SFmul_monotone (a1 a2 b1 b2 : positive) (ea1 ea2 eb1 eb2 : Z) :
  bounded prec emax a1 ea1 = true -> bounded prec emax a2 ea2 = true ->
  bounded prec emax b1 eb1 = true -> bounded prec emax b2 eb2 = true ->
  (inject_Z (Z.pos a1) * 2 ^ ea1 <= inject_Z (Z.pos a2) * 2 ^ ea2)%Q ->
  (inject_Z (Z.pos b1) * 2 ^ eb1 <= inject_Z (Z.pos b2) * 2 ^ eb2)%Q ->
  SFleb (SF64mul (S754_finite false a1 ea1) (S754_finite false b1 eb1))
        (SF64mul (S754_finite false a2 ea2) (S754_finite false b2 eb2)) = true.
Proof.
  intros Ba1 Ba2 Bb1 Bb2 Ha Hb.
  unfold SF64mul, SFmul. cbn [xorb].
  change loc_Exact with (new_location_even 1 0).
  apply binary_round_aux_monotone; try lia;
    try (now apply product_fits).
  rewrite !Z.mul_1_r, !Z.add_0_r. change (inject_Z 1) with 1%Q.
  assert (E1 : forall x : Q, (x / 1 == x)%Q) by (intros x; field).
  rewrite !E1, !Pos2Z.inj_mul, !inject_Z_mult, !Qpower_plus by discriminate.
  pose proof (value_pos a1 ea1). pose proof (value_pos b1 eb1).
  set (va1 := (inject_Z (Z.pos a1) * 2 ^ ea1)%Q) in *.
  set (va2 := (inject_Z (Z.pos a2) * 2 ^ ea2)%Q) in *.
  set (vb1 := (inject_Z (Z.pos b1) * 2 ^ eb1)%Q) in *.
  set (vb2 := (inject_Z (Z.pos b2) * 2 ^ eb2)%Q) in *.
  assert (L : (inject_Z (Z.pos a1) * inject_Z (Z.pos b1) * (2 ^ ea1 * 2 ^ eb1)
               == va1 * vb1)%Q) by (unfold va1, vb1; ring).
  assert (R : (inject_Z (Z.pos a2) * inject_Z (Z.pos b2) * (2 ^ ea2 * 2 ^ eb2)
               == va2 * vb2)%Q) by (unfold va2, vb2; ring).
  rewrite L, R. nra.
Qed.

(** ** Quotients *)

Lemma new_location_spec (D r : Z) :
  0 < D -> 0 <= r < D -> new_location D r = new_location_even D r.
Proof.
  intros HD Hr. unfold new_location, new_location_odd, new_location_even.
  destruct (Z.even D) eqn:Ev; [reflexivity|].
  destruct (r =? 0); [reflexivity|]. f_equal.
  assert (Hodd : Z.odd D = true) by (rewrite <- Z.negb_even, Ev; reflexivity).
  apply Z.odd_spec in Hodd. destruct Hodd as [k Hk].
  destruct (Z.compare_spec (2 * r + 1) D) as [E | L | G];
    destruct (Z.compare_spec (2 * r) D) as [E' | L' | G']; try reflexivity; lia.
Qed.

(** The integer division at the heart of [SF64div]: a quotient with the
    location of its remainder, with digits enough for its exponent, whose
    value is the quotient of the two values. *)
Lemma SFdiv_core_spec (m1 m2 : positive) (e1 e2 : Z) :
  exists q r e,
    SFdiv_core_binary prec emax (Z.pos m1) e1 (Z.pos m2) e2 =
      (q, e, new_location_even (Z.pos m2) r) /\
    0 <= q /\ 0 <= r < Z.pos m2 /\
    e <= fexp prec emax (Zdigits2 q + e) /\ (q = 0 -> e <= -1021) /\
    (inject_Z (q * Z.pos m2 + r) / inject_Z (Z.pos m2) * 2 ^ e ==
     inject_Z (Z.pos m1) * 2 ^ e1 / (inject_Z (Z.pos m2) * 2 ^ e2))%Q.
Proof.
  unfold SFdiv_core_binary.
  change (Zdigits2 (Z.pos m1)) with (Z.pos (digits2_pos m1)).
  change (Zdigits2 (Z.pos m2)) with (Z.pos (digits2_pos m2)).
  pose proof (digits2_bounds m1) as [Lo1 Hi1].
  pose proof (digits2_bounds m2) as [Lo2 Hi2].
  set (d1 := Z.pos (digits2_pos m1)) in *. set (d2 := Z.pos (digits2_pos m2)) in *.
  assert (Hd1 : 1 <= d1) by (unfold d1; lia).
  assert (Hd2 : 1 <= d2) by (unfold d2; lia).
  clearbody d1 d2.
  set (e := Z.min (fexp prec emax (d1 + e1 - (d2 + e2))) (e1 - e2)).
  set (s := e1 - e2 - e).
  assert (Hs : 0 <= s) by (unfold s, e; lia).
  assert (Es : s = e1 - e2 - e) by reflexivity.
  assert (Ee : e = Z.min (Z.max (d1 + e1 - (d2 + e2) - 53) (-1074)) (e1 - e2))
    by reflexivity.
  clearbody s e.
  set (m' := match s with
             | 0 => Z.pos m1
             | Z.pos _ => Z.shiftl (Z.pos m1) s
             | Z.neg _ => 0
             end).
  assert (Em' : m' = Z.pos m1 * 2 ^ s).
  { unfold m'. destruct s as [|p|p]; [now rewrite Z.pow_0_r, Z.mul_1_r| |lia].
    apply Z.shiftl_mul_pow2. lia. }
  clearbody m'.
  pose proof (Z_div_mod m' (Z.pos m2) ltac:(lia)) as Hdiv.
  destruct (Z.div_eucl m' (Z.pos m2)) as [q r]. destruct Hdiv as [Eq Hr].
  assert (Hps : 0 < 2 ^ s) by (apply Z.pow_pos_nonneg; lia).
  assert (Hq : 0 <= q) by nia.
  exists q, r, e. split; [|split; [exact Hq|split; [lia|]]].
  { rewrite new_location_spec by lia. reflexivity. }
  assert (Hbig : -1074 < e -> 2 ^ 52 <= q).
  { intros He.
    assert (Es' : d2 - d1 + 53 <= s) by (clear - Es Ee He; lia).
    assert (H1 : 2 ^ (d2 + 52) <= m').
    { rewrite Em'.
      assert (2 ^ (d2 + 52) <= 2 ^ (d1 - 1 + s)) by (apply Z.pow_le_mono_r; lia).
      rewrite (Z.pow_add_r 2 (d1 - 1) s) in H by lia.
      assert (2 ^ (d1 - 1) * 2 ^ s <= Z.pos m1 * 2 ^ s)
        by (apply Z.mul_le_mono_nonneg_r; lia).
      lia. }
    rewrite Z.pow_add_r in H1 by lia.
    destruct (Z_lt_le_dec q (2 ^ 52)) as [L | G]; [exfalso | exact G].
    assert (q + 1 <= 2 ^ 52) by lia.
    assert (Z.pos m2 * (q + 1) <= Z.pos m2 * 2 ^ 52)
      by (apply Z.mul_le_mono_nonneg_l; lia).
    assert (Z.pos m2 * 2 ^ 52 < 2 ^ d2 * 2 ^ 52)
      by (apply Z.mul_lt_mono_pos_r; [reflexivity | lia]).
    lia. }
  split; [|split].
  - destruct (Z_le_gt_dec e (-1074)) as [L | G].
    + rewrite fexp_spec. lia.
    + specialize (Hbig ltac:(lia)).
      assert (53 <= Zdigits2 q).
      { assert (52 < Zdigits2 q); [|lia].
        apply (Z.pow_lt_mono_r_iff 2); [lia | apply Zdigits2_nonneg|].
        pose proof (Zdigits2_bounds q Hq). lia. }
      rewrite fexp_spec. lia.
  - intros Eq0. destruct (Z_le_gt_dec e (-1074)) as [L | G]; [lia|].
    specialize (Hbig ltac:(lia)). subst q. change (2 ^ 52) with 4503599627370496 in Hbig.
    lia.
  - replace (q * Z.pos m2 + r) with m' by lia.
    rewrite Em', inject_Z_mult, two_power_Z by lia.
    pose proof (two_power_pos e) as X. pose proof (two_power_pos e1) as X1.
    pose proof (two_power_pos e2) as X2.
    pose proof (inject_Z_pos (Z.pos m2) ltac:(lia)) as Pm2.
    assert (Esplit : (2 ^ e1 == 2 ^ s * 2 ^ e * 2 ^ e2)%Q).
    { rewrite <- !Qpower_plus by discriminate.
      now replace (s + e + e2) with e1 by lia. }
    rewrite Esplit. field. split; lra.
Qed.

(** The quotient of two positive finite numbers is monotone in its
    numerator and antitone in its divisor. *)
Lemma SFdiv_monotone (a1 a2 b1 b2 : positive) (ea1 ea2 eb1 eb2 : Z) :
  (inject_Z (Z.pos a1) * 2 ^ ea1 <= inject_Z (Z.pos a2) * 2 ^ ea2)%Q ->
  (inject_Z (Z.pos b2) * 2 ^ eb2 <= inject_Z (Z.pos b1) * 2 ^ eb1)%Q ->
  SFleb (SF64div (S754_finite false a1 ea1) (S754_finite false b1 eb1))
        (SF64div (S754_finite false a2 ea2) (S754_finite false b2 eb2)) = true.
Proof.
  intros Ha Hb. unfold SF64div, SFdiv. cbn [xorb].
  destruct (SFdiv_core_spec a1 b1 ea1 eb1)
    as (q1 & r1 & z1 & -> & Hq1 & Hr1 & F1 & Z1 & V1).
  destruct (SFdiv_core_spec a2 b2 ea2 eb2)
    as (q2 & r2 & z2 & -> & Hq2 & Hr2 & F2 & Z2 & V2).
  apply binary_round_aux_monotone; try assumption; try lia.
  rewrite V1, V2.
  pose proof (value_pos b1 eb1) as Pb1. pose proof (value_pos b2 eb2) as Pb2.
  pose proof (value_pos a1 ea1) as Pa1.
  set (A1 := (inject_Z (Z.pos a1) * 2 ^ ea1)%Q) in *.
  set (A2 := (inject_Z (Z.pos a2) * 2 ^ ea2)%Q) in *.
  set (B1 := (inject_Z (Z.pos b1) * 2 ^ eb1)%Q) in *.
  set (B2 := (inject_Z (Z.pos b2) * 2 ^ eb2)%Q) in *.
  clearbody A1 A2 B1 B2.
  apply Qle_shift_div_l; [exact Pb2|].
  apply Qle_trans with A1; [|exact Ha].
  assert (E : (A1 / B1 * B2 == A1 * (B2 / B1))%Q) by (field; lra).
  rewrite E.
  assert (H1 : (B2 / B1 <= 1)%Q) by (apply Qle_shift_div_r; lra).
  nra.
Qed.
End Binary64MulDiv.

Module Binary64Positive.
Import JS Binary64 Binary64Signs Binary64Order Binary64Value
       Binary64AddMonotone Binary64MulDiv.
Local Open Scope float_scope.

(** The numbers above 0, on the representation. *)
Lemma positive_spec (x : float) :
  (of_Z 0 <? x) = true <->
  Prim2SF x = S754_infinity false \/
  exists m e, Prim2SF x = S754_finite false m e.
Proof.
  rewrite ltb_spec. change (Prim2SF (of_Z 0)) with (S754_zero false).
  destruct (Prim2SF x) as [s|s| |s m e]; try destruct s; cbn; split;
    try discriminate; try reflexivity; eauto;
    intros [H | (m' & e' & H)]; discriminate.
Qed.

Lemma not_negative_spec (x : float) :
  (of_Z 0 <=? x) = true <->
  (exists s, Prim2SF x = S754_zero s) \/ (of_Z 0 <? x) = true.
Proof.
  rewrite leb_spec, ltb_spec. change (Prim2SF (of_Z 0)) with (S754_zero false).
  destruct (Prim2SF x) as [s|s| |s m e]; try destruct s; cbn; split;
    try discriminate; try reflexivity; eauto;
    intros [[s' H] | H]; discriminate.
Qed.

Lemma finite_valid (x : float) (s : bool) (m : positive) (e : Z) :
  Prim2SF x = S754_finite s m e -> bounded prec emax m e = true.
Proof. intros E. pose proof (Prim2SF_valid x) as V. now rewrite E in V. Qed.

Lemma SFleb_infinity (r : spec_float) :
  r <> S754_nan -> SFleb r (S754_infinity false) = true.
Proof. destruct r as [s|s| |s m e]; try destruct s; congruence || reflexivity. Qed.

(** The product and the quotient of two positive finite numbers are not
    NaN, and are not negative. *)
Lemma SFmul_finite_class (a b : positive) (ea eb : Z) :
  bounded prec emax a ea = true -> bounded prec emax b eb = true ->
  let r := SF64mul (S754_finite false a ea) (S754_finite false b eb) in
  r <> S754_nan /\ notNegative r = true.
Proof.
  intros Ba Bb r. split.
  - intros E.
    pose proof (SFmul_monotone a a b b ea ea eb eb Ba Ba Bb Bb
                               (Qle_refl _) (Qle_refl _)) as H.
    fold r in H. rewrite E in H. discriminate.
  - apply (SFmul_sign (S754_finite false a ea) (S754_finite false b eb));
      reflexivity.
Qed.

Lemma SFdiv_finite_class (a b : positive) (ea eb : Z) :
  let r := SF64div (S754_finite false a ea) (S754_finite false b eb) in
  r <> S754_nan.
Proof.
  intros r E.
  pose proof (SFdiv_monotone a a b b ea ea eb eb (Qle_refl _) (Qle_refl _)) as H.
  fold r in H. rewrite E in H. discriminate.
Qed.

(** A positive product with a factor that is not negative has two
    positive factors. *)
Lemma mul_positive_inv (a b : float) :
  (of_Z 0 <? a * b) = true -> (of_Z 0 <=? a) = true ->
  (of_Z 0 <? a) = true /\ (of_Z 0 <? b) = true.
Proof.
  intros Hab Ha. apply positive_spec in Hab.
  apply not_negative_spec in Ha. rewrite mul_spec in Hab.
  destruct Ha as [[s Ea] | Ha].
  - exfalso. rewrite Ea in Hab.
    destruct (Prim2SF b) as [sb|sb| |sb mb eb];
      destruct Hab as [H | (m' & e' & H)]; discriminate.
  - split; [exact Ha|].
    apply positive_spec in Ha. apply positive_spec.
    destruct (Prim2SF b) as [sb|sb| |sb mb eb] eqn:Eb.
    + exfalso. destruct Ha as [Ea | (ma & ea & Ea)]; rewrite Ea in Hab;
        destruct Hab as [H | (m' & e' & H)]; discriminate.
    + destruct sb; [exfalso | now left].
      destruct Ha as [Ea | (ma & ea & Ea)]; rewrite Ea in Hab;
        destruct Hab as [H | (m' & e' & H)]; discriminate.
    + exfalso. destruct Ha as [Ea | (ma & ea & Ea)]; rewrite Ea in Hab;
        destruct Hab as [H | (m' & e' & H)]; discriminate.
    + destruct sb; [exfalso | right; eauto].
      destruct Ha as [Ea | (ma & ea & Ea)]; rewrite Ea in Hab.
      * destruct Hab as [H | (m' & e' & H)]; discriminate.
      * pose proof (SFmul_sign (S754_finite false ma ea) (S754_finite true mb eb))
          as [_ _].
        pose proof (proj1 (SFmul_sign (S754_finite true mb eb)
                                      (S754_finite false ma ea)) eq_refl eq_refl)
          as Hs.
        rewrite SFmul_comm in Hs.
        destruct Hab as [H | (m' & e' & H)]; rewrite H in Hs; discriminate.
Qed.

(** The product of two positive numbers is positive, a zero of positive
    sign (when it underflows), or [+Infinity]. *)
Lemma mul_positive_class (a b : float) :
  (of_Z 0 <? a) = true -> (of_Z 0 <? b) = true ->
  Prim2SF (a * b) = S754_zero false \/ (of_Z 0 <? a * b) = true.
Proof.
  intros Ha Hb. rewrite positive_spec. rewrite mul_spec.
  apply positive_spec in Ha, Hb.
  destruct Ha as [Ea | (ma & ea & Ea)], Hb as [Eb | (mb & eb & Eb)];
    rewrite Ea, Eb; try (right; left; reflexivity).
  destruct (SFmul_finite_class ma mb ea eb (finite_valid _ _ _ _ Ea)
                               (finite_valid _ _ _ _ Eb)) as [Hn Hs].
  cbv zeta in Hn, Hs.
  destruct (SF64mul (S754_finite false ma ea) (S754_finite false mb eb))
    as [s|s| |s m e] eqn:Er; try congruence.
  - unfold SF64mul, SFmul in Er. cbn [xorb] in Er.
    unfold binary_round_aux in Er.
    destruct (shr_fexp prec emax _ _ loc_Exact) as [mrs' e'] in Er.
    destruct (shr_fexp prec emax _ e' loc_Exact) as [mrs'' e''] in Er.
    destruct (shr_m mrs'') as [|p|p]; try discriminate;
      [left; now rewrite <- Er | destruct (e'' <=? emax - prec)%Z; discriminate].
  - simpl in Hs. apply negb_true_iff in Hs. subst s. right. now left.
  - simpl in Hs. apply negb_true_iff in Hs. subst s. right. right. eauto.
Qed.

(** Multiplication of positive numbers is monotone in both factors. *)
Lemma mul_monotone (a1 a2 b1 b2 : float) :
  (of_Z 0 <? a1) = true -> (a1 <=? a2) = true ->
  (of_Z 0 <? b1) = true -> (b1 <=? b2) = true ->
  (a1 * b1 <=? a2 * b2) = true.
Proof.
  intros Pa1 Ha Pb1 Hb.
  assert (Pa2 : (of_Z 0 <? a2) = true).
  { destruct (of_Z 0 <? a2) eqn:E; [reflexivity|].
    pose proof (leb_trans _ _ _ (ltb_leb _ _ Pa1) Ha) as H0.
    apply not_negative_spec in H0. destruct H0 as [[s Ez] | H0]; [|congruence].
    rewrite leb_spec, Ez in Ha. apply positive_spec in Pa1.
    destruct Pa1 as [E1 | (m1 & e1 & E1)]; rewrite E1 in Ha; discriminate. }
  assert (Pb2 : (of_Z 0 <? b2) = true).
  { destruct (of_Z 0 <? b2) eqn:E; [reflexivity|].
    pose proof (leb_trans _ _ _ (ltb_leb _ _ Pb1) Hb) as H0.
    apply not_negative_spec in H0. destruct H0 as [[s Ez] | H0]; [|congruence].
    rewrite leb_spec, Ez in Hb. apply positive_spec in Pb1.
    destruct Pb1 as [E1 | (m1 & e1 & E1)]; rewrite E1 in Hb; discriminate. }
  rewrite leb_spec in Ha, Hb |- *. rewrite !mul_spec.
  apply positive_spec in Pa1, Pa2, Pb1, Pb2.
  destruct Pa1 as [Ea1 | (ma1 & ea1 & Ea1)], Pa2 as [Ea2 | (ma2 & ea2 & Ea2)],
           Pb1 as [Eb1 | (mb1 & eb1 & Eb1)], Pb2 as [Eb2 | (mb2 & eb2 & Eb2)];
    rewrite ?Ea1, ?Ea2, ?Eb1, ?Eb2 in *; try reflexivity; try discriminate.
  - destruct (SFmul_finite_class ma1 mb1 ea1 eb1 (finite_valid _ _ _ _ Ea1)
                                 (finite_valid _ _ _ _ Eb1)) as [Hn Hs].
    exact (SFleb_infinity _ Hn).
  - destruct (SFmul_finite_class ma1 mb1 ea1 eb1 (finite_valid _ _ _ _ Ea1)
                                 (finite_valid _ _ _ _ Eb1)) as [Hn Hs].
    exact (SFleb_infinity _ Hn).
  - destruct (SFmul_finite_class ma1 mb1 ea1 eb1 (finite_valid _ _ _ _ Ea1)
                                 (finite_valid _ _ _ _ Eb1)) as [Hn Hs].
    exact (SFleb_infinity _ Hn).
  - pose proof (finite_valid _ _ _ _ Ea1) as Ba1.
    pose proof (finite_valid _ _ _ _ Ea2) as Ba2.
    pose proof (finite_valid _ _ _ _ Eb1) as Bb1.
    pose proof (finite_valid _ _ _ _ Eb2) as Bb2.
    apply SFmul_monotone; try assumption.
    + now apply (SFleb_spec (S754_finite false ma1 ea1) (S754_finite false ma2 ea2)
                            _ _ Ba1 Ba2 eq_refl eq_refl).
    + now apply (SFleb_spec (S754_finite false mb1 eb1) (S754_finite false mb2 eb2)
                            _ _ Bb1 Bb2 eq_refl eq_refl).
Qed.

(** A positive quotient by a divisor that is positive or [+0] has a
    positive numerator and a divisor below [Infinity]. *)
Lemma div_positive_inv (a b : float) :
  (of_Z 0 <? a / b) = true ->
  Prim2SF b = S754_zero false \/ (of_Z 0 <? b) = true ->
  (of_Z 0 <? a) = true /\
  (Prim2SF b = S754_zero false \/ exists m e, Prim2SF b = S754_finite false m e).
Proof.
  intros Hab Hb. apply positive_spec in Hab. rewrite div_spec in Hab.
  rewrite positive_spec in Hb |- *.
  assert (Hneg : forall ma ea mb eb,
             SF64div (S754_finite true ma ea) (S754_finite false mb eb)
               <> S754_infinity false /\
             forall m e, SF64div (S754_finite true ma ea) (S754_finite false mb eb)
               <> S754_finite false m e).
  { intros ma ea mb eb.
    destruct (SFdiv_sign (S754_finite true ma ea) (S754_finite false mb eb)
                         eq_refl eq_refl) as [H | H].
    - split; [|intros m e]; intros E; rewrite E in H; discriminate.
    - unfold SF64div, SFdiv in *. cbn [xorb] in *.
      destruct (SFdiv_core_binary prec emax (Z.pos ma) ea (Z.pos mb) eb)
        as [[mz ez] lz].
      pose proof (binary_round_aux_sign true mz ez lz) as Hs. cbv beta iota in Hs.
      split; [|intros m e]; intros E; rewrite E in Hs; discriminate. }
  destruct Hb as [Eb | [Eb | (mb & eb & Eb)]]; rewrite Eb in Hab.
  - split; [|now left].
    destruct (Prim2SF a) as [sa|sa| |sa ma ea];
      destruct Hab as [H | (m' & e' & H)]; try discriminate;
      destruct sa; try discriminate; eauto.
  - exfalso. destruct (Prim2SF a) as [sa|sa| |sa ma ea];
      destruct Hab as [H | (m' & e' & H)]; discriminate.
  - split; [|right; eauto].
    destruct (Prim2SF a) as [sa|sa| |sa ma ea];
      try (destruct Hab as [H | (m' & e' & H)]; discriminate).
    + destruct sa; [|now left].
      destruct Hab as [H | (m' & e' & H)]; discriminate.
    + destruct sa; [|right; eauto]. exfalso.
      destruct (Hneg ma ea mb eb) as [N1 N2].
      destruct Hab as [H | (m' & e' & H)]; [now apply N1 | now apply (N2 m' e')].
Qed.

(** A quotient by a divisor that is [+0] or positive and finite is
    monotone in a positive numerator. *)
Lemma div_monotone (a1 a2 b : float) :
  (of_Z 0 <? a1) = true -> (a1 <=? a2) = true ->
  Prim2SF b = S754_zero false \/ (exists m e, Prim2SF b = S754_finite false m e) ->
  (a1 / b <=? a2 / b) = true.
Proof.
  intros Pa1 Ha Hb.
  assert (Pa2 : (of_Z 0 <? a2) = true).
  { destruct (of_Z 0 <? a2) eqn:E; [reflexivity|].
    pose proof (leb_trans _ _ _ (ltb_leb _ _ Pa1) Ha) as H0.
    apply not_negative_spec in H0. destruct H0 as [[s Ez] | H0]; [|congruence].
    rewrite leb_spec, Ez in Ha. apply positive_spec in Pa1.
    destruct Pa1 as [E1 | (m1 & e1 & E1)]; rewrite E1 in Ha; discriminate. }
  rewrite leb_spec in Ha |- *. rewrite !div_spec.
  apply positive_spec in Pa1, Pa2.
  destruct Hb as [Eb | (mb & eb & Eb)]; rewrite Eb.
  - destruct Pa1 as [Ea1 | (ma1 & ea1 & Ea1)], Pa2 as [Ea2 | (ma2 & ea2 & Ea2)];
      rewrite Ea1, Ea2; reflexivity.
  - destruct Pa1 as [Ea1 | (ma1 & ea1 & Ea1)], Pa2 as [Ea2 | (ma2 & ea2 & Ea2)];
      rewrite ?Ea1, ?Ea2 in *; try reflexivity; try discriminate.
    + exact (SFleb_infinity _ (SFdiv_finite_class ma1 mb ea1 eb)).
    + apply SFdiv_monotone; [|apply Qle_refl].
      now apply (SFleb_spec (S754_finite false ma1 ea1) (S754_finite false ma2 ea2)
                            _ _ (finite_valid _ _ _ _ Ea1) (finite_valid _ _ _ _ Ea2)
                            eq_refl eq_refl).
Qed.
End Binary64Positive.

(** * Two runs of the loop compared *)

Module JSCompare.
Import JS Binary64 JSLoop Binary64Monotone Binary64AddMonotone.
Local Open Scope float_scope.

Lemma ltb_not_leb (x y : float) : (x <? y) = true -> (y <=? x) = false.
Proof.
  intros H. destruct (y <=? x) eqn:E; [|reflexivity].
  apply leb_not_ltb in E. congruence.
Qed.

(** What is above a positive number is not [<= 0]. *)
Lemma above_positive (d1 d2 : float) :
  (of_Z 0 <? d1) = true -> (d1 <=? d2) = true -> (d2 <=? of_Z 0) = false.
Proof.
  intros H1 H12. destruct (d2 <=? of_Z 0) eqn:E; [|reflexivity].
  pose proof (leb_trans _ _ _ H12 E) as H. apply ltb_not_leb in H1. congruence.
Qed.

(** A number that is not NaN and whose sum with something is below a
    target is below [Infinity]. *)
Lemma summand_finite (x d t : float) :
  (of_Z 0 <=? d) = true -> (x + d <? t) = true -> (d <? infinity) = true.
Proof.
  rewrite leb_spec, !ltb_spec, add_spec.
  change (Prim2SF (of_Z 0)) with (S754_zero false).
  change (Prim2SF infinity) with (S754_infinity false).
  destruct (Prim2SF d) as [s|s| |s m e]; try discriminate.
  - reflexivity.
  - destruct s; [discriminate|]. intros _.
    destruct (Prim2SF x) as [sx|sx| |sx mx ex]; try destruct sx; cbn;
      try discriminate;
      destruct (Prim2SF t) as [st|st| |st mt et]; try destruct st; discriminate.
  - destruct s; [discriminate | reflexivity].
Qed.

Section Elapsed.
Variables m c t P ts : float.
Hypothesis Hts : (of_Z 0 <=? ts) = true.

(** With a time step that is not below 0 the elapsed time never
    decreases. *)
Lemma elapsed_step (e : float) :
  (of_Z 0 <=? e) = true -> (e <=? e + ts) = true /\ (of_Z 0 <=? e + ts) = true.
Proof.
  intros He.
  assert (H : (e <=? e + ts) = true).
  { apply add_not_smaller; [exact Hts | now apply (leb_not_nan _ _ He)|].
    intros [E _]. rewrite E in He. vm_compute in He. discriminate. }
  split; [exact H | exact (leb_trans _ _ _ He H)].
Qed.

Lemma elapsed_not_decreasing (fuel : nat) : forall s r : state float,
  loop m c t P ts fuel s = Some r ->
  (of_Z 0 <=? totalTime s) = true ->
  (totalTime s <=? totalTime r) = true.
Proof.
  induction fuel as [|fuel IH]; intros s r Hr He;
    destruct (currentTemperature s <? t) eqn:Hc.
  - destruct (loop_no_fuel (H := JS.number) m c t P ts s Hc) as [E _].
    rewrite E in Hr. discriminate.
  - destruct (loop_exit (H := JS.number) m c t P ts O s Hc) as [E _].
    rewrite E in Hr. injection Hr as <-.
    apply leb_refl. now apply (leb_not_nan _ _ He).
  - destruct (loop_enter (H := JS.number) m c t P ts fuel s Hc) as [E _].
    rewrite E in Hr. destruct (elapsed_step (totalTime s) He) as [H1 H2].
    destruct (@leb float JS.number (temperatureIncrease m c P ts)
                   (@lit float JS.number 0%Z)).
    + injection Hr as <-. exact H1.
    + apply IH in Hr; [|exact H2]. exact (leb_trans _ _ _ H1 Hr).
  - destruct (loop_exit (H := JS.number) m c t P ts (S fuel) s Hc) as [E _].
    rewrite E in Hr. injection Hr as <-.
    apply leb_refl. now apply (leb_not_nan _ _ He).
Qed.
End Elapsed.

Section TwoRuns.
Variables m1 c1 P1 m2 c2 P2 t ts : float.

Let dT1 : float := temperatureIncrease m1 c1 P1 ts.
Let dT2 : float := temperatureIncrease m2 c2 P2 ts.

Hypothesis Hts : (of_Z 0 <=? ts) = true.
Hypothesis Hpos : (of_Z 0 <? dT1) = true.
Hypothesis Hle : (dT1 <=? dT2) = true.

(** Of two loops with the same target and time step, the one with the
    larger increase is never behind: when the loop with the smaller,
    positive increase returns, so does the other, and no later. *)
Lemma compare_runs (fuel : nat) : forall s1 s2 r1 : state float,
  totalTime s2 = totalTime s1 ->
  (of_Z 0 <=? totalTime s1) = true ->
  ((currentTemperature s2 <? t) = true ->
   (currentTemperature s1 <=? currentTemperature s2) = true) ->
  loop m1 c1 t P1 ts fuel s1 = Some r1 ->
  exists r2, loop m2 c2 t P2 ts fuel s2 = Some r2 /\
             (totalTime r2 <=? totalTime r1) = true.
Proof.
  induction fuel as [|fuel IH]; intros s1 s2 r1 Et He Inv Hr1;
    destruct (currentTemperature s2 <? t) eqn:Hc2.
  - pose proof (leb_ltb_trans _ _ _ (Inv eq_refl) Hc2) as Hc1.
    destruct (loop_no_fuel (H := JS.number) m1 c1 t P1 ts s1 Hc1) as [E _].
    rewrite E in Hr1. discriminate.
  - destruct (loop_exit (H := JS.number) m2 c2 t P2 ts O s2 Hc2) as [E _].
    exists s2. split; [exact E|]. rewrite Et.
    exact (elapsed_not_decreasing m1 c1 t P1 ts Hts O s1 r1 Hr1 He).
  - pose proof (Inv eq_refl) as H12.
    pose proof (leb_ltb_trans _ _ _ H12 Hc2) as Hc1.
    destruct (loop_enter (H := JS.number) m1 c1 t P1 ts fuel s1 Hc1) as [E1 _].
    destruct (loop_enter (H := JS.number) m2 c2 t P2 ts fuel s2 Hc2) as [E2 _].
    js_ops. fold dT1 in E1. fold dT2 in E2.
    rewrite (ltb_not_leb _ _ Hpos) in E1.
    rewrite (above_positive _ _ Hpos Hle) in E2.
    rewrite E1 in Hr1. rewrite E2.
    destruct (elapsed_step ts Hts (totalTime s1) He) as [_ He'].
    apply (IH (advance m1 c1 P1 ts s1) (advance m2 c2 P2 ts s2) r1).
    + simpl. js_ops. now rewrite Et.
    + exact He'.
    + intros Hc2'.
      change ((currentTemperature s1 + dT1 <=? currentTemperature s2 + dT2) = true).
      change ((currentTemperature s2 + dT2 <? t) = true) in Hc2'.
      apply add_monotone; [exact H12 | exact Hle | exact Hpos|].
      apply (summand_finite (currentTemperature s2) dT2 t); [|exact Hc2'].
      exact (leb_trans _ _ _ (ltb_leb _ _ Hpos) Hle).
    + exact Hr1.
  - destruct (loop_exit (H := JS.number) m2 c2 t P2 ts (S fuel) s2 Hc2) as [E _].
    exists s2. split; [exact E|]. rewrite Et.
    exact (elapsed_not_decreasing m1 c1 t P1 ts Hts (S fuel) s1 r1 Hr1 He).
Qed.
End TwoRuns.
End JSCompare.

Module JSPower.
Import JS Binary64 JSLoop Binary64Monotone Binary64AddMonotone Binary64Positive.
Local Open Scope float_scope.

Lemma mul_positive_inv_r (a b : float) :
  (of_Z 0 <? a * b) = true -> (of_Z 0 <=? b) = true ->
  (of_Z 0 <? a) = true /\ (of_Z 0 <? b) = true.
Proof.
  rewrite mul_comm. intros H Hb.
  destruct (mul_positive_inv b a H Hb). now split.
Qed.

Lemma positive_refl (x : float) : (of_Z 0 <? x) = true -> (x <=? x) = true.
Proof.
  intros H. apply leb_refl. apply positive_spec in H.
  destruct H as [E | (m & e & E)]; rewrite E; discriminate.
Qed.

(** The temperature increase of one iteration is monotone in
    [numCollectors] and [collectorPower], as long as the smaller one is
    positive: each of the three products and the quotient rounds
    monotonically. *)
Lemma increase_monotone (m c nc1 cp1 nc2 cp2 ts : float) :
  (of_Z 0 <? m) = true -> (of_Z 0 <? c) = true ->
  (of_Z 0 <=? ts) = true -> (of_Z 0 <=? nc1) = true ->
  (nc1 <=? nc2) = true -> (cp1 <=? cp2) = true ->
  (of_Z 0 <? temperatureIncrease m c (totalPowerOutput nc1 cp1) ts) = true ->
  (temperatureIncrease m c (totalPowerOutput nc1 cp1) ts
   <=? temperatureIncrease m c (totalPowerOutput nc2 cp2) ts) = true.
Proof.
  intros Hm Hc Hts Hn1 Hn Hcp Hpos.
  unfold temperatureIncrease, energyTransferred, totalPowerOutput in *. js_ops.
  destruct (div_positive_inv _ _ Hpos (mul_positive_class m c Hm Hc)) as [HE HM].
  destruct (mul_positive_inv_r _ _ HE Hts) as [HP Hts'].
  assert (H1000 : PrimFloat.ltb (of_Z 0) (of_Z 1000) = true) by reflexivity.
  assert (H1000' : PrimFloat.leb (of_Z 0) (of_Z 1000) = true) by reflexivity.
  destruct (mul_positive_inv_r _ _ HP H1000') as [Hg _].
  destruct (mul_positive_inv _ _ Hg Hn1) as [Hn1' Hcp1].
  apply div_monotone; [exact HE | | exact HM].
  apply mul_monotone; [exact HP | | exact Hts' | exact (positive_refl _ Hts')].
  apply mul_monotone; [exact Hg | | exact H1000 | reflexivity].
  now apply mul_monotone.
Qed.
End JSPower.

Module JSTarget.
Import JS Binary64 JSLoop Binary64AddMonotone JSCompare.

Lemma SFltb_leb_trans (x y z : spec_float) :
  valid_binary x = true -> valid_binary y = true -> valid_binary z = true ->
  SFltb x y = true -> SFleb y z = true -> SFltb x z = true.
Proof.
  intros Vx Vy Vz.
  destruct (valueOf_cases x) as [[vx Ex] | [-> | [sx ->]]];
    destruct (valueOf_cases y) as [[vy Ey] | [-> | [sy ->]]];
    destruct (valueOf_cases z) as [[vz Ez] | [-> | [sz ->]]];
    try (destruct x; by_cases; fail);
    try (destruct y; by_cases; fail);
    try (destruct z; by_cases; fail);
    try (destruct x, y; by_cases; fail);
    try (destruct x, z; by_cases; fail);
    try (destruct y, z; by_cases; fail);
    try (by_cases; fail).
  intros H1 H2.
  apply (SFleb_spec x y vx vy Vx Vy Ex Ey) in H1.
  apply (SFleb_spec y z vy vz Vy Vz Ey Ez) in H2.
  apply (SFleb_spec x z vx vz Vx Vz Ex Ez). lra.
Qed.

Local Open Scope float_scope.

Lemma ltb_leb_trans (x y z : float) :
  (x <? y) = true -> (y <=? z) = true -> (x <? z) = true.
Proof.
  rewrite leb_spec, !ltb_spec. apply SFltb_leb_trans; apply Prim2SF_valid.
Qed.

Section TwoTargets.
Variables m c P ts t1 t2 : float.
Hypothesis Hts : (of_Z 0 <=? ts) = true.
Hypothesis Ht : (t1 <=? t2) = true.

(** Of two loops that differ in the target only, the one with the lower
    target is never behind: when the loop with the higher target returns,
    so does the other, and no later. *)
Lemma compare_targets (fuel : nat) : forall s r2 : state float,
  (of_Z 0 <=? totalTime s) = true ->
  loop m c t2 P ts fuel s = Some r2 ->
  exists r1, loop m c t1 P ts fuel s = Some r1 /\
             (totalTime r1 <=? totalTime r2) = true.
Proof.
  induction fuel as [|fuel IH]; intros s r2 He Hr2;
    destruct (currentTemperature s <? t1) eqn:Hc1.
  - pose proof (ltb_leb_trans _ _ _ Hc1 Ht) as Hc2.
    destruct (loop_no_fuel (H := JS.number) m c t2 P ts s Hc2) as [E _].
    rewrite E in Hr2. discriminate.
  - destruct (loop_exit (H := JS.number) m c t1 P ts O s Hc1) as [E _].
    exists s. split; [exact E|].
    exact (elapsed_not_decreasing m c t2 P ts Hts O s r2 Hr2 He).
  - pose proof (ltb_leb_trans _ _ _ Hc1 Ht) as Hc2.
    destruct (loop_enter (H := JS.number) m c t1 P ts fuel s Hc1) as [E1 _].
    destruct (loop_enter (H := JS.number) m c t2 P ts fuel s Hc2) as [E2 _].
    rewrite E2 in Hr2. rewrite E1.
    destruct (elapsed_step ts Hts (totalTime s) He) as [_ He'].
    destruct (@leb float JS.number (temperatureIncrease m c P ts)
                   (@lit float JS.number 0%Z)).
    + injection Hr2 as <-. eexists. split; [reflexivity|].
      apply leb_refl. cbn [advance totalTime]. js_ops.
      now apply (leb_not_nan _ _ He').
    + exact (IH (advance m c P ts s) r2 He' Hr2).
  - destruct (loop_exit (H := JS.number) m c t1 P ts (S fuel) s Hc1) as [E _].
    exists s. split; [exact E|].
    exact (elapsed_not_decreasing m c t2 P ts Hts (S fuel) s r2 Hr2 He).
Qed.
End TwoTargets.
End JSTarget.

Module JSMass.
Import JS Binary64 JSLoop Binary64Order Binary64Value Binary64AddMonotone
       Binary64MulDiv Binary64Positive JSPower JSTarget.
Local Open Scope float_scope.

(** A positive quotient grows when its positive divisor shrinks. *)
Lemma div_antitone (a b1 b2 : float) :
  (of_Z 0 <? b2) = true -> (b2 <=? b1) = true ->
  (of_Z 0 <? a / b1) = true ->
  (a / b1 <=? a / b2) = true.
Proof.
  intros Pb2 Hb Hpos.
  pose proof (ltb_leb_trans _ _ _ Pb2 Hb) as Pb1.
  destruct (div_positive_inv a b1 Hpos (or_intror Pb1)) as [Pa Hb1].
  destruct Hb1 as [Eb1 | (mb1 & eb1 & Eb1)].
  { apply positive_spec in Pb1. rewrite Eb1 in Pb1.
    destruct Pb1 as [E | (m' & e' & E)]; discriminate. }
  rewrite leb_spec in Hb |- *. rewrite !div_spec.
  apply positive_spec in Pa, Pb2. rewrite Eb1 in *.
  destruct Pb2 as [Eb2 | (mb2 & eb2 & Eb2)]; rewrite Eb2 in *; [discriminate|].
  destruct Pa as [Ea | (ma & ea & Ea)]; rewrite Ea; [reflexivity|].
  apply SFdiv_monotone; [apply Qle_refl|].
  now apply (SFleb_spec (S754_finite false mb2 eb2) (S754_finite false mb1 eb1)
                        _ _ (finite_valid _ _ _ _ Eb2) (finite_valid _ _ _ _ Eb1)
                        eq_refl eq_refl).
Qed.

(** The temperature increase of one iteration is antitone in [mass] and
    [specificHeat], as long as the smaller increase is positive. *)
Lemma increase_antitone (m1 c1 m2 c2 P ts : float) :
  (of_Z 0 <? m1) = true -> (m1 <=? m2) = true ->
  (of_Z 0 <? c1) = true -> (c1 <=? c2) = true ->
  (of_Z 0 <? temperatureIncrease m2 c2 P ts) = true ->
  (temperatureIncrease m2 c2 P ts <=? temperatureIncrease m1 c1 P ts) = true.
Proof.
  intros Pm1 Hm Pc1 Hc Hpos.
  pose proof (ltb_leb_trans _ _ _ Pm1 Hm) as Pm2.
  pose proof (ltb_leb_trans _ _ _ Pc1 Hc) as Pc2.
  unfold temperatureIncrease, energyTransferred in *. js_ops.
  pose proof (mul_monotone m1 m2 c1 c2 Pm1 Hm Pc1 Hc) as HM.
  destruct (div_positive_inv _ _ Hpos (mul_positive_class m2 c2 Pm2 Pc2))
    as [PE _].
  destruct (mul_positive_class m1 c1 Pm1 Pc1) as [Z1 | P1].
  - rewrite leb_spec, !div_spec, Z1.
    apply positive_spec in Hpos. rewrite div_spec in Hpos.
    apply positive_spec in PE.
    destruct PE as [E | (me & ee & E)]; rewrite E in *;
      destruct Hpos as [H | (m' & e' & H)]; rewrite H; reflexivity.
  - now apply div_antitone.
Qed.
End JSMass.

Module Binary64Zero.
Import JS Binary64 JSLoop.
Local Open Scope float_scope.

(** [0 + x] is [x] itself, except that [0 + -0] is [+0]. *)
Lemma zero_plus_eq (x : float) :
  of_Z 0 + x = x \/ (x = neg_zero /\ of_Z 0 + x = of_Z 0).
Proof.
  destruct (Prim2SF x) as [s|s| |s m e] eqn:E.
  - destruct s.
    + right. split; apply Prim2SF_inj; [exact E|].
      rewrite add_spec, E. reflexivity.
    + left. apply Prim2SF_inj. rewrite add_spec, E. reflexivity.
  - left. apply Prim2SF_inj. rewrite add_spec, E. reflexivity.
  - left. apply Prim2SF_inj. rewrite add_spec, E. reflexivity.
  - left. apply Prim2SF_inj. rewrite add_spec, E. reflexivity.
Qed.

Lemma nan_is_nan (x : float) : Prim2SF x = S754_nan -> is_nan x = true.
Proof. intros E. unfold is_nan. rewrite eqb_spec, E. reflexivity. Qed.

Lemma zero_eqb (x : float) (s : bool) :
  Prim2SF x = S754_zero s -> (x =? of_Z 0) = true.
Proof. intros E. rewrite eqb_spec, E. reflexivity. Qed.

(** Adding NaN gives NaN, below which nothing is. *)
Lemma plus_nan_not_below (x d t : float) :
  Prim2SF d = S754_nan -> (x + d <? t) = false.
Proof.
  intros E. apply not_below. left. rewrite add_spec, E.
  destruct (Prim2SF x); reflexivity.
Qed.

Lemma plus_infinity_not_below (x d t : float) :
  Prim2SF d = S754_infinity false -> (x + d <? t) = false.
Proof. intros E. apply not_below. now apply plus_infinity. Qed.

(** How the loop stops when the increase is a zero or NaN: the guard fires
    on a zero; NaN passes the guard and fails the loop test. *)
Lemma zero_or_nan_stops (x d t : float) :
  isZeroOrNaN (Prim2SF d) = true ->
  ((d =? of_Z 0) = true /\ (d <=? of_Z 0) = true) \/
  (is_nan d = true /\ (d <=? of_Z 0) = false /\ (x + d <? t) = false).
Proof.
  intros H. destruct (Prim2SF d) as [s|s| |s m e] eqn:E; try discriminate.
  - left. split; [now apply (zero_eqb d s)|].
    rewrite leb_spec, E. reflexivity.
  - right. split; [now apply nan_is_nan|]. split.
    + rewrite leb_spec, E. reflexivity.
    + now apply plus_nan_not_below.
Qed.

(** How the loop stops when the increase is an infinity or NaN: the guard
    fires on [-Infinity]; [+Infinity] and NaN pass the guard and fail the
    loop test. *)
Lemma infinity_or_nan_stops (x d t : float) :
  isInfOrNaN (Prim2SF d) = true ->
  (d = neg_infinity /\ (d <=? of_Z 0) = true) \/
  ((d = infinity \/ is_nan d = true) /\
   (d <=? of_Z 0) = false /\ (x + d <? t) = false).
Proof.
  intros H. destruct (Prim2SF d) as [s|s| |s m e] eqn:E; try discriminate.
  - destruct s.
    + left. split; [now apply Prim2SF_inj|]. rewrite leb_spec, E. reflexivity.
    + right. split; [left; now apply Prim2SF_inj|]. split.
      * rewrite leb_spec, E. reflexivity.
      * now apply plus_infinity_not_below.
  - right. split; [right; now apply nan_is_nan|]. split.
    + rewrite leb_spec, E. reflexivity.
    + now apply plus_nan_not_below.
Qed.
End Binary64Zero.

(** * The closed form in rational arithmetic *)

Lemma ofNat_S (n : nat) : (ofNat (S n) == ofNat n + 1)%Q.
Proof.
  unfold ofNat. rewrite Nat2Z.inj_succ. unfold Z.succ.
  rewrite inject_Z_plus. reflexivity.
Qed.

Lemma ofNat_le (n k : nat) : (n <= k)%nat -> (ofNat n <= ofNat k)%Q.
Proof. intros L. unfold ofNat. rewrite <- Zle_Qle. lia. Qed.

(** [ceil (D / d)] is the least number of increases [d] that cover a
    positive distance [D]. *)
Lemma ceiling_steps (D d : Q) :
  (0 < d -> 0 < D ->
   let n := Z.to_nat (Qceiling (D / d)) in
   (0 < n)%nat /\ D <= ofNat n * d /\
   (forall k, (k < n)%nat -> ofNat k * d < D))%Q.
Proof.
  intros Hd HD n.
  assert (Hx : (0 < D / d)%Q) by (apply Qlt_shift_div_l; lra).
  assert (Hup := Qle_ceiling (D / d)).
  assert (Hlo := Qceiling_lt (D / d)).
  assert (HDx : (D == (D / d) * d)%Q).
  { rewrite Qmult_comm, Qmult_div_r; [reflexivity | lra]. }
  set (x := (D / d)%Q) in *. set (C := Qceiling x) in *.
  assert (HC : (0 < C)%Z) by (rewrite Zlt_Qlt; change (inject_Z 0) with 0%Q; lra).
  assert (En : ofNat n = inject_Z C).
  { unfold ofNat, n. now rewrite Z2Nat.id by lia. }
  split; [unfold n; lia|]. split.
  - rewrite En. nra.
  - intros k Hk.
    assert (Hk' : (ofNat k <= inject_Z (C - 1))%Q).
    { unfold ofNat. rewrite <- Zle_Qle. unfold n in Hk. lia. }
    nra.
Qed.

(** * The loop where no operation rounds *)

Module JSExactLoop.
Import JS JSLoop Binary64Exact.
Local Open Scope Q_scope.

Section Run.
Variables m c t P ts : float.
Variables qD qt qts : Q.
Hypothesis HD : exactly (temperatureIncrease m c P ts) qD = true.
Hypothesis Ht : exactly t qt = true.
Hypothesis Hts : exactly ts qts = true.

Let D : float := temperatureIncrease m c P ts.
Let temperatureExact (s : state float) : bool :=
  addsExactly (currentTemperature s) D.
Let timeExact (s : state float) : bool := addsExactly (totalTime s) ts.

(** With a positive increase and no rounding, the loop runs for exactly
    the first [n] steps at which the exact temperature is still below the
    target. *)
Lemma run_steps (n : nat) : forall (fuel : nat) (s : state float) (qs qe : Q),
  0 < qD ->
  exactly (currentTemperature s) qs = true ->
  exactly (totalTime s) qe = true ->
  (forall k, (k < n)%nat -> qs + ofNat k * qD < qt) ->
  qt <= qs + ofNat n * qD ->
  (n <= fuel)%nat ->
  forallb temperatureExact (starts m c t P ts fuel s) = true ->
  forallb timeExact (starts m c t P ts fuel s) = true ->
  exists r, loop m c t P ts fuel s = Some r /\
            exactly (totalTime r) (qe + ofNat n * qts) = true /\
            exactly (currentTemperature r) (qs + ofNat n * qD) = true /\
            length (history m c t P ts fuel s) = n.
Proof.
  induction n as [|n IH]; intros fuel s qs qe Hpos Hs He Hbelow Hreach Hfuel HT HE.
  - assert (Hc : PrimFloat.ltb (currentTemperature s) t = false).
    { apply (ltb_exactly _ _ qs qt Hs Ht). change (ofNat 0) with 0 in Hreach. lra. }
    destruct (loop_exit (H := JS.number) m c t P ts fuel s Hc) as [E1 E2].
    exists s. rewrite E1, E2. change (ofNat 0) with 0.
    repeat split; try reflexivity.
    + revert He. apply exactly_comp. lra.
    + revert Hs. apply exactly_comp. lra.
  - destruct fuel as [|fuel]; [lia|].
    assert (Hc : PrimFloat.ltb (currentTemperature s) t = true).
    { apply (ltb_exactly _ _ qs qt Hs Ht). specialize (Hbelow O ltac:(lia)).
      change (ofNat 0) with 0 in Hbelow. lra. }
    assert (Hg : PrimFloat.leb D (of_Z 0) = false).
    { apply (leb_exactly _ _ qD 0 HD exactly_zero). exact Hpos. }
    destruct (loop_enter (H := JS.number) m c t P ts fuel s Hc) as [E1 E2].
    rewrite (starts_enter (H := JS.number) m c t P ts fuel s Hc) in HT, HE.
    js_ops. fold D in E1, E2, HT, HE. rewrite Hg in E1, E2, HT, HE.
    rewrite E1, E2. clear E1 E2.
    cbn [forallb] in HT, HE.
    apply andb_true_iff in HT, HE. destruct HT as [HT0 HT], HE as [HE0 HE].
    set (s' := advance m c P ts s) in *.
    assert (Hs' : exactly (currentTemperature s') (qs + qD) = true).
    { apply add_exactly; assumption. }
    assert (He' : exactly (totalTime s') (qe + qts) = true).
    { apply add_exactly; assumption. }
    destruct (IH fuel s' (qs + qD) (qe + qts) Hpos Hs' He')
      as (r & Hr & Hrt & Hrc & Hlen).
    + intros k Hk. specialize (Hbelow (S k) ltac:(lia)).
      rewrite ofNat_S in Hbelow. lra.
    + rewrite ofNat_S in Hreach. lra.
    + lia.
    + exact HT.
    + exact HE.
    + exists r. split; [exact Hr|].
      split; [revert Hrt; apply exactly_comp; rewrite ofNat_S; lra|].
      split; [revert Hrc; apply exactly_comp; rewrite ofNat_S; lra|].
      simpl. now rewrite Hlen.
Qed.
End Run.

Section Shift.
Variables m c t t' P ts : float.
Variables qt qd : Q.
Hypothesis Ht : exactly t qt = true.
Hypothesis Ht' : exactly t' (qt + qd) = true.

Let D : float := temperatureIncrease m c P ts.
Let temperatureExact (s : state float) : bool :=
  addsExactly (currentTemperature s) D.

(** Two loops whose temperatures and targets differ by the same offset,
    and whose additions do not round, take the same steps. *)
Lemma loop_shift (fuel : nat) : forall (s s' : state float) (q : Q),
  exactly (currentTemperature s) q = true ->
  exactly (currentTemperature s') (q + qd) = true ->
  totalTime s' = totalTime s ->
  forallb temperatureExact (starts m c t P ts fuel s) = true ->
  forallb temperatureExact (starts m c t' P ts fuel s') = true ->
  option_map totalTime (loop m c t' P ts fuel s') =
  option_map totalTime (loop m c t P ts fuel s).
Proof.
  induction fuel as [|fuel IH]; intros s s' q Hs Hs' Etot HT HT';
    destruct (PrimFloat.ltb (currentTemperature s) t) eqn:Hc.
  - assert (Hc' : PrimFloat.ltb (currentTemperature s') t' = true).
    { apply (ltb_exactly _ _ _ _ Hs Ht) in Hc.
      apply (ltb_exactly _ _ _ _ Hs' Ht'). lra. }
    destruct (loop_no_fuel (H := JS.number) m c t P ts s Hc) as [-> _].
    destruct (loop_no_fuel (H := JS.number) m c t' P ts s' Hc') as [-> _].
    reflexivity.
  - assert (Hc' : PrimFloat.ltb (currentTemperature s') t' = false).
    { apply (ltb_exactly _ _ _ _ Hs Ht) in Hc.
      apply (ltb_exactly _ _ _ _ Hs' Ht'). lra. }
    destruct (loop_exit (H := JS.number) m c t P ts O s Hc) as [-> _].
    destruct (loop_exit (H := JS.number) m c t' P ts O s' Hc') as [-> _].
    simpl. now f_equal.
  - assert (Hc' : PrimFloat.ltb (currentTemperature s') t' = true).
    { apply (ltb_exactly _ _ _ _ Hs Ht) in Hc.
      apply (ltb_exactly _ _ _ _ Hs' Ht'). lra. }
    destruct (loop_enter (H := JS.number) m c t P ts fuel s Hc) as [-> _].
    destruct (loop_enter (H := JS.number) m c t' P ts fuel s' Hc') as [-> _].
    rewrite (starts_enter (H := JS.number) m c t P ts fuel s Hc) in HT.
    rewrite (starts_enter (H := JS.number) m c t' P ts fuel s' Hc') in HT'.
    destruct (@leb float JS.number (temperatureIncrease m c P ts)
                   (@lit float JS.number 0%Z)).
    + simpl. js_ops. now rewrite Etot.
    + cbn [forallb] in HT, HT'. apply andb_true_iff in HT, HT'.
      destruct HT as [HT0 HT], HT' as [HT0' HT'].
      destruct (addsExactly_finite _ _ HT0) as (a & b & _ & Hb).
      apply (IH _ _ (q + b)).
      * apply add_exactly; assumption.
      * apply (exactly_comp _ (q + qd + b)); [lra|].
        apply add_exactly; assumption.
      * simpl. js_ops. now rewrite Etot.
      * exact HT.
      * exact HT'.
  - assert (Hc' : PrimFloat.ltb (currentTemperature s') t' = false).
    { apply (ltb_exactly _ _ _ _ Hs Ht) in Hc.
      apply (ltb_exactly _ _ _ _ Hs' Ht'). lra. }
    destruct (loop_exit (H := JS.number) m c t P ts (S fuel) s Hc) as [-> _].
    destruct (loop_exit (H := JS.number) m c t' P ts (S fuel) s' Hc') as [-> _].
    simpl. now f_equal.
Qed.
End Shift.

Section Time.
Variables m c t P ts : float.
Variable qts : Q.
Hypothesis Hts : exactly ts qts = true.

Let timeExact (s : state float) : bool := addsExactly (totalTime s) ts.

(** Without rounding, the elapsed time after [k + 1] iterations is
    [k + 1] time steps more than at the start. *)
Lemma history_time (fuel : nat) (s : state float) (qe : Q) :
  exactly (totalTime s) qe = true ->
  forallb timeExact (starts m c t P ts fuel s) = true ->
  forall (k : nat) (b : state float),
    nth_error (history m c t P ts fuel s) k = Some b ->
    exactly (totalTime b) (qe + ofNat (S k) * qts) = true.
Proof.
  intros He HE. rewrite forallb_forall in HE.
  induction k as [|k IH]; intros b Hb.
  - destruct (history_nth (H := JS.number) m c t P ts fuel s O s b eq_refl Hb)
      as (-> & _).
    apply (exactly_comp _ (qe + qts)); [rewrite ofNat_S; change (ofNat 0) with 0; lra|].
    apply add_exactly; [exact He | exact Hts|].
    apply HE. apply (nth_error_In _ O).
    rewrite (starts_nth (H := JS.number)); [reflexivity|].
    apply nth_error_Some. congruence.
  - assert (Hlt : (S k < length (history m c t P ts fuel s))%nat)
      by (apply nth_error_Some; congruence).
    destruct (nth_error (history m c t P ts fuel s) k) as [a|] eqn:Ha.
    2:{ apply nth_error_None in Ha. lia. }
    destruct (history_nth (H := JS.number) m c t P ts fuel s (S k) a b Ha Hb)
      as (-> & _).
    apply (exactly_comp _ (qe + ofNat (S k) * qts + qts));
      [rewrite (ofNat_S (S k)); lra|].
    apply add_exactly; [now apply IH | exact Hts|].
    apply HE. apply (nth_error_In _ (S k)).
    rewrite (starts_nth (H := JS.number)); [exact Ha | exact Hlt].
Qed.
End Time.
End JSExactLoop.

(** * The function on JavaScript numbers *)

Section JSCall.
Import JS Binary64 JSLoop.
Local Open Scope float_scope.

Variables m c i t nc cp ts : float.

(** A call whose temperature increase is a zero, an infinity or NaN, and
    whose target is above the initial temperature, completes exactly one
    iteration and returns [0 + timeStep]. *)
Lemma simulate_one_iteration (fuel : nat) :
  (i <? t) = true ->
  isZeroOrNaN (Prim2SF (temperatureIncrease m c (totalPowerOutput nc cp) ts)) = true \/
  isInfOrNaN (Prim2SF (temperatureIncrease m c (totalPowerOutput nc cp) ts)) = true ->
  simulateHeatTransfer m c i t nc cp ts (S fuel) = Some (of_Z 0 + ts) /\
  length (iterations m c i t nc cp ts (S fuel)) = 1%nat.
Proof.
  intros Hc HD.
  destruct (one_iteration m c t (totalPowerOutput nc cp) ts (initialState i) fuel Hc HD)
    as [E1 E2].
  unfold simulateHeatTransfer, finalState, iterations. rewrite E1, E2.
  split; reflexivity.
Qed.

(** Without collectors, or without collector power, the temperature
    increase is a zero or NaN. *)
Lemma no_power_no_increase :
  (nc =? of_Z 0) = true \/ (cp =? of_Z 0) = true ->
  isZeroOrNaN (Prim2SF (temperatureIncrease m c (totalPowerOutput nc cp) ts)) = true.
Proof.
  intros H0.
  unfold temperatureIncrease, energyTransferred, totalPowerOutput. js_ops.
  rewrite div_spec. apply SFdiv_zero_l.
  rewrite mul_spec. apply SFmul_zero_l.
  rewrite mul_spec. apply SFmul_zero_l.
  rewrite mul_spec.
  destruct H0 as [H0 | H0]; apply eqb_zero in H0.
  - now apply SFmul_zero_l.
  - now apply SFmul_zero_r.
Qed.

(** Without mass, or without specific heat, the temperature increase is an
    infinity or NaN. *)
Lemma no_mass_no_finite_increase :
  (m =? of_Z 0) = true \/ (c =? of_Z 0) = true ->
  isInfOrNaN (Prim2SF (temperatureIncrease m c (totalPowerOutput nc cp) ts)) = true.
Proof.
  intros H0.
  unfold temperatureIncrease. js_ops.
  rewrite div_spec. apply SFdiv_zero_r.
  rewrite mul_spec.
  destruct H0 as [H0 | H0]; apply eqb_zero in H0.
  - now apply SFmul_zero_l.
  - now apply SFmul_zero_r.
Qed.

(** The result depends on the two collector arguments through their
    product. *)
Lemma simulate_by_product (nc' cp' : float) (fuel : nat) :
  nc' * cp' = nc * cp ->
  simulateHeatTransfer m c i t nc' cp' ts fuel =
  simulateHeatTransfer m c i t nc cp ts fuel.
Proof.
  intros E. unfold simulateHeatTransfer, finalState, totalPowerOutput. js_ops.
  now rewrite E.
Qed.
End JSCall.

Section JSExactCall.
Import JS JSLoop Binary64Exact JSExactLoop.
Local Open Scope Q_scope.

Variables m c i t nc cp ts : float.
Variables qm qc qi qt qnc qcp qts : Q.
Hypothesis Hm : exactly m qm = true.
Hypothesis Hc : exactly c qc = true.
Hypothesis Hi : exactly i qi = true.
Hypothesis Ht : exactly t qt = true.
Hypothesis Hnc : exactly nc qnc = true.
Hypothesis Hcp : exactly cp qcp = true.
Hypothesis Hts : exactly ts qts = true.

(** When its operations do not round, the temperature increase is the
    specification's [deltaT]. *)
Lemma increase_exactly :
  increaseExact m c nc cp ts = true ->
  exactly (temperatureIncrease m c (totalPowerOutput nc cp) ts)
          (Spec.deltaT qm qc qnc qcp qts) = true.
Proof.
  unfold increaseExact. intros H.
  repeat (apply andb_true_iff in H; destruct H as [H ?]).
  unfold temperatureIncrease, energyTransferred, totalPowerOutput in *. js_ops.
  unfold Spec.deltaT.
  apply div_exactly; [|now apply mul_exactly|assumption].
  apply mul_exactly; [|assumption|assumption].
  apply mul_exactly; [|exact exactly_thousand|assumption].
  now apply mul_exactly.
Qed.

Lemma deltaT_positive :
  0 < qm -> 0 < qc -> 0 < qts -> 0 < qnc * qcp * 1000 ->
  0 < Spec.deltaT qm qc qnc qcp qts.
Proof.
  intros Pm Pc Pts PP. unfold Spec.deltaT.
  apply Qlt_shift_div_l; nra.
Qed.

(** A call with a positive increase [qD], a target above the initial
    temperature and no rounding in its additions returns after
    [ceil ((t - i) / qD)] iterations. *)
Lemma simulate_steps (qD : Q) (fuel : nat) :
  exactly (temperatureIncrease m c (totalPowerOutput nc cp) ts) qD = true ->
  0 < qD -> qi < qt ->
  temperatureAdditionsExact m c i t nc cp ts fuel = true ->
  timeAdditionsExact m c i t nc cp ts fuel = true ->
  let n := Z.to_nat (Qceiling ((qt - qi) / qD)) in
  (n <= fuel)%nat ->
  exists r, simulateHeatTransfer m c i t nc cp ts fuel = Some r /\
            exactly r (ofNat n * qts) = true /\
            length (iterations m c i t nc cp ts fuel) = n.
Proof.
  intros HD Hpos Hit HT HE n Hfuel.
  assert (Hgap : 0 < qt - qi) by lra.
  pose proof (ceiling_steps (qt - qi) qD Hpos Hgap) as Hn. cbv zeta in Hn.
  fold n in Hn. destruct Hn as (_ & Hreach & Hbelow). clearbody n.
  destruct (run_steps m c t (totalPowerOutput nc cp) ts qD qt qts HD Ht Hts
                      n fuel (initialState i) qi 0)
    as (r & Hr & Hrt & _ & Hlen); try assumption.
  - reflexivity.
  - intros k Hk. specialize (Hbelow k Hk). lra.
  - lra.
  - exists (totalTime r). unfold simulateHeatTransfer, finalState, iterations.
    rewrite Hr. split; [reflexivity|]. split; [|exact Hlen].
    revert Hrt. apply exactly_comp. lra.
Qed.
End JSExactCall.

Section ClosedFormMonotone.
Local Open Scope Q_scope.

Variables m c ts : Q.
Hypothesis Hm : 0 < m.
Hypothesis Hc : 0 < c.
Hypothesis Hts : 0 < ts.

(** [deltaT] grows with both collector arguments. *)
Lemma deltaT_monotone (nc1 cp1 nc2 cp2 : Q) :
  0 < nc1 -> 0 < cp1 -> nc1 <= nc2 -> cp1 <= cp2 ->
  0 < Spec.deltaT m c nc1 cp1 ts /\
  Spec.deltaT m c nc1 cp1 ts <= Spec.deltaT m c nc2 cp2 ts.
Proof.
  intros Hn1 Hp1 Hn Hp.
  assert (HP : 0 < nc1 * cp1 * 1000) by nra.
  split; [apply deltaT_positive; assumption|].
  unfold Spec.deltaT, Qdiv.
  assert (Hinv : 0 < / (m * c)) by (apply Qinv_lt_0_compat; nra).
  apply Qmult_le_compat_r; [|lra].
  apply Qmult_le_compat_r; [|lra].
  apply Qmult_le_compat_r; [|lra].
  nra.
Qed.

(** A larger increase needs no more steps. *)
Lemma stepsNeeded_antitone (i t nc1 cp1 nc2 cp2 : Q) :
  i < t -> 0 < nc1 -> 0 < cp1 -> nc1 <= nc2 -> cp1 <= cp2 ->
  (Spec.stepsNeeded m c i t nc2 cp2 ts <= Spec.stepsNeeded m c i t nc1 cp1 ts)%Z.
Proof.
  intros Hit Hn1 Hp1 Hn Hp.
  destruct (deltaT_monotone nc1 cp1 nc2 cp2 Hn1 Hp1 Hn Hp) as [Hd1 Hd12].
  unfold Spec.stepsNeeded. apply Qceiling_resp_le.
  set (d1 := Spec.deltaT m c nc1 cp1 ts) in *.
  set (d2 := Spec.deltaT m c nc2 cp2 ts) in *.
  clearbody d1 d2.
  assert (Hx : 0 < (t - i) / d1) by (apply Qlt_shift_div_l; lra).
  assert (Ex : t - i == (t - i) / d1 * d1).
  { rewrite Qmult_comm, Qmult_div_r; [reflexivity | lra]. }
  apply Qle_shift_div_r; [lra|].
  set (x := (t - i) / d1) in *. clearbody x. nra.
Qed.
End ClosedFormMonotone.

(** * The properties of the specification

    Every property is stated on JavaScript numbers.  Where the
    specification reasons with exact arithmetic, the property is proved
    with every rounding where it survives rounding (C4, C6), and otherwise
    for the calls whose operations do not round (C1, C7, C9), with the
    rounding that breaks it shown on an input. *)

Import JS.

(** ** C1: the closed-form step count *)

(** C1, as stated, fails on JavaScript numbers.  With mass 10000, specific
    heat 1, temperatures 0 and 1, one collector of 1 kW and a time step of 1
    the specification gives [ceil (1 / (1000 / 10000)) = 10] steps, so 10
    seconds; ten additions of the binary64 [0.1] stay below 1, and the call
    completes 11 iterations and returns 11. *)
Lemma step_count_rounding :
  PrimFloat.ltb (of_Z 0) (of_Z 10000) = true /\
  PrimFloat.ltb (of_Z 0) (of_Z 1) = true /\
  PrimFloat.ltb (of_Z 0) (totalPowerOutput (of_Z 1) (of_Z 1)) = true /\
  Spec.stepsNeeded 10000 1 0 1 1 1 1 = 10%Z /\
  simulateHeatTransfer (of_Z 10000) (of_Z 1) (of_Z 0) (of_Z 1)
                       (of_Z 1) (of_Z 1) (of_Z 1) 11 = Some (of_Z 11) /\
  length (iterations (of_Z 10000) (of_Z 1) (of_Z 0) (of_Z 1)
                     (of_Z 1) (of_Z 1) (of_Z 1) 11) = 11%nat /\
  exists q, toQ (of_Z 11) = Some q /\
            ~ (q == inject_Z (Spec.stepsNeeded 10000 1 0 1 1 1 1) * 1)%Q.
Proof.
  do 6 (split; [vm_compute; reflexivity|]).
  eexists. split; [vm_compute; reflexivity|].
  vm_compute. discriminate.
Qed.

(** On JavaScript numbers a call with positive inputs and a target above
    the initial temperature need not return at all: at [2^53] an increase
    of [0.5] is rounded away, and the temperature never moves. *)
Lemma absorbed_increase_diverges :
  diverges (of_Z 2000) (of_Z 1) (of_Z 9007199254740992) (of_Z 9007199254740994)
           (of_Z 1) (of_Z 1) (of_Z 1).
Proof.
  intros fuel. unfold simulateHeatTransfer, finalState.
  enough (Hloop : forall elapsed : float,
             loop (of_Z 2000) (of_Z 1) (of_Z 9007199254740994)
                  (totalPowerOutput (of_Z 1) (of_Z 1)) (of_Z 1) fuel
                  {| currentTemperature := of_Z 9007199254740992;
                     totalTime := elapsed |} = None)
    by (unfold initialState; now rewrite Hloop).
  induction fuel as [|fuel IH]; intros elapsed.
  - reflexivity.
  - destruct (loop_enter (H := JS.number) (of_Z 2000) (of_Z 1) (of_Z 9007199254740994)
                (totalPowerOutput (of_Z 1) (of_Z 1)) (of_Z 1) fuel
                {| currentTemperature := of_Z 9007199254740992;
                   totalTime := elapsed |} eq_refl) as [-> _].
    apply IH.
Qed.

Section StepCount.
Import Binary64Exact JSExactLoop.
Local Open Scope Q_scope.

(** Where no operation rounds.  On JavaScript numbers, for finite
    arguments with positive mass, specific heat, time step and total power
    and a target above the initial temperature: if none of the operations
    that compute the temperature increase rounds, and none of the additions
    the call performs rounds, then the call returns after [n] iterations a
    number that stands for [n * timeStep], where
    [n = ceil ((targetTemperature - initialTemperature) / deltaT)] is
    positive and is the least count of increases that reaches the target.
    [n] units of fuel are enough. *)
Lemma steps_without_rounding
    (m c i t nc cp ts : float) (qm qc qi qt qnc qcp qts : Q) (fuel : nat) :
  exactly m qm = true -> exactly c qc = true ->
  exactly i qi = true -> exactly t qt = true ->
  exactly nc qnc = true -> exactly cp qcp = true -> exactly ts qts = true ->
  0 < qm -> 0 < qc -> 0 < qts -> 0 < qnc * qcp * 1000 -> qi < qt ->
  increaseExact m c nc cp ts = true ->
  temperatureAdditionsExact m c i t nc cp ts fuel = true ->
  timeAdditionsExact m c i t nc cp ts fuel = true ->
  let dT := Spec.deltaT qm qc qnc qcp qts in
  let n := Spec.stepsNeeded qm qc qi qt qnc qcp qts in
  (Z.to_nat n <= fuel)%nat ->
  (0 < n)%Z /\
  (exists r, simulateHeatTransfer m c i t nc cp ts fuel = Some r /\
             exactly r (inject_Z n * qts) = true) /\
  length (iterations m c i t nc cp ts fuel) = Z.to_nat n /\
  qt - qi <= inject_Z n * dT /\
  (forall k : Z, (0 <= k < n)%Z -> inject_Z k * dT < qt - qi).
Proof.
  intros Hm Hc Hi Ht Hnc Hcp Hts Pm Pc Pts PP Hit HI HT HE dT n Hfuel.
  assert (Hd : 0 < dT) by (apply deltaT_positive; assumption).
  assert (Hgap : 0 < qt - qi) by lra.
  destruct (ceiling_steps (qt - qi) dT Hd Hgap) as (Hn & Hreach & Hbelow).
  change (Qceiling ((qt - qi) / dT)) with n in Hn, Hreach, Hbelow.
  assert (Hn' : (0 < n)%Z) by lia.
  assert (En : ofNat (Z.to_nat n) = inject_Z n).
  { unfold ofNat. now rewrite Z2Nat.id by lia. }
  split; [exact Hn'|]. split; [|split; [|split]].
  - destruct (simulate_steps m c i t nc cp ts qi qt qts Hi Ht Hts dT fuel)
      as (r & Hr & Hrt & _); try assumption.
    + now apply increase_exactly.
    + exists r. split; [exact Hr|]. now rewrite <- En.
  - destruct (simulate_steps m c i t nc cp ts qi qt qts Hi Ht Hts dT fuel)
      as (r & _ & _ & Hlen); try assumption.
    now apply increase_exactly.
  - now rewrite <- En.
  - intros k Hk. specialize (Hbelow (Z.to_nat k) ltac:(lia)).
    unfold ofNat in Hbelow. now rewrite Z2Nat.id in Hbelow by lia.
Qed.

End StepCount.

Section StepCountRounded.
Import Binary64Exact JSLoop.

(** C1, as the code computes it.  On JavaScript numbers, for every input
    with [initialTemperature < targetTemperature] and a computed
    temperature increase [dT > 0], and every fuel:

    - a call that returns has completed [k] iterations, where [k >= 1] is
      the least count for which [initialTemperature] with [dT] added [k]
      times (each addition rounded) is not below the target, and it
      returns [0] with [timeStep] added [k] times;
    - the call returns as soon as the fuel covers that least count;
    - where no operation rounds (finite arguments standing for rationals
      with positive mass, specific heat, time step and total power), the
      call returns after
      [n = ceil ((targetTemperature - initialTemperature) / deltaT)]
      iterations a number that stands for [n * timeStep], and [n] is
      positive and the least count of increases that reaches the target. *)
Theorem step_count (m c i t nc cp ts : float) (fuel : nat) :
  PrimFloat.ltb i t = true ->
  PrimFloat.ltb (of_Z 0)
    (temperatureIncrease m c (totalPowerOutput nc cp) ts) = true ->
  (forall r : float,
     simulateHeatTransfer m c i t nc cp ts fuel = Some r ->
     exists k : nat,
       length (iterations m c i t nc cp ts fuel) = k /\
       (0 < k <= fuel)%nat /\
       (forall j : nat, (j < k)%nat ->
          PrimFloat.ltb
            (accumulated i (temperatureIncrease m c (totalPowerOutput nc cp) ts) j)
            t = true) /\
       PrimFloat.ltb
         (accumulated i (temperatureIncrease m c (totalPowerOutput nc cp) ts) k)
         t = false /\
       r = accumulated (of_Z 0) ts k) /\
  (forall k : nat,
     (k <= fuel)%nat ->
     (forall j : nat, (j < k)%nat ->
        PrimFloat.ltb
          (accumulated i (temperatureIncrease m c (totalPowerOutput nc cp) ts) j)
          t = true) ->
     PrimFloat.ltb
       (accumulated i (temperatureIncrease m c (totalPowerOutput nc cp) ts) k)
       t = false ->
     simulateHeatTransfer m c i t nc cp ts fuel = Some (accumulated (of_Z 0) ts k)) /\
  (forall qm qc qi qt qnc qcp qts : Q,
     exactly m qm = true -> exactly c qc = true ->
     exactly i qi = true -> exactly t qt = true ->
     exactly nc qnc = true -> exactly cp qcp = true -> exactly ts qts = true ->
     (0 < qm)%Q -> (0 < qc)%Q -> (0 < qts)%Q -> (0 < qnc * qcp * 1000)%Q ->
     (qi < qt)%Q ->
     increaseExact m c nc cp ts = true ->
     temperatureAdditionsExact m c i t nc cp ts fuel = true ->
     timeAdditionsExact m c i t nc cp ts fuel = true ->
     (Z.to_nat (Spec.stepsNeeded qm qc qi qt qnc qcp qts) <= fuel)%nat ->
     (0 < Spec.stepsNeeded qm qc qi qt qnc qcp qts)%Z /\
     (exists r : float,
        simulateHeatTransfer m c i t nc cp ts fuel = Some r /\
        exactly r (inject_Z (Spec.stepsNeeded qm qc qi qt qnc qcp qts) * qts)
          = true) /\
     length (iterations m c i t nc cp ts fuel)
       = Z.to_nat (Spec.stepsNeeded qm qc qi qt qnc qcp qts) /\
     (qt - qi <= inject_Z (Spec.stepsNeeded qm qc qi qt qnc qcp qts)
                 * Spec.deltaT qm qc qnc qcp qts)%Q /\
     (forall k : Z,
        (0 <= k < Spec.stepsNeeded qm qc qi qt qnc qcp qts)%Z ->
        (inject_Z k * Spec.deltaT qm qc qnc qcp qts < qt - qi)%Q)).
Proof.
  intros Hit Hpos.
  assert (Hg : PrimFloat.leb (temperatureIncrease m c (totalPowerOutput nc cp) ts)
                             (of_Z 0) = false).
  { destruct (PrimFloat.leb _ (of_Z 0)) eqn:E; [|reflexivity].
    apply Binary64.leb_not_ltb in E. congruence. }
  split; [|split].
  - intros r Hr. unfold simulateHeatTransfer, finalState in Hr.
    destruct (loop m c t (totalPowerOutput nc cp) ts fuel (initialState i))
      as [sf|] eqn:Hloop; [|discriminate].
    cbn [option_map] in Hr. injection Hr as <-.
    destruct (history_count (H := JS.number) m c t (totalPowerOutput nc cp) ts
                            fuel (initialState i) sf Hg Hloop) as (Hlen & Hlt & Hx).
    apply (loop_sums (H := JS.number)) in Hloop.
    exists (length (iterations m c i t nc cp ts fuel)).
    split; [reflexivity|]. split; [|split; [exact Hlt | split; [exact Hx|]]].
    + split; [|exact Hlen].
      destruct (length (iterations m c i t nc cp ts fuel)) eqn:E; [|lia].
      unfold iterations in E. rewrite E in Hx. cbn in Hx. js_ops. congruence.
    + rewrite Hloop. reflexivity.
  - intros k Hk Hlt Hx. unfold simulateHeatTransfer, finalState.
    rewrite (proj2 (loop_least (H := JS.number) m c t (totalPowerOutput nc cp) ts
                               fuel (initialState i)
                               (stateAfter m c (totalPowerOutput nc cp) ts
                                           (initialState i) k) Hg)).
    + reflexivity.
    + exists k. repeat split; assumption.
  - intros qm qc qi qt qnc qcp qts.
    exact (steps_without_rounding m c i t nc cp ts qm qc qi qt qnc qcp qts fuel).
Qed.

(** Mass 10000, specific heat 4800, from 20 to 60 degrees, 25 collectors
    of 4 kW, time step 60: every step adds 0.125 degrees, and the call
    returns [320 * 60 = 19200] after 320 iterations. *)
Lemma step_count_witness :
  (exists k : nat,
     length (iterations (of_Z 10000) (of_Z 4800) (of_Z 20) (of_Z 60)
                        (of_Z 25) (of_Z 4) (of_Z 60) 320) = k /\
     (0 < k <= 320)%nat /\
     (forall j : nat, (j < k)%nat ->
        PrimFloat.ltb
          (accumulated (of_Z 20)
             (temperatureIncrease (of_Z 10000) (of_Z 4800)
                (totalPowerOutput (of_Z 25) (of_Z 4)) (of_Z 60)) j)
          (of_Z 60) = true) /\
     PrimFloat.ltb
       (accumulated (of_Z 20)
          (temperatureIncrease (of_Z 10000) (of_Z 4800)
             (totalPowerOutput (of_Z 25) (of_Z 4)) (of_Z 60)) k)
       (of_Z 60) = false /\
     of_Z 19200 = accumulated (of_Z 0) (of_Z 60) k) /\
  ((0 < 320)%Z /\
   (exists r : float,
      simulateHeatTransfer (of_Z 10000) (of_Z 4800) (of_Z 20) (of_Z 60)
                           (of_Z 25) (of_Z 4) (of_Z 60) 320 = Some r /\
      exactly r (inject_Z 320 * 60) = true) /\
   length (iterations (of_Z 10000) (of_Z 4800) (of_Z 20) (of_Z 60)
                      (of_Z 25) (of_Z 4) (of_Z 60) 320) = Z.to_nat 320 /\
   (60 - 20 <= inject_Z 320 * Spec.deltaT 10000 4800 25 4 60)%Q /\
   (forall k : Z, (0 <= k < 320)%Z ->
      (inject_Z k * Spec.deltaT 10000 4800 25 4 60 < 60 - 20)%Q)).
Proof.
  destruct (step_count (of_Z 10000) (of_Z 4800) (of_Z 20) (of_Z 60)
                       (of_Z 25) (of_Z 4) (of_Z 60) 320 eq_refl eq_refl)
    as (HA & _ & HB).
  split.
  - apply HA. vm_compute. reflexivity.
  - apply (HB 10000 4800 20 60 25 4 60); vm_compute; reflexivity.
Defined.
End StepCountRounded.

(** ** C2: a target not above the initial temperature *)

(** C2.  On JavaScript numbers: whenever [targetTemperature <=
    initialTemperature], the loop completes no iteration and the function
    returns exactly 0, for every fuel (the loop condition is false on
    entry). *)
Theorem no_heating_needed (m c i t nc cp ts : float) (fuel : nat) :
  PrimFloat.leb t i = true ->
  simulateHeatTransfer m c i t nc cp ts fuel = Some 0%float /\
  iterations m c i t nc cp ts fuel = [].
Proof.
  intros Hle.
  destruct (loop_exit (H := JS.number) m c t (totalPowerOutput nc cp) ts fuel
                      (initialState i) (Binary64.leb_not_ltb i t Hle)) as [E1 E2].
  unfold simulateHeatTransfer, finalState, iterations. rewrite E1, E2.
  split; reflexivity.
Qed.

(** The reference scenario with its two temperatures exchanged. *)
Lemma no_heating_needed_witness :
  simulateHeatTransfer (of_Z 10000) (of_Z 4186) (of_Z 60) (of_Z 20)
                       (of_Z 25) (of_Z 4) (of_Z 60) 0 = Some 0%float /\
  iterations (of_Z 10000) (of_Z 4186) (of_Z 60) (of_Z 20)
             (of_Z 25) (of_Z 4) (of_Z 60) 0 = [].
Proof.
  apply (no_heating_needed (of_Z 10000) (of_Z 4186) (of_Z 60) (of_Z 20)
                           (of_Z 25) (of_Z 4) (of_Z 60) 0).
  reflexivity.
Defined.

(** ** C3: no collector power *)

(** C3, as stated, fails where it says that the guard fires.  Without mass
    and without collectors the temperature increase is [0 / 0], NaN: the
    guard [temperatureIncrease <= 0] is false, and the call still completes
    one iteration and returns [timeStep], because [NaN < targetTemperature]
    is false. *)
Lemma no_power_guard_silent :
  PrimFloat.eqb (of_Z 0) (of_Z 0) = true /\
  PrimFloat.ltb (of_Z 20) (of_Z 60) = true /\
  PrimFloat.leb (temperatureIncrease (of_Z 0) (of_Z 4186)
                   (totalPowerOutput (of_Z 0) (of_Z 4)) (of_Z 60)) (of_Z 0) = false /\
  simulateHeatTransfer (of_Z 0) (of_Z 4186) (of_Z 20) (of_Z 60)
                       (of_Z 0) (of_Z 4) (of_Z 60) 1 = Some (of_Z 60) /\
  length (iterations (of_Z 0) (of_Z 4186) (of_Z 20) (of_Z 60)
                     (of_Z 0) (of_Z 4) (of_Z 60) 1) = 1%nat.
Proof. repeat split; vm_compute; reflexivity. Qed.

(** C3, as the code behaves.  On JavaScript numbers: when
    [numCollectors == 0] or [collectorPower == 0] and the target is above
    the initial temperature, the call completes exactly one iteration and
    returns [0 + timeStep], which is [timeStep] itself unless [timeStep] is
    [-0] (then it is [+0]).  The temperature increase is a zero, and then
    the guard fires, or it is NaN, and then the guard does not fire and the
    loop test fails on the new temperature.  One unit of fuel is enough. *)
Theorem no_power_one_step (m c i t nc cp ts : float) (fuel : nat) :
  PrimFloat.eqb nc (of_Z 0) = true \/ PrimFloat.eqb cp (of_Z 0) = true ->
  PrimFloat.ltb i t = true ->
  let dT := temperatureIncrease m c (totalPowerOutput nc cp) ts in
  simulateHeatTransfer m c i t nc cp ts (S fuel) = Some (PrimFloat.add (of_Z 0) ts) /\
  length (iterations m c i t nc cp ts (S fuel)) = 1%nat /\
  (PrimFloat.add (of_Z 0) ts = ts \/
   (ts = neg_zero /\ PrimFloat.add (of_Z 0) ts = of_Z 0)) /\
  ((PrimFloat.eqb dT (of_Z 0) = true /\ PrimFloat.leb dT (of_Z 0) = true) \/
   (is_nan dT = true /\ PrimFloat.leb dT (of_Z 0) = false /\
    PrimFloat.ltb (PrimFloat.add i dT) t = false)).
Proof.
  intros H0 Hlt dT.
  pose proof (no_power_no_increase m c nc cp ts H0) as HD.
  destruct (simulate_one_iteration m c i t nc cp ts fuel Hlt (or_introl HD))
    as [E1 E2].
  split; [exact E1|]. split; [exact E2|].
  split; [apply Binary64Zero.zero_plus_eq|].
  now apply Binary64Zero.zero_or_nan_stops.
Qed.

(** The reference scenario without collectors. *)
Lemma no_power_one_step_witness :
  simulateHeatTransfer (of_Z 10000) (of_Z 4186) (of_Z 20) (of_Z 60)
                       (of_Z 0) (of_Z 4) (of_Z 60) 1
    = Some (PrimFloat.add (of_Z 0) (of_Z 60)) /\
  length (iterations (of_Z 10000) (of_Z 4186) (of_Z 20) (of_Z 60)
                     (of_Z 0) (of_Z 4) (of_Z 60) 1) = 1%nat.
Proof.
  destruct (no_power_one_step (of_Z 10000) (of_Z 4186) (of_Z 20) (of_Z 60)
                              (of_Z 0) (of_Z 4) (of_Z 60) 0
                              (or_introl eq_refl) eq_refl) as (E1 & E2 & _).
  split; [exact E1 | exact E2].
Defined.

(** ** C4: more collector power *)

(** C4, as stated, fails.  With no collector the guard stops the call after
    one step, so it returns [timeStep = 1]; with one collector (mass 1000,
    specific heat 1, temperatures 0 and 2, 1 kW, time step 1) each step adds
    one degree and the call returns 2. *)
Lemma more_power_slower :
  PrimFloat.leb (of_Z 0) (of_Z 1) = true /\
  simulateHeatTransfer (of_Z 1000) (of_Z 1) (of_Z 0) (of_Z 2)
                       (of_Z 0) (of_Z 1) (of_Z 1) 2 = Some (of_Z 1) /\
  simulateHeatTransfer (of_Z 1000) (of_Z 1) (of_Z 0) (of_Z 2)
                       (of_Z 1) (of_Z 1) (of_Z 1) 2 = Some (of_Z 2) /\
  PrimFloat.leb (of_Z 2) (of_Z 1) = false.
Proof. repeat split; vm_compute; reflexivity. Qed.

(** On JavaScript numbers positive power is not enough either: a positive
    collector power small enough for the temperature increase to underflow
    to 0 stops the call after one step (mass [10^10], specific heat 1,
    temperatures 0 and 2, one collector, time step 1), while [10^7] kW
    takes two steps. *)
Lemma more_power_slower_underflow :
  PrimFloat.ltb (of_Z 0) leastPositive = true /\
  PrimFloat.leb leastPositive (of_Z 10000000) = true /\
  simulateHeatTransfer (of_Z 10000000000) (of_Z 1) (of_Z 0) (of_Z 2)
                       (of_Z 1) leastPositive (of_Z 1) 2 = Some (of_Z 1) /\
  simulateHeatTransfer (of_Z 10000000000) (of_Z 1) (of_Z 0) (of_Z 2)
                       (of_Z 1) (of_Z 10000000) (of_Z 1) 2 = Some (of_Z 2).
Proof. repeat split; vm_compute; reflexivity. Qed.

Section MorePowerRounded.
Import JSPower JSCompare Binary64AddMonotone Binary64Monotone.

(** C4, on JavaScript numbers, roundings included.  For [mass > 0],
    [specificHeat > 0], [timeStep >= 0], and two choices of the collectors
    with [0 <= numCollectors1 <= numCollectors2] and
    [collectorPower1 <= collectorPower2]: if the temperature increase the
    call with the smaller collectors computes is positive, then whenever
    that call returns, the call with the larger collectors returns too
    (within the same number of iterations), and its elapsed time is less
    than or equal to the first one's. *)
Theorem more_power_not_slower
    (m c i t nc1 cp1 nc2 cp2 ts : float) (fuel : nat) (r1 : float) :
  PrimFloat.ltb (of_Z 0) m = true -> PrimFloat.ltb (of_Z 0) c = true ->
  PrimFloat.leb (of_Z 0) ts = true ->
  PrimFloat.leb (of_Z 0) nc1 = true ->
  PrimFloat.leb nc1 nc2 = true -> PrimFloat.leb cp1 cp2 = true ->
  PrimFloat.ltb (of_Z 0)
    (temperatureIncrease m c (totalPowerOutput nc1 cp1) ts) = true ->
  simulateHeatTransfer m c i t nc1 cp1 ts fuel = Some r1 ->
  exists r2 : float,
    simulateHeatTransfer m c i t nc2 cp2 ts fuel = Some r2 /\
    PrimFloat.leb r2 r1 = true.
Proof.
  intros Hm Hc Hts Hn1 Hn Hcp Hpos Hr1.
  pose proof (increase_monotone m c nc1 cp1 nc2 cp2 ts Hm Hc Hts Hn1 Hn Hcp Hpos)
    as Hle.
  unfold simulateHeatTransfer, finalState in *.
  destruct (loop m c t (totalPowerOutput nc1 cp1) ts fuel (initialState i))
    as [s1|] eqn:E1; [|discriminate].
  cbn [option_map] in Hr1. injection Hr1 as <-.
  destruct (compare_runs m c (totalPowerOutput nc1 cp1) m c
                         (totalPowerOutput nc2 cp2) t ts Hts Hpos Hle fuel
                         (initialState i) (initialState i) s1)
    as (s2 & E2 & H); [reflexivity | reflexivity | | exact E1 |].
  - intros Hc2. apply leb_refl. exact (below_not_nan _ _ Hc2).
  - exists (totalTime s2). rewrite E2. split; [reflexivity | exact H].
Qed.

(** The reference scenario against the same tank with twice the
    collectors. *)
Lemma more_power_not_slower_witness :
  exists r2 : float,
    simulateHeatTransfer (of_Z 10000) (of_Z 4186) (of_Z 20) (of_Z 60)
                         (of_Z 50) (of_Z 4) (of_Z 60) 300 = Some r2 /\
    PrimFloat.leb r2 (of_Z 16800) = true.
Proof.
  apply (more_power_not_slower
           (of_Z 10000) (of_Z 4186) (of_Z 20) (of_Z 60)
           (of_Z 25) (of_Z 4) (of_Z 50) (of_Z 4) (of_Z 60) 300 (of_Z 16800));
    vm_compute; reflexivity.
Defined.
End MorePowerRounded.

(** ** C5: the reference scenario *)

Lemma reference_final_state :
  exists s, finalState mass (of_Z 4186) initialTemperature targetTemperature
                       numCollectors collectorPower timeStep 280 = Some s /\
            totalTime s = of_Z 16800 /\
            length (iterations mass (of_Z 4186) initialTemperature targetTemperature
                               numCollectors collectorPower timeStep 280) = 280%nat.
Proof.
  eexists. split; [vm_compute; reflexivity|]. split; vm_compute; reflexivity.
Qed.

(** C5, as the code behaves.  The call at the end of the source file
    completes 280 iterations and returns 16800 seconds: 279 units of fuel
    are not enough, and with 280 or more the result is 16800. *)
Theorem reference_scenario (fuel : nat) :
  totalTimeInSeconds 279 = None /\
  totalTimeInSeconds (280 + fuel) = Some (of_Z 16800) /\
  length (iterations mass (of_Z 4186) initialTemperature targetTemperature
                     numCollectors collectorPower timeStep (280 + fuel)) = 280%nat.
Proof.
  split; [vm_compute; reflexivity|].
  destruct reference_final_state as (s & Hs & Ht & Hl).
  destruct (loop_more_fuel (H := JS.number) _ _ _ _ _ 280 (280 + fuel) _ s
                           ltac:(lia) Hs) as [E1 E2].
  unfold totalTimeInSeconds, simulateHeatTransfer, finalState, iterations.
  rewrite E1, E2. split; [cbn [option_map]; now rewrite Ht | exact Hl].
Qed.

(** The closed form agrees: [40 / deltaT] is [279.07], so 280 steps. *)
Lemma reference_steps :
  Spec.stepsNeeded 10000 4186 20 60 25 4 60 = 280%Z /\
  (inject_Z 279 * Spec.deltaT 10000 4186 25 4 60 < 60 - 20)%Q.
Proof. split; vm_compute; reflexivity. Qed.

(** Whatever the fuel, the only value the call can return is 16800. *)
Lemma reference_result (fuel : nat) (r : float) :
  totalTimeInSeconds fuel = Some r -> r = of_Z 16800.
Proof.
  unfold totalTimeInSeconds, simulateHeatTransfer. intros Hf.
  destruct (finalState mass (of_Z 4186) initialTemperature targetTemperature
                       numCollectors collectorPower timeStep fuel) as [sf|] eqn:Hr;
    [|discriminate].
  cbn [option_map] in Hf. injection Hf as <-.
  destruct reference_final_state as (s & Hs & Ht & _).
  destruct (loop_more_fuel (H := JS.number) _ _ _ _ _ fuel (fuel + 280) _ sf
                           ltac:(lia) Hr) as [E1 _].
  destruct (loop_more_fuel (H := JS.number) _ _ _ _ _ 280 (fuel + 280) _ s
                           ltac:(lia) Hs) as [E2 _].
  rewrite E1 in E2. injection E2 as ->. exact Ht.
Qed.

(** C5, as stated, fails: for no amount of fuel does the call at the end of
    the source file return 16740 (279 steps of 60 seconds). *)
Lemma reference_scenario_not_16740 :
  ~ exists fuel, totalTimeInSeconds fuel = Some (of_Z 16740).
Proof.
  intros [fuel Hf]. apply reference_result in Hf.
  apply (f_equal (fun x => PrimFloat.eqb x (of_Z 16740))) in Hf.
  vm_compute in Hf. discriminate.
Qed.

(** ** C6: the temperature across steps *)

(** C6, as stated, fails.  With a collector power of -1 kW (mass 1000,
    specific heat 1, temperatures 0 and 2, one collector, time step 1) the
    only iteration takes the temperature from 0 to -1: the guard is tested
    after the assignment. *)
Lemma temperature_drop :
  iterations (of_Z 1000) (of_Z 1) (of_Z 0) (of_Z 2)
             (of_Z 1) (of_Z (-1)) (of_Z 1) 3 =
    [{| currentTemperature := of_Z (-1); totalTime := of_Z 1 |}] /\
  PrimFloat.leb (currentTemperature (initialState (of_Z 0))) (of_Z (-1)) = false.
Proof. split; vm_compute; reflexivity. Qed.

(** A non-negative increase is not quite enough either: without mass the
    increase is [+Infinity], and from an initial temperature of
    [-Infinity] the only iteration leaves NaN, which is not above or equal
    to anything. *)
Lemma temperature_not_a_number :
  PrimFloat.leb (of_Z 0)
    (temperatureIncrease (of_Z 0) (of_Z 1)
                         (totalPowerOutput (of_Z 1) (of_Z 1)) (of_Z 1)) = true /\
  iterations (of_Z 0) (of_Z 1) neg_infinity (of_Z 0)
             (of_Z 1) (of_Z 1) (of_Z 1) 3 =
    [{| currentTemperature := nan; totalTime := of_Z 1 |}] /\
  PrimFloat.leb neg_infinity nan = false.
Proof. repeat split; vm_compute; reflexivity. Qed.

Section TemperatureSteps.
Import Binary64Monotone.

(** C6, as the code behaves.  On JavaScript numbers every iteration
    replaces the current temperature by its rounded sum with the
    temperature increase.  When the increase is not below 0, the
    temperature after an iteration is greater than or equal to its value
    before that iteration, except when the iteration adds [+Infinity] to
    [-Infinity].  An iteration that is performed with an increase that is
    [<= 0] is the first and the only one of its call. *)
Theorem temperature_steps (m c i t nc cp ts : float) (fuel k : nat)
                          (a b : state float) :
  nth_error (initialState i :: iterations m c i t nc cp ts fuel) k = Some a ->
  nth_error (iterations m c i t nc cp ts fuel) k = Some b ->
  let dT := temperatureIncrease m c (totalPowerOutput nc cp) ts in
  currentTemperature b = PrimFloat.add (currentTemperature a) dT /\
  (PrimFloat.leb (of_Z 0) dT = true ->
   ~ (currentTemperature a = neg_infinity /\ dT = infinity) ->
   PrimFloat.leb (currentTemperature a) (currentTemperature b) = true) /\
  (PrimFloat.leb dT (of_Z 0) = true ->
   k = O /\ length (iterations m c i t nc cp ts fuel) = 1%nat).
Proof.
  intros Ha Hb dT.
  destruct (history_nth (H := JS.number) m c t (totalPowerOutput nc cp) ts fuel
                        (initialState i) k a b Ha Hb) as (Eb & Hc & _).
  assert (Ecur : currentTemperature b = PrimFloat.add (currentTemperature a) dT).
  { rewrite Eb. reflexivity. }
  split; [exact Ecur|]. split.
  - intros Hpos Hinf. rewrite Ecur.
    apply add_not_smaller; [exact Hpos | | exact Hinf].
    now apply (below_not_nan _ t).
  - intros Hg.
    pose proof (history_guard (H := JS.number) m c t (totalPowerOutput nc cp) ts
                              fuel (initialState i) Hg) as Hlen.
    fold (iterations m c i t nc cp ts fuel) in Hlen.
    assert (Hk : (k < length (iterations m c i t nc cp ts fuel))%nat).
    { apply nth_error_Some. congruence. }
    split; lia.
Qed.

(** The second iteration of the reference scenario, and the only iteration
    of the call with a collector power of -1 kW. *)
Lemma temperature_steps_witness :
  (let a := nth 1 (initialState initialTemperature ::
                   iterations mass (of_Z 4186) initialTemperature targetTemperature
                              numCollectors collectorPower timeStep 3)
                (initialState initialTemperature) in
   let b := nth 1 (iterations mass (of_Z 4186) initialTemperature targetTemperature
                              numCollectors collectorPower timeStep 3)
                (initialState initialTemperature) in
   PrimFloat.leb (currentTemperature a) (currentTemperature b) = true) /\
  length (iterations (of_Z 1000) (of_Z 1) (of_Z 0) (of_Z 2)
                     (of_Z 1) (of_Z (-1)) (of_Z 1) 3) = 1%nat.
Proof.
  split.
  - intros a b.
    destruct (temperature_steps mass (of_Z 4186) initialTemperature
                targetTemperature numCollectors collectorPower timeStep 3 1 a b
                eq_refl eq_refl) as (_ & Hle & _).
    apply Hle; [reflexivity|].
    intros [E _]. apply (f_equal Prim2SF) in E. vm_compute in E. discriminate.
  - destruct (temperature_steps (of_Z 1000) (of_Z 1) (of_Z 0) (of_Z 2)
                (of_Z 1) (of_Z (-1)) (of_Z 1) 3 0
                (initialState (of_Z 0))
                {| currentTemperature := of_Z (-1); totalTime := of_Z 1 |}
                eq_refl eq_refl) as (_ & _ & Hone).
    apply Hone. reflexivity.
Defined.
End TemperatureSteps.

(** ** C7: the elapsed time *)

(** C7, as stated, fails on JavaScript numbers.  With a time step of [0.1]
    (mass 1000, specific heat 1, temperatures 0 and 1, one collector of
    1 kW) the call completes 11 iterations and returns the sum of eleven
    time steps, [1.0999999999999999].  That is not [11 * timeStep], neither
    as binary64 numbers nor as the rationals they stand for, and it is no
    integer multiple of the time step at all. *)
Lemma elapsed_time_rounding :
  exists r qr qts,
    simulateHeatTransfer (of_Z 1000) (of_Z 1) (of_Z 0) (of_Z 1)
                         (of_Z 1) (of_Z 1) tenth 11 = Some r /\
    length (iterations (of_Z 1000) (of_Z 1) (of_Z 0) (of_Z 1)
                       (of_Z 1) (of_Z 1) tenth 11) = 11%nat /\
    PrimFloat.eqb r (PrimFloat.mul (of_Z 11) tenth) = false /\
    toQ r = Some qr /\ toQ tenth = Some qts /\
    ~ exists k : Z, (qr == inject_Z k * qts)%Q.
Proof.
  eexists. eexists. eexists.
  split; [vm_compute; reflexivity|].
  split; [vm_compute; reflexivity|].
  split; [vm_compute; reflexivity|].
  split; [vm_compute; reflexivity|].
  split; [vm_compute; reflexivity|].
  intros [k Hk]. unfold Qeq in Hk. cbn in Hk. lia.
Qed.

Section ElapsedTime.
Import Binary64Exact JSExactLoop.
Local Open Scope Q_scope.

(** Where no addition of the time step rounds.  On JavaScript numbers,
    for every input with a finite time step and every fuel: if none of the
    additions [totalTime += timeStep] the call performs rounds, the elapsed
    time at the end of iteration [k + 1] stands for [(k + 1) * timeStep],
    and a call that returns, returns a number that stands for the number of
    completed iterations times [timeStep]. *)
Lemma elapsed_time_exact
    (m c i t nc cp ts : float) (qts : Q) (fuel : nat) :
  exactly ts qts = true ->
  timeAdditionsExact m c i t nc cp ts fuel = true ->
  (forall (k : nat) (s : state float),
     nth_error (iterations m c i t nc cp ts fuel) k = Some s ->
     exactly (totalTime s) (ofNat (S k) * qts) = true) /\
  (forall r : float,
     simulateHeatTransfer m c i t nc cp ts fuel = Some r ->
     exactly r (ofNat (length (iterations m c i t nc cp ts fuel)) * qts) = true).
Proof.
  intros Hts HE.
  assert (Hk : forall (k : nat) (s : state float),
             nth_error (iterations m c i t nc cp ts fuel) k = Some s ->
             exactly (totalTime s) (ofNat (S k) * qts) = true).
  { intros k s Hs.
    apply (exactly_comp _ (0 + ofNat (S k) * qts)); [lra|].
    apply (history_time m c t (totalPowerOutput nc cp) ts qts Hts fuel
                        (initialState i) 0); [reflexivity | exact HE | exact Hs]. }
  split; [exact Hk|].
  intros r Hr. unfold simulateHeatTransfer, finalState in Hr.
  destruct (loop m c t (totalPowerOutput nc cp) ts fuel (initialState i))
    as [sf|] eqn:Hloop; [|discriminate].
  cbn [option_map] in Hr. injection Hr as <-.
  apply (loop_last (H := JS.number)) in Hloop.
  fold (iterations m c i t nc cp ts fuel) in Hloop.
  destruct (iterations m c i t nc cp ts fuel) as [|s0 l] eqn:El.
  - subst sf. apply (exactly_comp _ 0); [change (ofNat (length [])) with 0; lra|].
    exact exactly_zero.
  - assert (Hlast : nth_error (s0 :: l) (pred (length (s0 :: l))) = Some sf).
    { rewrite Hloop. apply nth_error_last. discriminate. }
    apply Hk in Hlast. exact Hlast.
Qed.

End ElapsedTime.

Section ElapsedTimeRounded.
Import Binary64Exact JSLoop.

(** C7, as the code computes it.  On JavaScript numbers, for every input
    and every fuel, the elapsed time at the end of iteration [k + 1] is [0]
    with [timeStep] added [k + 1] times, each addition rounded, and a call
    that returns, returns [0] with [timeStep] added as many times as
    iterations were completed.  For a finite [timeStep], if none of the
    additions [totalTime += timeStep] the call performs rounds, these
    numbers stand for [(k + 1) * timeStep] and for the number of completed
    iterations times [timeStep]. *)
Theorem elapsed_time_steps (m c i t nc cp ts : float) (fuel : nat) :
  (forall (k : nat) (s : state float),
     nth_error (iterations m c i t nc cp ts fuel) k = Some s ->
     totalTime s = accumulated (of_Z 0) ts (S k)) /\
  (forall r : float,
     simulateHeatTransfer m c i t nc cp ts fuel = Some r ->
     r = accumulated (of_Z 0) ts (length (iterations m c i t nc cp ts fuel))) /\
  (forall qts : Q,
     exactly ts qts = true ->
     timeAdditionsExact m c i t nc cp ts fuel = true ->
     (forall (k : nat) (s : state float),
        nth_error (iterations m c i t nc cp ts fuel) k = Some s ->
        exactly (totalTime s) (ofNat (S k) * qts) = true) /\
     (forall r : float,
        simulateHeatTransfer m c i t nc cp ts fuel = Some r ->
        exactly r (ofNat (length (iterations m c i t nc cp ts fuel)) * qts)
          = true)).
Proof.
  split; [|split].
  - intros k s Hs. unfold iterations in Hs.
    apply (history_sums (H := JS.number)) in Hs. rewrite Hs. reflexivity.
  - intros r Hr. unfold simulateHeatTransfer, finalState in Hr.
    destruct (loop m c t (totalPowerOutput nc cp) ts fuel (initialState i))
      as [sf|] eqn:Hloop; [|discriminate].
    cbn [option_map] in Hr. injection Hr as <-.
    apply (loop_sums (H := JS.number)) in Hloop. rewrite Hloop. reflexivity.
  - intros qts. exact (elapsed_time_exact m c i t nc cp ts qts fuel).
Qed.

(** The reference scenario: after three iterations, 180 seconds. *)
Lemma elapsed_time_steps_witness :
  totalTime (nth 2 (iterations mass (of_Z 4186) initialTemperature
                               targetTemperature numCollectors
                               collectorPower timeStep 5)
                   (initialState initialTemperature))
    = accumulated (of_Z 0) timeStep 3 /\
  exactly (totalTime (nth 2 (iterations mass (of_Z 4186) initialTemperature
                                        targetTemperature numCollectors
                                        collectorPower timeStep 5)
                            (initialState initialTemperature)))
          (ofNat 3 * 60) = true.
Proof.
  destruct (elapsed_time_steps mass (of_Z 4186) initialTemperature
                               targetTemperature numCollectors collectorPower
                               timeStep 5) as (HA & _ & HB).
  split.
  - apply (HA 2%nat). vm_compute. reflexivity.
  - apply (proj1 (HB 60%Q ltac:(vm_compute; reflexivity)
                     ltac:(vm_compute; reflexivity)) 2%nat).
    vm_compute. reflexivity.
Defined.
End ElapsedTimeRounded.

(** ** C8: division by zero *)

(** C8, as the code behaves.  On JavaScript numbers: when [mass == 0] or
    [specificHeat == 0] and the target is above the initial temperature, the
    call completes exactly one iteration and returns [0 + timeStep], which
    is [timeStep] itself unless [timeStep] is [-0] (then it is [+0]).  The
    temperature increase is [-Infinity], and then the guard fires, or it is
    [+Infinity] or NaN, and then the guard does not fire and the loop test
    fails on the new temperature. *)
Theorem zero_mass_one_step (m c i t nc cp ts : float) (fuel : nat) :
  PrimFloat.eqb m (of_Z 0) = true \/ PrimFloat.eqb c (of_Z 0) = true ->
  PrimFloat.ltb i t = true ->
  let dT := temperatureIncrease m c (totalPowerOutput nc cp) ts in
  simulateHeatTransfer m c i t nc cp ts (S fuel) = Some (PrimFloat.add (of_Z 0) ts) /\
  length (iterations m c i t nc cp ts (S fuel)) = 1%nat /\
  (PrimFloat.add (of_Z 0) ts = ts \/
   (ts = neg_zero /\ PrimFloat.add (of_Z 0) ts = of_Z 0)) /\
  ((dT = neg_infinity /\ PrimFloat.leb dT (of_Z 0) = true) \/
   ((dT = infinity \/ is_nan dT = true) /\ PrimFloat.leb dT (of_Z 0) = false /\
    PrimFloat.ltb (PrimFloat.add i dT) t = false)).
Proof.
  intros H0 Hlt dT.
  pose proof (no_mass_no_finite_increase m c nc cp ts H0) as HD.
  destruct (simulate_one_iteration m c i t nc cp ts fuel Hlt (or_intror HD))
    as [E1 E2].
  split; [exact E1|]. split; [exact E2|].
  split; [apply Binary64Zero.zero_plus_eq|].
  now apply Binary64Zero.infinity_or_nan_stops.
Qed.

(** The reference scenario without mass. *)
Lemma zero_mass_one_step_witness :
  simulateHeatTransfer (of_Z 0) (of_Z 4186) (of_Z 20) (of_Z 60)
                       (of_Z 25) (of_Z 4) (of_Z 60) 1
    = Some (PrimFloat.add (of_Z 0) (of_Z 60)) /\
  length (iterations (of_Z 0) (of_Z 4186) (of_Z 20) (of_Z 60)
                     (of_Z 25) (of_Z 4) (of_Z 60) 1) = 1%nat.
Proof.
  destruct (zero_mass_one_step (of_Z 0) (of_Z 4186) (of_Z 20) (of_Z 60)
                               (of_Z 25) (of_Z 4) (of_Z 60) 0
                               (or_introl eq_refl) eq_refl) as (E1 & E2 & _).
  split; [exact E1 | exact E2].
Defined.

(** C8, as stated, fails: no call with [mass == 0] or [specificHeat == 0]
    and a target above the initial temperature stays in its loop. *)
Lemma zero_mass_never_diverges :
  ~ exists m c i t nc cp ts : float,
      (PrimFloat.eqb m (of_Z 0) = true \/ PrimFloat.eqb c (of_Z 0) = true) /\
      PrimFloat.ltb i t = true /\
      diverges m c i t nc cp ts.
Proof.
  intros (m & c & i & t & nc & cp & ts & H0 & Hlt & Hdiv).
  destruct (simulate_one_iteration m c i t nc cp ts O Hlt
              (or_intror (no_mass_no_finite_increase m c nc cp ts H0))) as [E _].
  rewrite (Hdiv 1%nat) in E. discriminate.
Qed.

(** ** C9: shifting both temperatures *)

(** On JavaScript numbers the same shift changes the result: from 0 to 1
    in steps of the binary64 [0.1] takes 11 iterations, from 1 to 2 only
    10. *)
Lemma translation_rounding :
  simulateHeatTransfer (JS.of_Z 10000) (JS.of_Z 1) (JS.of_Z 0) (JS.of_Z 1)
                       (JS.of_Z 1) (JS.of_Z 1) (JS.of_Z 1) 11 = Some (JS.of_Z 11) /\
  simulateHeatTransfer (JS.of_Z 10000) (JS.of_Z 1)
                       (PrimFloat.add (JS.of_Z 0) (JS.of_Z 1))
                       (PrimFloat.add (JS.of_Z 1) (JS.of_Z 1))
                       (JS.of_Z 1) (JS.of_Z 1) (JS.of_Z 1) 11 = Some (JS.of_Z 10).
Proof. split; vm_compute; reflexivity. Qed.

Section Translation.
Import Binary64Exact JSExactLoop.
Local Open Scope Q_scope.

(** C9, where no addition rounds.  On JavaScript numbers: if the offset is
    added to the initial and to the target temperature without rounding,
    and none of the additions [currentTemperature += temperatureIncrease]
    that either call performs rounds, the two calls return the same
    value. *)
Theorem translation_without_rounding
    (m c i t nc cp ts d : float) (fuel : nat) :
  addsExactly i d = true -> addsExactly t d = true ->
  temperatureAdditionsExact m c i t nc cp ts fuel = true ->
  temperatureAdditionsExact m c (PrimFloat.add i d) (PrimFloat.add t d)
                            nc cp ts fuel = true ->
  simulateHeatTransfer m c (PrimFloat.add i d) (PrimFloat.add t d) nc cp ts fuel =
  simulateHeatTransfer m c i t nc cp ts fuel.
Proof.
  intros Hid Htd HT HT'.
  destruct (addsExactly_finite _ _ Hid) as (qi & qd & Hi & Hd).
  destruct (addsExactly_finite _ _ Htd) as (qt & qd' & Ht & _).
  unfold simulateHeatTransfer, finalState.
  apply (loop_shift m c t (PrimFloat.add t d) (totalPowerOutput nc cp) ts qt qd Ht)
    with (q := qi).
  - now apply add_exactly.
  - exact Hi.
  - now apply add_exactly.
  - reflexivity.
  - exact HT.
  - exact HT'.
Qed.

(** From 20 to 60 degrees against from 40 to 80, in steps of 0.125. *)
Lemma translation_without_rounding_witness :
  simulateHeatTransfer (of_Z 10000) (of_Z 4800)
                       (PrimFloat.add (of_Z 20) (of_Z 20))
                       (PrimFloat.add (of_Z 60) (of_Z 20))
                       (of_Z 25) (of_Z 4) (of_Z 60) 400 =
  simulateHeatTransfer (of_Z 10000) (of_Z 4800) (of_Z 20) (of_Z 60)
                       (of_Z 25) (of_Z 4) (of_Z 60) 400.
Proof.
  apply (translation_without_rounding
           (of_Z 10000) (of_Z 4800) (of_Z 20) (of_Z 60)
           (of_Z 25) (of_Z 4) (of_Z 60) (of_Z 20) 400);
    vm_compute; reflexivity.
Defined.
End Translation.

(** ** C10: the two collector arguments *)

(** C10.  On JavaScript numbers: the result depends on [numCollectors] and
    [collectorPower] through their product only, and swapping the two
    arguments leaves it unchanged (binary64 multiplication commutes). *)
Theorem collectors_by_product (m c i t nc cp ts : float) (fuel : nat) :
  (forall nc' cp' : float,
     PrimFloat.mul nc' cp' = PrimFloat.mul nc cp ->
     simulateHeatTransfer m c i t nc' cp' ts fuel =
     simulateHeatTransfer m c i t nc cp ts fuel) /\
  simulateHeatTransfer m c i t cp nc ts fuel =
  simulateHeatTransfer m c i t nc cp ts fuel.
Proof.
  split.
  - intros nc' cp' E. now apply simulate_by_product.
  - apply simulate_by_product. apply Binary64.mul_comm.
Qed.

(** 50 collectors of 2 kW against 25 of 4 kW. *)
Lemma collectors_by_product_witness :
  simulateHeatTransfer (of_Z 10000) (of_Z 4186) (of_Z 20) (of_Z 60)
                       (of_Z 50) (of_Z 2) (of_Z 60) 300 =
  simulateHeatTransfer (of_Z 10000) (of_Z 4186) (of_Z 20) (of_Z 60)
                       (of_Z 25) (of_Z 4) (of_Z 60) 300.
Proof.
  apply (proj1 (collectors_by_product (of_Z 10000) (of_Z 4186) (of_Z 20) (of_Z 60)
                                      (of_Z 25) (of_Z 4) (of_Z 60) 300)).
  reflexivity.
Defined.

Section GenericMore.
Context {num : Type} `{Number num}.
Local Open Scope num_scope.

Variables mass specificHeat targetTemperature power timeStep : num.

(** A loop that returns without the guard having fired leaves a state
    that fails the loop condition. *)
Lemma loop_post (fuel : nat) : forall s r : state num,
  loop mass specificHeat targetTemperature power timeStep fuel s = Some r ->
  (temperatureIncrease mass specificHeat power timeStep <=? lit 0) = false ->
  (currentTemperature r <? targetTemperature) = false.
Proof.
  induction fuel as [|fuel IH]; intros s r Hr Hg.
  - destruct (currentTemperature s <? targetTemperature) eqn:Hc.
    + destruct (loop_no_fuel mass specificHeat targetTemperature power timeStep s Hc)
        as [E _]. rewrite E in Hr. discriminate.
    + destruct (loop_exit mass specificHeat targetTemperature power timeStep O s Hc)
        as [E _]. rewrite E in Hr. injection Hr as <-. exact Hc.
  - destruct (currentTemperature s <? targetTemperature) eqn:Hc.
    + destruct (loop_enter mass specificHeat targetTemperature power timeStep fuel s Hc)
        as [E _]. rewrite E, Hg in Hr. now apply IH in Hr.
    + destruct (loop_exit mass specificHeat targetTemperature power timeStep (S fuel) s Hc)
        as [E _]. rewrite E in Hr. injection Hr as <-. exact Hc.
Qed.

(** A loop whose increase passes the guard and leaves the temperature as it
    was never returns. *)
Lemma loop_absorbed (fuel : nat) : forall s : state num,
  (currentTemperature s <? targetTemperature) = true ->
  (temperatureIncrease mass specificHeat power timeStep <=? lit 0) = false ->
  currentTemperature s + temperatureIncrease mass specificHeat power timeStep
    = currentTemperature s ->
  loop mass specificHeat targetTemperature power timeStep fuel s = None.
Proof.
  induction fuel as [|fuel IH]; intros s Hc Hg Habs.
  - now destruct (loop_no_fuel mass specificHeat targetTemperature power timeStep s Hc).
  - destruct (loop_enter mass specificHeat targetTemperature power timeStep fuel s Hc)
      as [E _]. rewrite E, Hg.
    apply IH; unfold advance; simpl; rewrite ?Habs; auto.
Qed.

(** The loop uses the mass, the specific heat and the power through the
    temperature increase only. *)
Lemma loop_by_increase (mass' specificHeat' power' : num) (fuel : nat) :
  temperatureIncrease mass' specificHeat' power' timeStep
    = temperatureIncrease mass specificHeat power timeStep ->
  forall s : state num,
    loop mass' specificHeat' targetTemperature power' timeStep fuel s
    = loop mass specificHeat targetTemperature power timeStep fuel s.
Proof.
  intros ED.
  assert (EA : forall s, advance mass' specificHeat' power' timeStep s
                         = advance mass specificHeat power timeStep s).
  { intros s. unfold advance. now rewrite ED. }
  induction fuel as [|fuel IH]; intros s;
    destruct (currentTemperature s <? targetTemperature) eqn:Hc.
  - destruct (loop_no_fuel mass specificHeat targetTemperature power timeStep s Hc)
      as [-> _].
    now destruct (loop_no_fuel mass' specificHeat' targetTemperature power' timeStep s Hc)
      as [-> _].
  - destruct (loop_exit mass specificHeat targetTemperature power timeStep O s Hc)
      as [-> _].
    now destruct (loop_exit mass' specificHeat' targetTemperature power' timeStep O s Hc)
      as [-> _].
  - destruct (loop_enter mass specificHeat targetTemperature power timeStep fuel s Hc)
      as [-> _].
    destruct (loop_enter mass' specificHeat' targetTemperature power' timeStep fuel s Hc)
      as [-> _].
    rewrite ED, EA, IH. reflexivity.
  - destruct (loop_exit mass specificHeat targetTemperature power timeStep (S fuel) s Hc)
      as [-> _].
    now destruct (loop_exit mass' specificHeat' targetTemperature power' timeStep (S fuel) s Hc)
      as [-> _].
Qed.
End GenericMore.

(** * Further behaviour on JavaScript numbers *)

Section JSEdge.
Import JS Binary64 JSLoop Binary64Signs.
Local Open Scope float_scope.

(** A loop that is entered completes exactly one iteration unless the
    temperature increase is positive and finite. *)
Lemma one_iteration_unless_positive (m c t P ts : float) (s : state float)
                                    (fuel : nat) :
  (currentTemperature s <? t) = true ->
  positiveFinite (temperatureIncrease m c P ts) = false ->
  loop m c t P ts (S fuel) s = Some (advance m c P ts s) /\
  history m c t P ts (S fuel) s = [advance m c P ts s].
Proof.
  intros Hc HD. apply positiveFinite_spec in HD.
  destruct (temperatureIncrease m c P ts <=? of_Z 0) eqn:Hg.
  - destruct (loop_enter (H := JS.number) m c t P ts fuel s Hc) as [E1 E2].
    rewrite E1, E2.
    change (@leb float JS.number (temperatureIncrease m c P ts) (@lit float JS.number 0%Z))
      with (temperatureIncrease m c P ts <=? of_Z 0).
    rewrite Hg. auto.
  - apply one_iteration; [exact Hc|].
    destruct HD as [HD | HD]; [|now right].
    rewrite leb_spec in Hg. change (Prim2SF (of_Z 0)) with (S754_zero false) in Hg.
    destruct (Prim2SF (temperatureIncrease m c P ts)) as [sd|sd| |sd md ed];
      simpl in HD; subst; auto; discriminate.
Qed.

Lemma SFmul_nan (x y : spec_float) :
  x = S754_nan \/ y = S754_nan -> SF64mul x y = S754_nan.
Proof. intros [-> | ->]; [|destruct x]; reflexivity. Qed.

Lemma SFdiv_nan (x y : spec_float) :
  x = S754_nan \/ y = S754_nan -> SF64div x y = S754_nan.
Proof. intros [-> | ->]; [|destruct x]; reflexivity. Qed.

Ltac nan_source :=
  solve [ reflexivity
        | apply SFdiv_nan; (left + right); nan_source
        | apply SFmul_nan; (left + right); nan_source ].

(** NaN in any argument of the two products and the quotient makes the
    temperature increase NaN. *)
Lemma nan_increase (m c nc cp ts : float) :
  is_nan m || is_nan c || is_nan nc || is_nan cp || is_nan ts = true ->
  Prim2SF (temperatureIncrease m c (totalPowerOutput nc cp) ts) = S754_nan.
Proof.
  intros H.
  unfold temperatureIncrease, energyTransferred, totalPowerOutput. js_ops.
  rewrite div_spec, !mul_spec.
  repeat (apply orb_true_iff in H; destruct H as [H | H]);
    apply is_nan_spec in H; rewrite H; nan_source.
Qed.
End JSEdge.

(** * Further properties on JavaScript numbers *)

Section JSProperties.
Import JS Binary64 JSLoop Binary64Signs.

(** X1.  A NaN initial or target temperature: the loop condition is false
    on entry, so the call completes no iteration and returns 0. *)
Theorem nan_temperature_returns_zero (m c i t nc cp ts : float) (fuel : nat) :
  is_nan i || is_nan t = true ->
  simulateHeatTransfer m c i t nc cp ts fuel = Some 0%float /\
  iterations m c i t nc cp ts fuel = [].
Proof.
  intros Hnan.
  assert (Hc : PrimFloat.ltb i t = false).
  { rewrite ltb_spec.
    apply orb_true_iff in Hnan. destruct Hnan as [Hn | Hn];
      apply is_nan_spec in Hn; rewrite Hn; [reflexivity|].
    destruct (Prim2SF i); reflexivity. }
  destruct (loop_exit (H := JS.number) m c t (totalPowerOutput nc cp) ts fuel
                      (initialState i) Hc) as [E1 E2].
  unfold simulateHeatTransfer, finalState, iterations. rewrite E1, E2.
  split; reflexivity.
Qed.

(** A NaN target in the reference scenario. *)
Lemma nan_temperature_returns_zero_witness :
  simulateHeatTransfer (of_Z 10000) (of_Z 4186) (of_Z 20) nan
                       (of_Z 25) (of_Z 4) (of_Z 60) 0 = Some 0%float /\
  iterations (of_Z 10000) (of_Z 4186) (of_Z 20) nan
             (of_Z 25) (of_Z 4) (of_Z 60) 0 = [].
Proof.
  apply (nan_temperature_returns_zero (of_Z 10000) (of_Z 4186) (of_Z 20) nan
                                      (of_Z 25) (of_Z 4) (of_Z 60) 0).
  reflexivity.
Defined.

(** X2.  With a target above the initial temperature the call goes past
    its first iteration only when the temperature increase is positive and
    finite: otherwise it completes exactly one iteration and returns
    [0 + timeStep], which is [timeStep] itself unless [timeStep] is [-0]
    (then it is [+0]). *)
Theorem one_step_unless_positive_increase (m c i t nc cp ts : float)
                                          (fuel : nat) :
  PrimFloat.ltb i t = true ->
  positiveFinite (temperatureIncrease m c (totalPowerOutput nc cp) ts) = false ->
  simulateHeatTransfer m c i t nc cp ts (S fuel)
    = Some (PrimFloat.add (of_Z 0) ts) /\
  (PrimFloat.add (of_Z 0) ts = ts \/
   (ts = neg_zero /\ PrimFloat.add (of_Z 0) ts = of_Z 0)) /\
  length (iterations m c i t nc cp ts (S fuel)) = 1%nat.
Proof.
  intros Hc HD.
  destruct (one_iteration_unless_positive m c t (totalPowerOutput nc cp) ts
              (initialState i) fuel Hc HD) as [E1 E2].
  unfold simulateHeatTransfer, finalState, iterations. rewrite E1, E2.
  split; [reflexivity|]. split; [apply Binary64Zero.zero_plus_eq | reflexivity].
Qed.

(** The reference scenario with a collector power of -4 kW. *)
Lemma one_step_unless_positive_increase_witness :
  simulateHeatTransfer (of_Z 10000) (of_Z 4186) (of_Z 20) (of_Z 60)
                       (of_Z 25) (of_Z (-4)) (of_Z 60) 1
    = Some (PrimFloat.add (of_Z 0) (of_Z 60)) /\
  (PrimFloat.add (of_Z 0) (of_Z 60) = of_Z 60 \/
   (of_Z 60 = neg_zero /\ PrimFloat.add (of_Z 0) (of_Z 60) = of_Z 0)) /\
  length (iterations (of_Z 10000) (of_Z 4186) (of_Z 20) (of_Z 60)
                     (of_Z 25) (of_Z (-4)) (of_Z 60) 1) = 1%nat.
Proof.
  apply (one_step_unless_positive_increase (of_Z 10000) (of_Z 4186) (of_Z 20)
           (of_Z 60) (of_Z 25) (of_Z (-4)) (of_Z 60) 0); reflexivity.
Defined.

(** X3.  NaN for the mass, the specific heat, the collector count, the
    collector power or the time step, with a target above the initial
    temperature: the call raises nothing and does not loop; it completes
    exactly one iteration and returns [0 + timeStep]. *)
Theorem nan_parameter_one_step (m c i t nc cp ts : float) (fuel : nat) :
  PrimFloat.ltb i t = true ->
  is_nan m || is_nan c || is_nan nc || is_nan cp || is_nan ts = true ->
  simulateHeatTransfer m c i t nc cp ts (S fuel)
    = Some (PrimFloat.add (of_Z 0) ts) /\
  sameValueZero (PrimFloat.add (of_Z 0) ts) ts = true /\
  length (iterations m c i t nc cp ts (S fuel)) = 1%nat.
Proof.
  intros Hc Hnan.
  pose proof (nan_increase m c nc cp ts Hnan) as HD.
  destruct (one_iteration m c t (totalPowerOutput nc cp) ts (initialState i) fuel Hc)
    as [E1 E2].
  { left. rewrite HD. reflexivity. }
  unfold simulateHeatTransfer, finalState, iterations. rewrite E1, E2.
  split; [reflexivity|]. split; [apply zero_plus | reflexivity].
Qed.

(** The reference scenario with NaN for the collector count. *)
Lemma nan_parameter_one_step_witness :
  simulateHeatTransfer (of_Z 10000) (of_Z 4186) (of_Z 20) (of_Z 60)
                       nan (of_Z 4) (of_Z 60) 1
    = Some (PrimFloat.add (of_Z 0) (of_Z 60)) /\
  sameValueZero (PrimFloat.add (of_Z 0) (of_Z 60)) (of_Z 60) = true /\
  length (iterations (of_Z 10000) (of_Z 4186) (of_Z 20) (of_Z 60)
                     nan (of_Z 4) (of_Z 60) 1) = 1%nat.
Proof.
  apply (nan_parameter_one_step (of_Z 10000) (of_Z 4186) (of_Z 20) (of_Z 60)
                                nan (of_Z 4) (of_Z 60) 0); reflexivity.
Defined.
End JSProperties.

Section JSGuard.
Import JS Binary64 JSLoop Binary64Signs.

(** The temperature increase is not positive and finite when the mass and
    the specific heat are not negative and the energy of a step is not
    positive. *)
Lemma increase_sign (m c nc cp ts : float) :
  PrimFloat.leb (of_Z 0) m = true -> PrimFloat.leb (of_Z 0) c = true ->
  (PrimFloat.leb (of_Z 0) nc = true /\ PrimFloat.leb cp (of_Z 0) = true /\
   PrimFloat.leb (of_Z 0) ts = true) \/
  (PrimFloat.leb nc (of_Z 0) = true /\ PrimFloat.leb (of_Z 0) cp = true /\
   PrimFloat.leb (of_Z 0) ts = true) \/
  (PrimFloat.leb (of_Z 0) nc = true /\ PrimFloat.leb (of_Z 0) cp = true /\
   PrimFloat.leb ts (of_Z 0) = true) ->
  positiveFinite (temperatureIncrease m c (totalPowerOutput nc cp) ts) = false.
Proof.
  intros Hm Hc Hsign.
  apply leb_zero_l in Hm. apply leb_zero_l in Hc.
  assert (HM : notNegative (Prim2SF (PrimFloat.mul m c)) = true).
  { rewrite mul_spec. now apply SFmul_sign. }
  assert (H1000 : notNegative (Prim2SF (of_Z 1000)) = true) by reflexivity.
  assert (HE : notPositive
                 (Prim2SF (PrimFloat.mul
                             (PrimFloat.mul (PrimFloat.mul nc cp) (of_Z 1000)) ts))
               = true).
  { rewrite !mul_spec.
    destruct Hsign as [(Hn & Hp & Ht) | [(Hn & Hp & Ht) | (Hn & Hp & Ht)]].
    - apply leb_zero_l in Hn. apply leb_zero_r in Hp. apply leb_zero_l in Ht.
      apply SFmul_sign; [|exact Ht]. apply SFmul_sign; [|exact H1000].
      rewrite SFmul_comm. now apply SFmul_sign.
    - apply leb_zero_r in Hn. apply leb_zero_l in Hp. apply leb_zero_l in Ht.
      apply SFmul_sign; [|exact Ht]. apply SFmul_sign; [|exact H1000].
      now apply SFmul_sign.
    - apply leb_zero_l in Hn. apply leb_zero_l in Hp. apply leb_zero_r in Ht.
      rewrite SFmul_comm. apply SFmul_sign; [exact Ht|].
      apply SFmul_sign; [|exact H1000]. now apply SFmul_sign. }
  unfold temperatureIncrease, energyTransferred, totalPowerOutput. js_ops.
  pose proof (SFdiv_sign _ _ HE HM) as HD. rewrite <- div_spec in HD.
  set (D := PrimFloat.div _ _) in *. clearbody D.
  unfold positiveFinite. rewrite !ltb_spec.
  change (Prim2SF (of_Z 0)) with (S754_zero false).
  change (Prim2SF infinity) with (S754_infinity false).
  destruct (Prim2SF D) as [s|s| |s md ed]; try reflexivity.
  - destruct s; reflexivity.
  - destruct HD as [HD | HD]; simpl in HD; subst; [reflexivity | discriminate].
Qed.

(** X4.  The guard at work.  With mass and specific heat not below 0 and a
    target above the initial temperature, a collector power or a collector
    count that is not above 0 (the other one not below 0), or a time step
    that is not above 0, stops the call after exactly one iteration, with
    [0 + timeStep] as its result. *)
Theorem guard_stops_without_gain (m c i t nc cp ts : float) (fuel : nat) :
  PrimFloat.ltb i t = true ->
  PrimFloat.leb (of_Z 0) m = true -> PrimFloat.leb (of_Z 0) c = true ->
  (PrimFloat.leb (of_Z 0) nc = true /\ PrimFloat.leb cp (of_Z 0) = true /\
   PrimFloat.leb (of_Z 0) ts = true) \/
  (PrimFloat.leb nc (of_Z 0) = true /\ PrimFloat.leb (of_Z 0) cp = true /\
   PrimFloat.leb (of_Z 0) ts = true) \/
  (PrimFloat.leb (of_Z 0) nc = true /\ PrimFloat.leb (of_Z 0) cp = true /\
   PrimFloat.leb ts (of_Z 0) = true) ->
  simulateHeatTransfer m c i t nc cp ts (S fuel)
    = Some (PrimFloat.add (of_Z 0) ts) /\
  length (iterations m c i t nc cp ts (S fuel)) = 1%nat.
Proof.
  intros Hlt Hm Hc Hsign.
  destruct (one_iteration_unless_positive m c t (totalPowerOutput nc cp) ts
              (initialState i) fuel Hlt (increase_sign m c nc cp ts Hm Hc Hsign))
    as [E1 E2].
  unfold simulateHeatTransfer, finalState, iterations. rewrite E1, E2.
  split; reflexivity.
Qed.

(** The reference scenario with a time step of -60 seconds: the result is
    -60. *)
Lemma guard_stops_without_gain_witness :
  simulateHeatTransfer (of_Z 10000) (of_Z 4186) (of_Z 20) (of_Z 60)
                       (of_Z 25) (of_Z 4) (of_Z (-60)) 1
    = Some (PrimFloat.add (of_Z 0) (of_Z (-60))) /\
  length (iterations (of_Z 10000) (of_Z 4186) (of_Z 20) (of_Z 60)
                     (of_Z 25) (of_Z 4) (of_Z (-60)) 1) = 1%nat.
Proof.
  apply (guard_stops_without_gain (of_Z 10000) (of_Z 4186) (of_Z 20) (of_Z 60)
                                  (of_Z 25) (of_Z 4) (of_Z (-60)) 0);
    try reflexivity.
  right. right. repeat split; reflexivity.
Defined.

(** X5.  What a returning call has reached.  When the call returns and the
    guard has not fired (the temperature increase is not [<= 0]), the final
    temperature is not below the target. *)
Theorem returns_at_target (m c i t nc cp ts : float) (fuel : nat)
                          (s : state float) :
  finalState m c i t nc cp ts fuel = Some s ->
  PrimFloat.leb (temperatureIncrease m c (totalPowerOutput nc cp) ts) (of_Z 0)
    = false ->
  PrimFloat.ltb (currentTemperature s) t = false.
Proof.
  intros Hs Hg.
  exact (loop_post (H := JS.number) m c t (totalPowerOutput nc cp) ts fuel
                   (initialState i) s Hs Hg).
Qed.

(** The reference scenario: the final temperature is not below 60. *)
Lemma returns_at_target_witness :
  exists s, finalState mass (of_Z 4186) initialTemperature targetTemperature
                       numCollectors collectorPower timeStep 280 = Some s /\
            PrimFloat.ltb (currentTemperature s) targetTemperature = false.
Proof.
  eexists. split; [vm_compute; reflexivity|].
  apply (returns_at_target mass (of_Z 4186) initialTemperature targetTemperature
                           numCollectors collectorPower timeStep 280).
  - vm_compute. reflexivity.
  - vm_compute. reflexivity.
Defined.

(** X6.  The result depends on the mass and the specific heat through
    their product only; swapping the two arguments leaves it unchanged. *)
Theorem mass_by_heat_capacity (m c i t nc cp ts : float) (fuel : nat) :
  (forall m' c' : float,
     PrimFloat.mul m' c' = PrimFloat.mul m c ->
     simulateHeatTransfer m' c' i t nc cp ts fuel =
     simulateHeatTransfer m c i t nc cp ts fuel) /\
  simulateHeatTransfer c m i t nc cp ts fuel =
  simulateHeatTransfer m c i t nc cp ts fuel.
Proof.
  assert (Hprod : forall m' c' : float,
             PrimFloat.mul m' c' = PrimFloat.mul m c ->
             simulateHeatTransfer m' c' i t nc cp ts fuel =
             simulateHeatTransfer m c i t nc cp ts fuel).
  { intros m' c' E. unfold simulateHeatTransfer, finalState. f_equal.
    apply (loop_by_increase (H := JS.number)).
    unfold temperatureIncrease. js_ops. now rewrite E. }
  split; [exact Hprod|]. apply Hprod. apply mul_comm.
Qed.

(** 5000 kg at 8372 J/kg°C against 10000 kg at 4186 J/kg°C. *)
Lemma mass_by_heat_capacity_witness :
  simulateHeatTransfer (of_Z 5000) (of_Z 8372) (of_Z 20) (of_Z 60)
                       (of_Z 25) (of_Z 4) (of_Z 60) 300 =
  simulateHeatTransfer (of_Z 10000) (of_Z 4186) (of_Z 20) (of_Z 60)
                       (of_Z 25) (of_Z 4) (of_Z 60) 300.
Proof.
  apply (proj1 (mass_by_heat_capacity (of_Z 10000) (of_Z 4186) (of_Z 20) (of_Z 60)
                                      (of_Z 25) (of_Z 4) (of_Z 60) 300)).
  reflexivity.
Defined.

(** X7.  The guard does not prevent every endless loop.  When the
    temperature increase passes the guard but adding it to the initial
    temperature gives the initial temperature back (it is below half the
    spacing of binary64 numbers there), and the target is above the initial
    temperature, the call never returns. *)
Theorem absorbed_increase_never_returns (m c i t nc cp ts : float) :
  PrimFloat.ltb i t = true ->
  PrimFloat.leb (temperatureIncrease m c (totalPowerOutput nc cp) ts) (of_Z 0)
    = false ->
  PrimFloat.add i (temperatureIncrease m c (totalPowerOutput nc cp) ts) = i ->
  diverges m c i t nc cp ts.
Proof.
  intros Hlt Hg Habs fuel.
  unfold simulateHeatTransfer, finalState.
  rewrite (loop_absorbed (H := JS.number) m c t (totalPowerOutput nc cp) ts fuel
                         (initialState i) Hlt Hg Habs).
  reflexivity.
Qed.

(** Mass 2000, specific heat 1, one collector of 1 kW, time step 1: the
    increase is 0.5, and from [2^53] to [2^53 + 2] nothing moves. *)
Lemma absorbed_increase_never_returns_witness :
  diverges (of_Z 2000) (of_Z 1) (of_Z 9007199254740992) (of_Z 9007199254740994)
           (of_Z 1) (of_Z 1) (of_Z 1).
Proof.
  apply absorbed_increase_never_returns; reflexivity.
Defined.
End JSGuard.

Section ElapsedSign.
Import JS Binary64 JSLoop Binary64Signs.
Local Open Scope float_scope.

(** The sum of two values that are not negative is not negative. *)
Lemma SFadd_sign (x y : spec_float) :
  notNegative x = true -> notNegative y = true ->
  notNegative (SF64add x y) = true.
Proof.
  destruct x as [sx|sx| |sx mx ex], y as [sy|sy| |sy my ey];
    intros E1 E2; simpl in E1, E2;
    try apply negb_true_iff in E1; try apply negb_true_iff in E2; subst;
    try reflexivity; try (destruct sx; reflexivity);
    try (destruct sy; reflexivity); try (destruct sx, sy; reflexivity).
  unfold SF64add, SFadd, cond_Zopp.
  destruct (shl_align mx ex (Z.min ex ey)) as [mx' ex'].
  destruct (shl_align my ey (Z.min ex ey)) as [my' ey'].
  cbn [fst Z.add binary_normalize]. unfold binary_round.
  destruct (shl_align _ _ _) as [mz ez].
  apply (binary_round_aux_sign false).
Qed.

(** The elapsed time stays in any class of numbers that adding the time
    step does not leave. *)
Lemma loop_elapsed (m c t P ts : float) (Inv : float -> Prop) :
  (forall x, Inv x -> Inv (x + ts)) ->
  forall (fuel : nat) (s r : state float),
    loop m c t P ts fuel s = Some r ->
    Inv (totalTime s) -> Inv (totalTime r).
Proof.
  intros Hstep. induction fuel as [|fuel IH]; intros s r Hr Hs;
    destruct (currentTemperature s <? t) eqn:Hc.
  - destruct (loop_no_fuel (H := JS.number) m c t P ts s Hc) as [E _].
    rewrite E in Hr. discriminate.
  - destruct (loop_exit (H := JS.number) m c t P ts O s Hc) as [E _].
    rewrite E in Hr. now injection Hr as <-.
  - destruct (loop_enter (H := JS.number) m c t P ts fuel s Hc) as [E _].
    rewrite E in Hr.
    destruct (@leb float JS.number (temperatureIncrease m c P ts)
                   (@lit float JS.number 0%Z)).
    + injection Hr as <-. apply Hstep, Hs.
    + apply IH in Hr; [exact Hr|]. apply Hstep, Hs.
  - destruct (loop_exit (H := JS.number) m c t P ts (S fuel) s Hc) as [E _].
    rewrite E in Hr. now injection Hr as <-.
Qed.

(** X13.  With a time step that is not below 0, the call never returns a
    negative elapsed time. *)
Theorem elapsed_time_not_negative (m c i t nc cp ts : float) (fuel : nat)
                                  (r : float) :
  PrimFloat.leb (of_Z 0) ts = true ->
  simulateHeatTransfer m c i t nc cp ts fuel = Some r ->
  PrimFloat.ltb r (of_Z 0) = false.
Proof.
  intros Hts Hr. apply leb_zero_l in Hts.
  unfold simulateHeatTransfer, finalState in Hr.
  destruct (loop m c t (totalPowerOutput nc cp) ts fuel (initialState i))
    as [s|] eqn:Hs; [|discriminate].
  cbn [option_map] in Hr. injection Hr as <-.
  assert (Hinv : notNegative (Prim2SF (totalTime s)) = true).
  { apply (loop_elapsed m c t (totalPowerOutput nc cp) ts
                        (fun x => notNegative (Prim2SF x) = true))
      with (fuel := fuel) (s := initialState i).
    - intros x Hx. rewrite add_spec. now apply SFadd_sign.
    - exact Hs.
    - reflexivity. }
  rewrite ltb_spec. change (Prim2SF (of_Z 0)) with (S754_zero false).
  destruct (Prim2SF (totalTime s)) as [sr|sr| |sr mr er]; try reflexivity;
    simpl in Hinv; apply negb_true_iff in Hinv; subst; reflexivity.
Qed.

(** The reference scenario. *)
Lemma elapsed_time_not_negative_witness :
  PrimFloat.ltb (of_Z 16800) (of_Z 0) = false.
Proof.
  apply (elapsed_time_not_negative mass (of_Z 4186) initialTemperature
           targetTemperature numCollectors collectorPower timeStep 280).
  - reflexivity.
  - vm_compute. reflexivity.
Defined.
End ElapsedSign.

Section MorePower.
Import Binary64Exact JSExactLoop.
Local Open Scope Q_scope.

(** X14.  More collector power where no operation rounds.  On
    JavaScript numbers, for finite arguments with positive mass, specific
    heat and time step and two calls that differ in the collector arguments
    only, the first with positive [numCollectors] and [collectorPower] and
    the second with at least as much of each: if in neither call an
    operation rounds, both calls return, and the call with more power
    returns no more elapsed time. *)
Theorem more_power_without_rounding
    (m c i t nc1 cp1 nc2 cp2 ts : float)
    (qm qc qi qt qnc1 qcp1 qnc2 qcp2 qts : Q) (fuel : nat) :
  exactly m qm = true -> exactly c qc = true ->
  exactly i qi = true -> exactly t qt = true -> exactly ts qts = true ->
  exactly nc1 qnc1 = true -> exactly cp1 qcp1 = true ->
  exactly nc2 qnc2 = true -> exactly cp2 qcp2 = true ->
  0 < qm -> 0 < qc -> 0 < qts ->
  0 < qnc1 -> 0 < qcp1 -> qnc1 <= qnc2 -> qcp1 <= qcp2 ->
  increaseExact m c nc1 cp1 ts = true ->
  increaseExact m c nc2 cp2 ts = true ->
  temperatureAdditionsExact m c i t nc1 cp1 ts fuel = true ->
  temperatureAdditionsExact m c i t nc2 cp2 ts fuel = true ->
  timeAdditionsExact m c i t nc1 cp1 ts fuel = true ->
  timeAdditionsExact m c i t nc2 cp2 ts fuel = true ->
  (Z.to_nat (Spec.stepsNeeded qm qc qi qt qnc1 qcp1 qts) <= fuel)%nat ->
  exists r1 r2 : float,
    simulateHeatTransfer m c i t nc1 cp1 ts fuel = Some r1 /\
    simulateHeatTransfer m c i t nc2 cp2 ts fuel = Some r2 /\
    PrimFloat.leb r2 r1 = true.
Proof.
  intros Hm Hc Hi Ht Hts Hnc1 Hcp1 Hnc2 Hcp2 Pm Pc Pts Pn1 Pp1 Ln Lp
         HI1 HI2 HT1 HT2 HE1 HE2 Hfuel.
  destruct (Qlt_le_dec qi qt) as [Hit | Hti].
  - destruct (deltaT_monotone qm qc qts Pm Pc Pts qnc1 qcp1 qnc2 qcp2 Pn1 Pp1 Ln Lp)
      as [Hd1 Hd12].
    assert (Hd2 : 0 < Spec.deltaT qm qc qnc2 qcp2 qts) by lra.
    pose proof (stepsNeeded_antitone qm qc qts Pm Pc Pts qi qt qnc1 qcp1 qnc2 qcp2
                                     Hit Pn1 Pp1 Ln Lp) as Hsteps.
    destruct (simulate_steps m c i t nc1 cp1 ts qi qt qts Hi Ht Hts
                             (Spec.deltaT qm qc qnc1 qcp1 qts) fuel)
      as (r1 & Hr1 & Hv1 & _); try assumption.
    { now apply increase_exactly. }
    destruct (simulate_steps m c i t nc2 cp2 ts qi qt qts Hi Ht Hts
                             (Spec.deltaT qm qc qnc2 qcp2 qts) fuel)
      as (r2 & Hr2 & Hv2 & _); try assumption.
    { now apply increase_exactly. }
    { unfold Spec.stepsNeeded in Hsteps, Hfuel. lia. }
    exists r1, r2. split; [exact Hr1|]. split; [exact Hr2|].
    apply (leb_exactly _ _ _ _ Hv2 Hv1).
    apply Qmult_le_compat_r; [|lra].
    apply ofNat_le. unfold Spec.stepsNeeded in Hsteps. lia.
  - assert (Hc0 : PrimFloat.ltb i t = false).
    { apply (ltb_exactly _ _ _ _ Hi Ht). exact Hti. }
    exists (of_Z 0), (of_Z 0).
    destruct (loop_exit (H := JS.number) m c t (totalPowerOutput nc1 cp1) ts fuel
                        (initialState i) Hc0) as [E1 _].
    destruct (loop_exit (H := JS.number) m c t (totalPowerOutput nc2 cp2) ts fuel
                        (initialState i) Hc0) as [E2 _].
    unfold simulateHeatTransfer, finalState. rewrite E1, E2.
    repeat split; reflexivity.
Qed.

(** One collector against two: 320 steps of 0.125 degrees against 160 of
    0.25. *)
Lemma more_power_without_rounding_witness :
  exists r1 r2 : float,
    simulateHeatTransfer (of_Z 480000) (of_Z 1) (of_Z 20) (of_Z 60)
                         (of_Z 1) (of_Z 1) (of_Z 60) 320 = Some r1 /\
    simulateHeatTransfer (of_Z 480000) (of_Z 1) (of_Z 20) (of_Z 60)
                         (of_Z 2) (of_Z 1) (of_Z 60) 320 = Some r2 /\
    PrimFloat.leb r2 r1 = true.
Proof.
  apply (more_power_without_rounding
           (of_Z 480000) (of_Z 1) (of_Z 20) (of_Z 60)
           (of_Z 1) (of_Z 1) (of_Z 2) (of_Z 1) (of_Z 60)
           480000 1 20 60 1 1 2 1 60 320);
    first [vm_compute; reflexivity | vm_compute; discriminate].
Defined.
End MorePower.

Section MorePowerMore.
Import JSPower.

(** X15.  On JavaScript numbers, roundings included, the temperature
    increase of one iteration is monotone in the collector arguments: for
    [mass > 0], [specificHeat > 0], [timeStep >= 0] and
    [0 <= numCollectors1 <= numCollectors2],
    [collectorPower1 <= collectorPower2], a positive increase computed from
    the smaller arguments is less than or equal to the increase computed
    from the larger ones. *)
Theorem increase_not_smaller (m c nc1 cp1 nc2 cp2 ts : float) :
  PrimFloat.ltb (of_Z 0) m = true -> PrimFloat.ltb (of_Z 0) c = true ->
  PrimFloat.leb (of_Z 0) ts = true -> PrimFloat.leb (of_Z 0) nc1 = true ->
  PrimFloat.leb nc1 nc2 = true -> PrimFloat.leb cp1 cp2 = true ->
  PrimFloat.ltb (of_Z 0)
    (temperatureIncrease m c (totalPowerOutput nc1 cp1) ts) = true ->
  PrimFloat.leb (temperatureIncrease m c (totalPowerOutput nc1 cp1) ts)
                (temperatureIncrease m c (totalPowerOutput nc2 cp2) ts) = true.
Proof. exact (increase_monotone m c nc1 cp1 nc2 cp2 ts). Qed.

(** The reference scenario against 26 collectors of 5 kW. *)
Lemma increase_not_smaller_witness :
  PrimFloat.leb
    (temperatureIncrease (of_Z 10000) (of_Z 4186)
                         (totalPowerOutput (of_Z 25) (of_Z 4)) (of_Z 60))
    (temperatureIncrease (of_Z 10000) (of_Z 4186)
                         (totalPowerOutput (of_Z 26) (of_Z 5)) (of_Z 60)) = true.
Proof.
  apply (increase_not_smaller (of_Z 10000) (of_Z 4186) (of_Z 25) (of_Z 4)
                              (of_Z 26) (of_Z 5) (of_Z 60));
    vm_compute; reflexivity.
Defined.

(** X16.  More collector power can make the call slower when a sign is
    off, although the smaller arguments give a positive temperature
    increase (temperatures 20 and 60 throughout).  With a negative mass
    (-10000, specific heat 4186, 25 collectors, time step 60) raising
    [collectorPower] from -4 to -2 raises the result from 16800 to 33540.
    With negative collector arguments (mass 10000, [collectorPower = -4])
    raising [numCollectors] from -50 to -25 raises the result from 8400 to
    16800.  With a negative time step (-60, mass 10000,
    [collectorPower = -4]) raising [numCollectors] from 25 to 50 raises the
    result from -16800 to -8400. *)
Theorem more_power_slower_signs :
  (PrimFloat.ltb (of_Z 0)
     (temperatureIncrease (of_Z (-10000)) (of_Z 4186)
        (totalPowerOutput (of_Z 25) (of_Z (-4))) (of_Z 60)) = true /\
   simulateHeatTransfer (of_Z (-10000)) (of_Z 4186) (of_Z 20) (of_Z 60)
                        (of_Z 25) (of_Z (-4)) (of_Z 60) 280
     = Some (of_Z 16800) /\
   simulateHeatTransfer (of_Z (-10000)) (of_Z 4186) (of_Z 20) (of_Z 60)
                        (of_Z 25) (of_Z (-2)) (of_Z 60) 559
     = Some (of_Z 33540) /\
   PrimFloat.leb (of_Z 33540) (of_Z 16800) = false) /\
  (PrimFloat.ltb (of_Z 0)
     (temperatureIncrease (of_Z 10000) (of_Z 4186)
        (totalPowerOutput (of_Z (-50)) (of_Z (-4))) (of_Z 60)) = true /\
   simulateHeatTransfer (of_Z 10000) (of_Z 4186) (of_Z 20) (of_Z 60)
                        (of_Z (-50)) (of_Z (-4)) (of_Z 60) 140
     = Some (of_Z 8400) /\
   simulateHeatTransfer (of_Z 10000) (of_Z 4186) (of_Z 20) (of_Z 60)
                        (of_Z (-25)) (of_Z (-4)) (of_Z 60) 280
     = Some (of_Z 16800) /\
   PrimFloat.leb (of_Z 16800) (of_Z 8400) = false) /\
  (PrimFloat.ltb (of_Z 0)
     (temperatureIncrease (of_Z 10000) (of_Z 4186)
        (totalPowerOutput (of_Z 25) (of_Z (-4))) (of_Z (-60))) = true /\
   simulateHeatTransfer (of_Z 10000) (of_Z 4186) (of_Z 20) (of_Z 60)
                        (of_Z 25) (of_Z (-4)) (of_Z (-60)) 280
     = Some (of_Z (-16800)) /\
   simulateHeatTransfer (of_Z 10000) (of_Z 4186) (of_Z 20) (of_Z 60)
                        (of_Z 50) (of_Z (-4)) (of_Z (-60)) 140
     = Some (of_Z (-8400)) /\
   PrimFloat.leb (of_Z (-8400)) (of_Z (-16800)) = false).
Proof. repeat split; vm_compute; reflexivity. Qed.
End MorePowerMore.

Section HigherTarget.
Import JSTarget.

(** X17.  On JavaScript numbers, roundings included, a lower target is
    never reached later: for two calls that differ in the target
    temperature only, [targetTemperature1 <= targetTemperature2], with
    [timeStep >= 0], whenever the call with the higher target returns, the
    call with the lower target returns too, and its elapsed time is less
    than or equal to the other's. *)
Theorem higher_target_not_faster
    (m c i t1 t2 nc cp ts : float) (fuel : nat) (r2 : float) :
  PrimFloat.leb (of_Z 0) ts = true ->
  PrimFloat.leb t1 t2 = true ->
  simulateHeatTransfer m c i t2 nc cp ts fuel = Some r2 ->
  exists r1 : float,
    simulateHeatTransfer m c i t1 nc cp ts fuel = Some r1 /\
    PrimFloat.leb r1 r2 = true.
Proof.
  intros Hts Ht Hr2. unfold simulateHeatTransfer, finalState in *.
  destruct (loop m c t2 (totalPowerOutput nc cp) ts fuel (initialState i))
    as [s2|] eqn:E2; [|discriminate].
  cbn [option_map] in Hr2. injection Hr2 as <-.
  destruct (compare_targets m c (totalPowerOutput nc cp) ts t1 t2 Hts Ht fuel
                            (initialState i) s2) as (s1 & E1 & H);
    [reflexivity | exact E2 |].
  exists (totalTime s1). rewrite E1. split; [reflexivity | exact H].
Qed.

(** The reference scenario against a target of 50 degrees. *)
Lemma higher_target_not_faster_witness :
  exists r1 : float,
    simulateHeatTransfer (of_Z 10000) (of_Z 4186) (of_Z 20) (of_Z 50)
                         (of_Z 25) (of_Z 4) (of_Z 60) 280 = Some r1 /\
    PrimFloat.leb r1 (of_Z 16800) = true.
Proof.
  apply (higher_target_not_faster
           (of_Z 10000) (of_Z 4186) (of_Z 20) (of_Z 50) (of_Z 60)
           (of_Z 25) (of_Z 4) (of_Z 60) 280 (of_Z 16800));
    vm_compute; reflexivity.
Defined.
End HigherTarget.

Section HeavierTank.
Import JSMass JSCompare Binary64AddMonotone Binary64Monotone.

(** X18.  On JavaScript numbers, roundings included, a smaller heat
    capacity is never slower: for two calls that differ in [mass] and
    [specificHeat] only, with [0 < mass1 <= mass2],
    [0 < specificHeat1 <= specificHeat2] and [timeStep >= 0], if the
    temperature increase that the call with the larger tank computes is
    positive, then whenever that call returns, the call with the smaller
    tank returns too, and its elapsed time is less than or equal to the
    other's. *)
Theorem heavier_tank_not_faster
    (m1 c1 m2 c2 i t nc cp ts : float) (fuel : nat) (r2 : float) :
  PrimFloat.ltb (of_Z 0) m1 = true -> PrimFloat.leb m1 m2 = true ->
  PrimFloat.ltb (of_Z 0) c1 = true -> PrimFloat.leb c1 c2 = true ->
  PrimFloat.leb (of_Z 0) ts = true ->
  PrimFloat.ltb (of_Z 0)
    (temperatureIncrease m2 c2 (totalPowerOutput nc cp) ts) = true ->
  simulateHeatTransfer m2 c2 i t nc cp ts fuel = Some r2 ->
  exists r1 : float,
    simulateHeatTransfer m1 c1 i t nc cp ts fuel = Some r1 /\
    PrimFloat.leb r1 r2 = true.
Proof.
  intros Pm1 Hm Pc1 Hc Hts Hpos Hr2.
  pose proof (increase_antitone m1 c1 m2 c2 (totalPowerOutput nc cp) ts
                                Pm1 Hm Pc1 Hc Hpos) as Hle.
  unfold simulateHeatTransfer, finalState in *.
  destruct (loop m2 c2 t (totalPowerOutput nc cp) ts fuel (initialState i))
    as [s2|] eqn:E2; [|discriminate].
  cbn [option_map] in Hr2. injection Hr2 as <-.
  destruct (compare_runs m2 c2 (totalPowerOutput nc cp) m1 c1
                         (totalPowerOutput nc cp) t ts Hts Hpos Hle fuel
                         (initialState i) (initialState i) s2)
    as (s1 & E1 & H); [reflexivity | reflexivity | | exact E2 |].
  - intros Hc2. apply leb_refl. exact (below_not_nan _ _ Hc2).
  - exists (totalTime s1). rewrite E1. split; [reflexivity | exact H].
Qed.

(** Half the reference tank against the reference scenario. *)
Lemma heavier_tank_not_faster_witness :
  exists r1 : float,
    simulateHeatTransfer (of_Z 5000) (of_Z 4186) (of_Z 20) (of_Z 60)
                         (of_Z 25) (of_Z 4) (of_Z 60) 280 = Some r1 /\
    PrimFloat.leb r1 (of_Z 16800) = true.
Proof.
  apply (heavier_tank_not_faster
           (of_Z 5000) (of_Z 4186) (of_Z 10000) (of_Z 4186) (of_Z 20) (of_Z 60)
           (of_Z 25) (of_Z 4) (of_Z 60) 280 (of_Z 16800));
    vm_compute; reflexivity.
Defined.
End HeavierTank.
